(** * YouTube playlist direct-link extractor: a shallow embedding

    The Python sources embedded here are
    - [modules/output_formatter.py]  ([sanitize_filename], [write_to_file],
      [generate_output_filename]),
    - [modules/url_resolver.py]      ([get_direct_url], [format_filesize]),
    - [modules/playlist_fetcher.py]  ([get_playlist_videos],
      [get_playlist_title]),
    - [modules/orchestrator.py]      (sequential [process_playlist]),
    - [modules/orchestrator_async.py] ([_resolve_video_url] and the
      thread-pool [process_playlist]),
    - [playlist_grabber.py]          ([main]).

    Python [str] values are [string]s, Python [int]s are [Z], Python [float]
    delays are rationals ([Q]; the only arithmetic done on them is a
    multiplication by [0.5] and comparisons), [None] is [None].  Calls into
    yt-dlp, the clock and the file system are operations on an abstract
    world; code that may raise runs in a small monad that threads the world,
    carries the exception and logs the invocations of [get_direct_url] and
    the sleeps.  The thread pool of the concurrent orchestrator is a machine
    driven by an arbitrary schedule.

    Console output of the orchestrators (the [console.print] calls and the
    progress bar of rich) is not modelled.  In the source these calls parse
    their text as markup and raise [MarkupError] on an unmatched closing
    tag, for instance in a playlist or video title; such a run raises where
    the model goes on.  A statement about the report of a run that returns
    holds of such runs too; a statement that a run returns is to be read
    for texts that the console accepts. *)

From Stdlib Require Import List String Ascii Bool Arith ZArith QArith Lia.
From Stdlib Require Import Permutation.
Import ListNotations.

Local Open Scope string_scope.
Local Open Scope list_scope.
Local Open Scope Z_scope.

(** ** Python string primitives used by the sources *)

Module PyStr.

(** [c in chars] for a one-character [c]. *)
Fixpoint mem (c : ascii) (chars : string) : bool :=
  match chars with
  | EmptyString => false
  | String d rest => Ascii.eqb c d || mem c rest
  end.

(** [s.replace(old, new)] for one-character [old] and [new]. *)
Fixpoint replace (old new : ascii) (s : string) : string :=
  match s with
  | EmptyString => EmptyString
  | String c rest =>
      String (if Ascii.eqb c old then new else c) (replace old new rest)
  end.

(** [s.lstrip(chars)]. *)
Fixpoint lstrip (chars : string) (s : string) : string :=
  match s with
  | EmptyString => EmptyString
  | String c rest => if mem c chars then lstrip chars rest else s
  end.

(** [s.rstrip(chars)]. *)
Fixpoint rstrip (chars : string) (s : string) : string :=
  match s with
  | EmptyString => EmptyString
  | String c rest =>
      match rstrip chars rest with
      | EmptyString => if mem c chars then EmptyString else String c EmptyString
      | kept => String c kept
      end
  end.

(** [s.strip(chars)]. *)
Definition strip (chars : string) (s : string) : string :=
  rstrip chars (lstrip chars s).

(** [s[:n]]. *)
Fixpoint slice_to (n : nat) (s : string) : string :=
  match n, s with
  | O, _ => EmptyString
  | _, EmptyString => EmptyString
  | S n', String c rest => String c (slice_to n' rest)
  end.

(** [sub in s]. *)
Fixpoint contains (sub s : string) : bool :=
  String.prefix sub s ||
  match s with
  | EmptyString => false
  | String _ rest => contains sub rest
  end.

(** Truthiness of a [str]: the empty string is falsy. *)
Definition truthy (s : string) : bool :=
  match s with
  | EmptyString => false
  | String _ _ => true
  end.

(** Truthiness of an [Optional[str]]: [None] and [''] are falsy. *)
Definition truthy_opt (o : option string) : bool :=
  match o with
  | None => false
  | Some s => truthy s
  end.

(** First and last characters, when there are any. *)
Definition first (s : string) : option ascii :=
  match s with
  | EmptyString => None
  | String c _ => Some c
  end.

Fixpoint last (s : string) : option ascii :=
  match s with
  | EmptyString => None
  | String c EmptyString => Some c
  | String _ rest => last rest
  end.

(** [c * n]. *)
Fixpoint repeat (c : ascii) (n : nat) : string :=
  match n with
  | O => EmptyString
  | S n' => String c (repeat c n')
  end.

End PyStr.

(** ** Python values and exceptions *)

(** Exceptions deriving from [Exception]; [str(e)] is the carried text. *)
Inductive exn : Type :=
| TypeError (msg : string)
| AttributeError (msg : string)
| IndexError (msg : string)
| ValueError (msg : string)
| OSError (msg : string)
| DownloadError (msg : string)
| Exception_ (msg : string).

Definition exn_str (e : exn) : string :=
  match e with
  | TypeError m | AttributeError m | IndexError m | ValueError m
  | OSError m | DownloadError m | Exception_ m => m
  end.

(** A number that may be [None] (the file sizes reported by yt-dlp). *)
Inductive pynum : Type :=
| PyNone
| PyNum (q : Q).

(** Truthiness of such a value: [None] and zero are falsy. *)
Definition pynum_truthy (v : pynum) : bool :=
  match v with
  | PyNone => false
  | PyNum q => negb (Qeq_bool q 0)
  end.

(** The keys of yt-dlp's info dictionary that [get_direct_url] reads.  An
    [option] field is [None] when the key is missing (or, for [info_url],
    when its value is [None]).  The dictionary may hold other keys; the
    empty dictionary, which is falsy like [None], is not told apart from a
    dictionary that holds none of these keys. *)
Record info_dict : Type := {
  info_url : option string;
  info_requested_formats : option (list (option string));
  info_width : option string;
  info_height : option string;
  info_filesize : pynum;
  info_filesize_approx : option pynum;
  info_ext : option string;
  info_format_note : option string;
  info_vcodec : option string;
  info_acodec : option string
}.

(** The [format_info] dictionary; [filesize_str] is the key the orchestrators
    add afterwards. *)
Record format_info : Type := {
  resolution : string;
  filesize : pynum;
  ext : string;
  format_note : string;
  vcodec : string;
  acodec : string;
  filesize_str : option string
}.

Definition set_filesize_str (fi : format_info) (s : string) : format_info :=
  {| resolution := resolution fi; filesize := filesize fi; ext := ext fi;
     format_note := format_note fi; vcodec := vcodec fi; acodec := acodec fi;
     filesize_str := Some s |}.

(** One element of the list returned by [get_playlist_videos]. *)
Record video : Type := {
  id : string;
  title : string;
  url : string;
  duration : Z
}.

(** What yt-dlp's flat playlist extraction returns.  A field is [None]
    when the key is missing; a key that is present with the value [None],
    for which [entry.get(key, default)] returns [None] and not the default,
    is not represented. *)
Record playlist_entry : Type := {
  pe_id : option string;
  pe_title : option string;
  pe_url : option string;
  pe_duration : option Z
}.

Record playlist_info : Type := {
  pl_title : option (option string);
  pl_entries : option (list (option playlist_entry))
}.

(** One element of [video_data]. *)
Record entry : Type := {
  e_title : string;
  e_url : option string;
  e_format_info : option format_info
}.

(** The [result] dictionary of [process_playlist]. *)
Record result : Type := {
  success : bool;
  output_file : option string;
  total_videos : Z;
  successful : Z;
  failed : Z;
  errors : list string
}.

(** Observable actions of a run: an invocation of [get_direct_url] and a
    [time.sleep]. *)
Inductive event : Type :=
| Resolve (video_id quality : string)
| Sleep (seconds : Q).

(** ** The outside world

    Everything the sources obtain from yt-dlp, the clock and the file system
    is an operation on an abstract [World]. *)
Class Runtime : Type := {
  World : Type;
  (** [YoutubeDL(opts).extract_info(video_url, download=False)] where
      [opts['format']] is the second argument. *)
  extract_info : string -> string -> World -> (exn + option info_dict) * World;
  (** The same call with [extract_flat], on a playlist URL. *)
  extract_flat : string -> World -> (exn + option playlist_info) * World;
  (** [datetime.now().strftime("%Y%m%d_%H%M%S")]. *)
  timestamp : World -> string * World;
  (** Creating the directory, opening and writing the output file. *)
  fs_write : string -> list entry -> option string -> World -> option exn * World;
  (** The rendering [f"{x:.1f}"]. *)
  format_1f : Q -> string
}.

(** ** A monad for world-passing code that may raise and logs its events *)

Section Monad.
Context {R : Runtime}.

Definition M (A : Type) : Type := World -> (exn + A) * World * list event.

Definition ret {A} (a : A) : M A := fun w => (inr a, w, []).

Definition bind {A B} (c : M A) (k : A -> M B) : M B :=
  fun w =>
    match c w with
    | (inl e, w1, t1) => (inl e, w1, t1)
    | (inr a, w1, t1) =>
        match k a w1 with
        | (r, w2, t2) => (r, w2, t1 ++ t2)
        end
    end.

Definition raise {A} (e : exn) : M A := fun w => (inl e, w, []).

(** [try: c  except Exception as e: h e]. *)
Definition try_except {A} (c : M A) (h : exn -> M A) : M A :=
  fun w =>
    match c w with
    | (inl e, w1, t1) =>
        match h e w1 with
        | (r, w2, t2) => (r, w2, t1 ++ t2)
        end
    | (inr a, w1, t1) => (inr a, w1, t1)
    end.

Definition emit (ev : event) : M unit := fun w => (inr tt, w, [ev]).

(** An operation of the world that cannot raise. *)
Definition perform {A} (op : World -> A * World) : M A :=
  fun w => match op w with (a, w1) => (inr a, w1, []) end.

(** An operation of the world that may raise. *)
Definition attempt {A} (op : World -> (exn + A) * World) : M A :=
  fun w => match op w with (r, w1) => (r, w1, []) end.

Definition lift_result {A} (r : exn + A) : M A :=
  match r with
  | inl e => raise e
  | inr a => ret a
  end.

(** [time.sleep(seconds)] for a duration that is a number and not
    negative; for a negative duration or a NaN [time.sleep] raises
    [ValueError], which is left out here.  [main] replaces a delay below 0.5
    by 0.5, and the pause of [_resolve_video_url] is the constant 0.5. *)
Definition sleep (seconds : Q) : M unit := emit (Sleep seconds).

Definition outcome {A} (x : (exn + A) * World * list event) : exn + A :=
  fst (fst x).
Definition world_of {A} (x : (exn + A) * World * list event) : World :=
  snd (fst x).
Definition trace {A} (x : (exn + A) * World * list event) : list event :=
  snd x.

End Monad.

Declare Scope py_scope.
Delimit Scope py_scope with py.
Notation "x <- c ;; k" := (bind c (fun x => k))
  (at level 61, c at next level, right associativity) : py_scope.
Notation "' pat <- c ;; k" := (bind c (fun x => match x with pat => k end))
  (at level 61, pat pattern, c at next level, right associativity) : py_scope.
Notation "c ;; k" := (bind c (fun _ => k))
  (at level 61, right associativity) : py_scope.
Local Open Scope py_scope.

(** ** Python builtins *)

(** [range(n)]. *)
Definition range (n : Z) : list Z := map Z.of_nat (seq 0 (Z.to_nat n)).

(** [enumerate(xs, start)]. *)
Fixpoint enumerate {A} (start : Z) (xs : list A) : list (Z * A) :=
  match xs with
  | [] => []
  | x :: rest => (start, x) :: enumerate (start + 1) rest
  end.

(** [len(xs)]. *)
Definition len {A} (xs : list A) : Z := Z.of_nat (List.length xs).

(** [d.get(key, default)] for a key that may be missing. *)
Definition get_default {A} (o : option A) (default : A) : A :=
  match o with
  | Some a => a
  | None => default
  end.

(** ** modules/url_resolver.py *)

Module UrlResolver.
Section Defs.
Context {R : Runtime}.

Definition format_selectors (quality_preference : string) : string :=
  if String.eqb quality_preference "1080p" then
    "bestvideo[height<=1080][ext=mp4]+bestaudio[ext=m4a]/best[height<=1080][ext=mp4]/best[ext=mp4]/best"
  else if String.eqb quality_preference "720p" then
    "bestvideo[height<=720][ext=mp4]+bestaudio[ext=m4a]/best[height<=720][ext=mp4]/best[ext=mp4]/best"
  else
    "bestvideo[ext=mp4]+bestaudio[ext=m4a]/best[ext=mp4]/best".

(** The body of the [with] block, once [extract_info] has returned.
    [if not info] is taken for [None] here; it also holds of the empty
    dictionary, for which the source returns [(None, None)] as well. *)
Definition read_info (info : option info_dict)
  : M (option string * option format_info) :=
  match info with
  | None => ret (None, None)
  | Some info =>
      let direct_url := info_url info in
      direct_url <-
        (if negb (PyStr.truthy_opt direct_url) then
           match info_requested_formats info with
           | Some (video_format :: _) => ret video_format
           | Some [] => raise (IndexError "list index out of range")
           | None => ret direct_url
           end
         else ret direct_url) ;;
      let format_info :=
        {| resolution :=
             (get_default (info_width info) "N/A" ++ "x"
              ++ get_default (info_height info) "N/A")%string;
           filesize :=
             if pynum_truthy (info_filesize info) then info_filesize info
             else get_default (info_filesize_approx info) (PyNum 0);
           ext := get_default (info_ext info) "mp4";
           format_note := get_default (info_format_note info) "unknown";
           vcodec := get_default (info_vcodec info) "unknown";
           acodec := get_default (info_acodec info) "unknown";
           filesize_str := None |} in
      ret (direct_url, Some format_info)
  end.

Definition get_direct_url (video_id quality_preference : string)
  : M (option string * option format_info) :=
  emit (Resolve video_id quality_preference) ;;
  let video_url := ("https://www.youtube.com/watch?v=" ++ video_id)%string in
  let format_string := format_selectors quality_preference in
  try_except
    (info <- attempt (extract_info video_url format_string) ;;
     read_info info)
    (fun _ => ret (None, None)).

(** [for unit in units: ...] followed by the [TB] fallback. *)
Fixpoint filesize_units (units : list string) (size_bytes : Q) : string :=
  match units with
  | [] => (format_1f size_bytes ++ " TB")%string
  | unit :: rest =>
      if negb (Qle_bool 1024 size_bytes)
      then (format_1f size_bytes ++ " " ++ unit)%string
      else filesize_units rest (size_bytes / 1024)%Q
  end.

(** Sizes are exact rationals here.  In the source [size_bytes /= 1024.0]
    is exact for an [int] below 2^53 and for a [float]; it rounds a larger
    [int] and raises [OverflowError] for an [int] that no [float] can hold,
    which is left out. *)
Definition format_filesize (size_bytes : pynum) : exn + string :=
  match size_bytes with
  | PyNum q =>
      if Qeq_bool q 0 then inr "Unknown"
      else inr (filesize_units ["B"; "KB"; "MB"; "GB"] q)
  | PyNone =>
      (* [None == 0] is false; [None < 1024.0] raises. *)
      inl (TypeError "'<' not supported between instances of 'NoneType' and 'float'")
  end.

End Defs.
End UrlResolver.

(** ** modules/playlist_fetcher.py *)

Module PlaylistFetcher.
Section Defs.
Context {R : Runtime}.

(** The loop over [playlist_info['entries']]. *)
Fixpoint collect (entries : list (option playlist_entry)) : list video :=
  match entries with
  | [] => []
  | None :: rest => collect rest
  | Some e :: rest =>
      {| id := get_default (pe_id e) "";
         title := get_default (pe_title e) "Unknown Title";
         url := get_default (pe_url e)
                  ("https://www.youtube.com/watch?v=" ++ get_default (pe_id e) "")%string;
         duration := get_default (pe_duration e) 0 |} :: collect rest
  end.

Definition get_playlist_videos (playlist_url : string) : M (list video) :=
  try_except
    (playlist_info <- attempt (extract_flat playlist_url) ;;
     match playlist_info with
     | None => raise (Exception_ "Could not extract playlist information")
     | Some playlist_info =>
         match pl_entries playlist_info with
         | None => raise (Exception_ "URL does not appear to be a valid playlist")
         | Some entries => ret (collect entries)
         end
     end)
    (fun e => raise (Exception_ ("Failed to fetch playlist: " ++ exn_str e)%string)).

Definition get_playlist_title (playlist_url : string) : M (option string) :=
  try_except
    (playlist_info <- attempt (extract_flat playlist_url) ;;
     match playlist_info with
     | None => raise (AttributeError "'NoneType' object has no attribute 'get'")
     | Some playlist_info =>
         ret (get_default (pl_title playlist_info) (Some "Unknown Playlist"))
     end)
    (fun _ => ret (Some "Unknown Playlist")).

End Defs.
End PlaylistFetcher.

(** ** modules/output_formatter.py *)

Module OutputFormatter.

(** The nine characters of the source literal, in source order: less-than,
    greater-than, colon, double quote (code 34), slash, backslash, bar,
    question mark, star. *)
Definition invalid_chars : string :=
  String "<" (String ">" (String ":" (String (ascii_of_nat 34)
    (String "/" (String "\" (String "|" (String "?" (String "*" EmptyString)))))))).

(** [for char in invalid_chars: filename = filename.replace(char, '_')]. *)
Fixpoint replace_invalid (chars : string) (filename : string) : string :=
  match chars with
  | EmptyString => filename
  | String char rest => replace_invalid rest (PyStr.replace char "_" filename)
  end.

Definition sanitize_filename (filename : string) : string :=
  let filename := replace_invalid invalid_chars filename in
  let filename := PyStr.strip ". " filename in
  let filename :=
    if (200 <? String.length filename)%nat
    then PyStr.slice_to 200 filename
    else filename in
  if PyStr.truthy filename then filename else "output".

Section Defs.
Context {R : Runtime}.

(** The directory creation, the timestamp and the writes are one
    operation of the world; the count is computed as in the source. *)
Definition write_to_file (video_data : list entry) (output_path : string)
    (playlist_title : option string) : M Z :=
  let url_count :=
    len (filter (fun v => PyStr.truthy_opt (e_url v)) video_data) in
  attempt (fun w =>
    match fs_write output_path video_data playlist_title w with
    | (Some e, w1) => (inl e, w1)
    | (None, w1) => (inr tt, w1)
    end) ;;
  ret url_count.

(** [playlist_title] is an [Optional[str]]; [None.replace] raises. *)
Definition generate_output_filename (playlist_title : option string)
  : M string :=
  match playlist_title with
  | None =>
      raise (AttributeError "'NoneType' object has no attribute 'replace'")
  | Some playlist_title =>
      let safe_title := sanitize_filename playlist_title in
      stamp <- perform timestamp ;;
      ret (safe_title ++ "_" ++ stamp ++ ".txt")%string
  end.

End Defs.

End OutputFormatter.

(** ** The state of the resolution step, shared by both orchestrators *)

Record tally : Type := {
  video_data : list entry;
  failed_videos : list string;
  report : result
}.

Definition initial_result : result :=
  {| success := false; output_file := None; total_videos := 0;
     successful := 0; failed := 0; errors := [] |}.

(** [result['errors'].append(msg)]. *)
Definition add_error (r : result) (msg : string) : result :=
  {| success := success r; output_file := output_file r;
     total_videos := total_videos r; successful := successful r;
     failed := failed r; errors := errors r ++ [msg] |}.

(** [result['total_videos'] = n]. *)
Definition set_total_videos (r : result) (n : Z) : result :=
  {| success := success r; output_file := output_file r;
     total_videos := n; successful := successful r;
     failed := failed r; errors := errors r |}.

(** [video_data.append(e); result['successful'] += 1]. *)
Definition record_success (st : tally) (e : entry) : tally :=
  let r := report st in
  {| video_data := video_data st ++ [e];
     failed_videos := failed_videos st;
     report := {| success := success r; output_file := output_file r;
                  total_videos := total_videos r;
                  successful := successful r + 1;
                  failed := failed r; errors := errors r |} |}.

(** [failed_videos.append(t); result['failed'] += 1]. *)
Definition record_failure (st : tally) (video_title : string) : tally :=
  let r := report st in
  {| video_data := video_data st;
     failed_videos := failed_videos st ++ [video_title];
     report := {| success := success r; output_file := output_file r;
                  total_videos := total_videos r;
                  successful := successful r;
                  failed := failed r + 1; errors := errors r |} |}.

(** [result['output_file'] = path; result['success'] = True]. *)
Definition set_written (r : result) (path : string) : result :=
  {| success := true; output_file := Some path;
     total_videos := total_videos r; successful := successful r;
     failed := failed r; errors := errors r |}.

(** Steps 1 and 3, identical in the two orchestrator files. *)
Section SharedSteps.
Context {R : Runtime}.

(** Step 3: write the output file. *)
Definition write_step (playlist_title : option string)
    (output_path : option string) (st : tally) : M result :=
  let result := report st in
  match video_data st with
  | [] => ret (add_error result "No URLs were successfully resolved")
  | _ :: _ =>
      output_path <-
        (if PyStr.truthy_opt output_path
         then ret (get_default output_path "")
         else OutputFormatter.generate_output_filename playlist_title) ;;
      try_except
        (_ <- OutputFormatter.write_to_file (video_data st) output_path
                playlist_title ;;
         ret (set_written result output_path))
        (fun e =>
           ret (add_error result
                  ("Failed to write output file: " ++ exn_str e)%string))
  end.

(** Step 1 of both orchestrators: the guarded fetch, without its console
    output.  In the source the [try] also prints the title and the number
    of videos, and the handler prints the error; a text that breaks the
    markup of rich makes these prints raise. *)
Definition fetch_step (playlist_url : string)
  : M (exn + option string * list video) :=
  try_except
    (playlist_title <- PlaylistFetcher.get_playlist_title playlist_url ;;
     videos <- PlaylistFetcher.get_playlist_videos playlist_url ;;
     ret (inr (playlist_title, videos)))
    (fun e => ret (inl e)).

End SharedSteps.

(** ** modules/orchestrator.py *)

Module Orchestrator.
Section Defs.
Context {R : Runtime}.
Variables (quality : string) (delay : Q) (max_retries : Z).

(** [for attempt in range(max_retries): ...], started with the current
    [(direct_url, format_info)]. *)
Fixpoint retry (video_id : string) (attempts : list Z)
    (current : option string * option format_info)
  : M (option string * option format_info) :=
  match attempts with
  | [] => ret current
  | attempt :: rest =>
      r <- UrlResolver.get_direct_url video_id quality ;;
      if PyStr.truthy_opt (fst r) then ret r
      else
        (if attempt <? max_retries - 1
         then sleep (delay * (1 # 2))%Q
         else ret tt) ;;
        retry video_id rest r
  end.

(** The [if direct_url: ... else: ...] that records one video. *)
Definition record (video_title : string)
    (r : option string * option format_info) (st : tally) : M tally :=
  let '(direct_url, format_info) := r in
  if PyStr.truthy_opt direct_url then
    format_info <-
      match format_info with
      | Some fi =>
          s <- lift_result (UrlResolver.format_filesize (filesize fi)) ;;
          ret (Some (set_filesize_str fi s))
      | None => ret None
      end ;;
    ret (record_success st
           {| e_title := video_title; e_url := direct_url;
              e_format_info := format_info |})
  else ret (record_failure st video_title).

(** [for idx, video in enumerate(videos, 1): ...]; [total] is
    [len(videos)].  The console output of the loop is left out: the
    [progress.update] with [video_title[:40]] and the lines printed for a
    resolved and for a failed video, which raise on a title that breaks the
    markup of rich. *)
Fixpoint for_videos (total : Z) (items : list (Z * video)) (st : tally)
  : M tally :=
  match items with
  | [] => ret st
  | (idx, video) :: rest =>
      let video_id := id video in
      let video_title := title video in
      r <- retry video_id (range max_retries) (None, None) ;;
      st <- record video_title r st ;;
      (if idx <? total then sleep delay else ret tt) ;;
      for_videos total rest st
  end.

(** Step 2: resolve every video in playlist order. *)
Definition resolve_step (videos : list video) (result : result) : M tally :=
  for_videos (len videos) (enumerate 1 videos)
    {| video_data := []; failed_videos := []; report := result |}.

Definition process_playlist (playlist_url : string)
    (output_path : option string) : M result :=
  let result := initial_result in
  fetched <- fetch_step playlist_url ;;
  match fetched with
  | inl e =>
      ret (add_error result ("Failed to fetch playlist: " ++ exn_str e)%string)
  | inr (playlist_title, videos) =>
      let result := set_total_videos result (len videos) in
      match videos with
      | [] => ret (add_error result "No videos found in playlist")
      | _ :: _ =>
          st <- resolve_step videos result ;;
          write_step playlist_title output_path st
      end
  end.

End Defs.
End Orchestrator.

(** ** modules/orchestrator_async.py *)

(** The dictionary returned by [_resolve_video_url]: with the key
    ['success'] true it carries the URL and the format, otherwise only the
    title. *)
Inductive video_result : Type :=
| Resolved (video_title : string) (direct_url : option string)
    (fmt : option format_info)
| Unresolved (video_title : string).

(** Where a worker stands inside [_resolve_video_url]. *)
Inductive task_pc : Type :=
| AtLoop (attempts : list Z) (current : option string * option format_info)
| InCall (attempt : Z) (rest : list Z).

Record task : Type := {
  t_video : video;
  t_pc : task_pc
}.

(** A [Future] that is done holds a result or the exception raised by the
    call. *)
Definition future : Type := (exn + video_result)%type.

(** Modelled from the spec: the worker pool, which in the source is
    [concurrent.futures.ThreadPoolExecutor] of the Python library and not
    code under the sources.  The executor holds the submitted calls not yet
    started, the calls being run by a worker thread, and the finished
    futures in order of completion. *)
Record pool : Type := {
  queue : list video;
  active : list task;
  completed : list future
}.

(** [xs] without its [i]-th element, and with its [i]-th element replaced. *)
Fixpoint remove_nth {A} (i : nat) (xs : list A) : list A :=
  match xs, i with
  | [], _ => []
  | _ :: rest, O => rest
  | x :: rest, S i' => x :: remove_nth i' rest
  end.

Fixpoint replace_nth {A} (i : nat) (y : A) (xs : list A) : list A :=
  match xs, i with
  | [], _ => []
  | _ :: rest, O => y :: rest
  | x :: rest, S i' => x :: replace_nth i' y rest
  end.

(** An order in which [as_completed] may hand out finished futures: the
    [k]-th pick takes the element at position [k mod len] of what is left. *)
Fixpoint arrange {A} (picks : list nat) (xs : list A) : list A :=
  match picks with
  | [] => xs
  | k :: picks' =>
      let i := (k mod List.length xs)%nat in
      match nth_error xs i with
      | Some x => x :: arrange picks' (remove_nth i xs)
      | None => xs
      end
  end.

Module OrchestratorAsync.
Section Defs.
Context {R : Runtime}.
Variables (quality : string) (delay : Q) (max_retries : Z) (max_workers : Z).

(** [for attempt in range(max_retries): ...] of [_resolve_video_url]. *)
Fixpoint retry (video_id : string) (attempts : list Z)
    (current : option string * option format_info)
  : M (option string * option format_info) :=
  match attempts with
  | [] => ret current
  | attempt :: rest =>
      r <- UrlResolver.get_direct_url video_id quality ;;
      if PyStr.truthy_opt (fst r) then ret r
      else
        (if attempt <? max_retries - 1
         then sleep (1 # 2)%Q
         else ret tt) ;;
        retry video_id rest r
  end.

(** The [if direct_url: ... else: ...] that builds the returned
    dictionary. *)
Definition finish (video_title : string)
    (r : option string * option format_info) : M video_result :=
  let '(direct_url, format_info) := r in
  if PyStr.truthy_opt direct_url then
    format_info <-
      match format_info with
      | Some fi =>
          s <- lift_result (UrlResolver.format_filesize (filesize fi)) ;;
          ret (Some (set_filesize_str fi s))
      | None => ret None
      end ;;
    ret (Resolved video_title direct_url format_info)
  else ret (Unresolved video_title).

Definition _resolve_video_url (video : video) : M video_result :=
  let video_id := id video in
  let video_title := title video in
  r <- retry video_id (range max_retries) (None, None) ;;
  finish video_title r.

(** *** The thread pool

    The sources only construct [ThreadPoolExecutor(max_workers)], submit one
    call of [_resolve_video_url] per video and read the futures in
    [as_completed] order; the pool itself is library code.  It is modelled
    here after the contract of the worker pool in the specification: all
    items are submitted at once, at most [workerCount] invocations are in
    flight at any instant, and as soon as a slot frees the next pending item
    is admitted.  So each submitted call runs on one of at most
    [max_workers] worker threads, in submission order, and a worker runs one
    call at a time.  What a worker does is the code of
    [_resolve_video_url], cut at the entry and at the return of
    [get_direct_url], whose effect on the world takes place at the
    return. *)

(** One step of a worker: [inl] while the call goes on, [inr] when it
    returns. *)
Definition task_step (t : task) : M (task + video_result) :=
  let video_id := id (t_video t) in
  let video_title := title (t_video t) in
  match t_pc t with
  | AtLoop [] current =>
      res <- finish video_title current ;;
      ret (inr res)
  | AtLoop (attempt :: rest) _ =>
      ret (inl {| t_video := t_video t; t_pc := InCall attempt rest |})
  | InCall attempt rest =>
      r <- UrlResolver.get_direct_url video_id quality ;;
      if PyStr.truthy_opt (fst r)
      then ret (inl {| t_video := t_video t; t_pc := AtLoop [] r |})
      else
        (if attempt <? max_retries - 1
         then sleep (1 # 2)%Q
         else ret tt) ;;
        ret (inl {| t_video := t_video t; t_pc := AtLoop rest r |})
  end.

(** A worker left alone for [n] steps. *)
Fixpoint run_task (n : nat) (t : task) : M (task + video_result) :=
  match n with
  | O => ret (inl t)
  | S n' =>
      s <- task_step t ;;
      match s with
      | inl t' => run_task n' t'
      | inr res => ret (inr res)
      end
  end.

(** [executor.submit(_resolve_video_url, video, ...)] for every video. *)
Definition submit_all (videos : list video) : pool :=
  {| queue := videos; active := []; completed := [] |}.

Definition start (v : video) : task :=
  {| t_video := v; t_pc := AtLoop (range max_retries) (None, None) |}.

(** Modelled from the spec: the admission rule of the worker pool
    ([ThreadPoolExecutor], absent from the sources): "maintains at most
    workerCount concurrently in-flight invocations", "as soon as any
    in-flight slot frees the next pending item is admitted".  A submitted
    call can start when fewer than [max_workers] calls are running. *)
Definition can_admit (p : pool) : bool :=
  match queue p with
  | [] => false
  | _ :: _ => len (active p) <? max_workers
  end.

Inductive action : Type :=
| Admit
| Advance (i : nat).

(** Modelled from the spec: the scheduling of the worker pool.  The
    number of actions the pool can take, and the one chosen by [c]. *)
Definition choices (p : pool) : nat :=
  ((if can_admit p then 1 else 0) + List.length (active p))%nat.

Definition choose (c : nat) (p : pool) : option action :=
  match choices p with
  | O => None
  | S _ =>
      let k := (c mod choices p)%nat in
      if can_admit p then
        match k with
        | O => Some Admit
        | S i => Some (Advance i)
        end
      else Some (Advance k)
  end.

(** Modelled from the spec: one step of the worker pool
    ([ThreadPoolExecutor], absent from the sources).  [Admit] starts the
    next submitted call on a free worker thread, under the ceiling of
    [max_workers] running calls; [Advance i] lets the [i]-th busy worker
    take one step of [_resolve_video_url] and, when the call ends, stores
    what it returned or raised in its future. *)
Definition pool_step (a : action) (p : pool) : M pool :=
  match a with
  | Admit =>
      match queue p with
      | v :: rest =>
          if len (active p) <? max_workers
          then ret {| queue := rest; active := active p ++ [start v];
                      completed := completed p |}
          else ret p
      | [] => ret p
      end
  | Advance i =>
      match nth_error (active p) i with
      | None => ret p
      | Some t =>
          (* the worker stores what the call raises in its future *)
          r <- try_except (s <- task_step t ;; ret (inr s))
                          (fun e => ret (inl e)) ;;
          match r with
          | inr (inl t') =>
              ret {| queue := queue p;
                     active := replace_nth i t' (active p);
                     completed := completed p |}
          | inr (inr res) =>
              ret {| queue := queue p;
                     active := remove_nth i (active p);
                     completed := completed p ++ [inr res] |}
          | inl e =>
              ret {| queue := queue p;
                     active := remove_nth i (active p);
                     completed := completed p ++ [inl e] |}
          end
      end
  end.

(** Modelled from the spec: the run of the worker pool.  [n] steps of the
    pool under the schedule [sched], whose [k]-th value selects the [k]-th
    action; the pool stops when nothing is left. *)
Fixpoint run_pool (sched : nat -> nat) (n : nat) (k : nat) (p : pool)
  : M pool :=
  match n with
  | O => ret p
  | S n' =>
      match choose (sched k) p with
      | None => ret p
      | Some a =>
          p' <- pool_step a p ;;
          run_pool sched n' (S k) p'
      end
  end.

(** Enough steps for every call to return: one to start it, two per
    attempt and one to build its result. *)
Definition budget (videos : list video) : nat :=
  (List.length videos * (2 * Z.to_nat max_retries + 2))%nat.

(** Calls to [get_direct_url] that have been entered and have not
    returned. *)
Definition in_call (t : task) : bool :=
  match t_pc t with
  | InCall _ _ => true
  | AtLoop _ _ => false
  end.

Definition in_flight (p : pool) : nat :=
  List.length (filter in_call (active p)).

(** The body of [for future in as_completed(future_to_video): ...];
    [future.result()] re-raises what the call raised. *)
Fixpoint aggregate (futures : list future) (st : tally) : M tally :=
  match futures with
  | [] => ret st
  | fut :: rest =>
      video_result <- lift_result fut ;;
      let st :=
        match video_result with
        | Resolved video_title direct_url format_info =>
            record_success st
              {| e_title := video_title; e_url := direct_url;
                 e_format_info := format_info |}
        | Unresolved video_title => record_failure st video_title
        end in
      aggregate rest st
  end.

(** Step 2: the pool runs every submitted call, the main thread consumes
    the futures in the order [as_completed] yields them. *)
Definition resolve_step (sched : nat -> nat) (yield : list nat)
    (videos : list video) (result : result) : M tally :=
  (if max_workers <=? 0
   then raise (ValueError "max_workers must be greater than 0")
   else ret tt) ;;
  p <- run_pool sched (budget videos) 0 (submit_all videos) ;;
  aggregate (arrange yield (completed p))
    {| video_data := []; failed_videos := []; report := result |}.

(** The source function also takes [delay] and never uses it. *)
Definition process_playlist (sched : nat -> nat) (yield : list nat)
    (playlist_url : string) (output_path : option string) : M result :=
  let result := initial_result in
  fetched <- fetch_step playlist_url ;;
  match fetched with
  | inl e =>
      ret (add_error result ("Failed to fetch playlist: " ++ exn_str e)%string)
  | inr (playlist_title, videos) =>
      let result := set_total_videos result (len videos) in
      match videos with
      | [] => ret (add_error result "No videos found in playlist")
      | _ :: _ =>
          st <- resolve_step sched yield videos result ;;
          write_step playlist_title output_path st
      end
  end.

End Defs.
End OrchestratorAsync.

(** ** playlist_grabber.py *)

Module PlaylistGrabber.

(** The namespace produced by [parser.parse_args()]. *)
Record args : Type := {
  playlist_url : string;
  output_file : option string;
  quality : string;
  delay : Q;
  retries : Z;
  use_async : bool;
  workers : Z
}.

Definition set_delay (a : args) (d : Q) : args :=
  {| playlist_url := playlist_url a; output_file := output_file a;
     quality := quality a; delay := d; retries := retries a;
     use_async := use_async a; workers := workers a |}.

Definition set_workers (a : args) (n : Z) : args :=
  {| playlist_url := playlist_url a; output_file := output_file a;
     quality := quality a; delay := delay a; retries := retries a;
     use_async := use_async a; workers := n |}.

(** The checks of [main] that precede the import of an orchestrator: the
    lines they print, and [inl code] for [sys.exit(code)] or [inr a] for the
    namespace the run starts with.  The delay is a number here, for which
    [args.delay < 0.5] is the negation of [0.5 <= args.delay]; the NaN that
    [--delay nan] gives fails both tests and is not represented. *)
Definition validate (a : args) : list string * (Z + args) :=
  if negb (String.prefix "http" (playlist_url a)) then
    (["Error: Please provide a valid YouTube playlist URL"], inl 1)
  else if negb (PyStr.contains "list=" (playlist_url a)) then
    (["Error: URL does not appear to be a playlist (missing 'list=' parameter)"],
     inl 1)
  else
    let '(out, a) :=
      if negb (Qle_bool (1 # 2) (delay a))
      then (["Warning: Delay less than 0.5s may trigger rate limiting"],
            set_delay a (1 # 2)%Q)
      else ([], a) in
    if workers a <? 1 then
      (out ++ ["Error: Workers must be at least 1"], inl 1)
    else
      let '(out, a) :=
        if workers a >? 20
        then (out ++ ["Warning: More than 20 workers may trigger YouTube rate limiting. Setting to 20."],
              set_workers a 20)
        else (out, a) in
      (out, inr a).

Section Defs.
Context {R : Runtime}.

(** The call of [process_playlist] that [main] makes. *)
Definition run (sched : nat -> nat) (yield : list nat) (a : args)
  : M result :=
  if use_async a then
    OrchestratorAsync.process_playlist (quality a) (retries a) (workers a)
      sched yield (playlist_url a) (output_file a)
  else
    Orchestrator.process_playlist (quality a) (delay a) (retries a)
      (playlist_url a) (output_file a).

(** [main], returning the exit status of the process. *)
Definition main (sched : nat -> nat) (yield : list nat) (a : args) : M Z :=
  match snd (validate a) with
  | inl code => ret code
  | inr a =>
      try_except
        (result <- run sched yield a ;;
         if success result then ret 0 else ret 1)
        (fun _ => ret 1)
  end.

End Defs.
End PlaylistGrabber.

(** ** Worlds to run the model on *)

(** A world that answers the successive calls of [extract_info] from a
    script and fails once the script is exhausted. *)
Definition scripted (playlist : exn + option playlist_info)
    (write_error : option exn) : Runtime :=
  {| World := list (exn + option info_dict);
     extract_info := fun _ _ w =>
       match w with
       | [] => (inl (DownloadError "Video unavailable"), [])
       | answer :: rest => (answer, rest)
       end;
     extract_flat := fun _ w => (playlist, w);
     timestamp := fun w => ("20240101_000000", w);
     fs_write := fun _ _ _ w => (write_error, w);
     format_1f := fun _ => "0.0" |}.

(** A world whose resolver answers by video URL alone. *)
Definition by_url (answer : string -> exn + option info_dict)
    (playlist : exn + option playlist_info) (write_error : option exn)
  : Runtime :=
  {| World := unit;
     extract_info := fun video_url _ w => (answer video_url, w);
     extract_flat := fun _ w => (playlist, w);
     timestamp := fun w => ("20240101_000000", w);
     fs_write := fun _ _ _ w => (write_error, w);
     format_1f := fun _ => "0.0" |}.

(** An info dictionary with a direct URL and a known size. *)
Definition info_with_url (u : option string) : info_dict :=
  {| info_url := u; info_requested_formats := None;
     info_width := Some "1920"; info_height := Some "1080";
     info_filesize := PyNum 1000; info_filesize_approx := None;
     info_ext := Some "mp4"; info_format_note := Some "1080p";
     info_vcodec := Some "avc1"; info_acodec := Some "mp4a" |}.

(** A playlist with one entry per given id; titles are the ids. *)
Definition playlist_of (ids : list string) : exn + option playlist_info :=
  inr (Some {| pl_title := Some (Some "Mix");
               pl_entries := Some (map (fun i =>
                 Some {| pe_id := Some i; pe_title := Some i;
                         pe_url := None; pe_duration := None |}) ids) |}).

(** ** Observations on runs *)

(** The number of invocations of [get_direct_url] in a trace. *)
Fixpoint calls (t : list event) : nat :=
  match t with
  | [] => O
  | Resolve _ _ :: rest => S (calls rest)
  | Sleep _ :: rest => calls rest
  end.

(** The durations slept in a trace, in order. *)
Fixpoint sleeps (t : list event) : list Q :=
  match t with
  | [] => []
  | Resolve _ _ :: rest => sleeps rest
  | Sleep d :: rest => d :: sleeps rest
  end.

(** [n] copies of [x] with [sep] between consecutive copies and nowhere
    else. *)
Fixpoint alternating {A} (x sep : A) (n : nat) : list A :=
  match n with
  | O => []
  | S O => [x]
  | S n' => x :: sep :: alternating x sep n'
  end.

(** The answers up to and including the first one whose URL is truthy. *)
Fixpoint upto_success (rs : list (option string * option format_info))
  : list (option string * option format_info) :=
  match rs with
  | [] => []
  | r :: rest => if PyStr.truthy_opt (fst r) then [r] else r :: upto_success rest
  end.

Section Observations.
Context {R : Runtime}.

(** What [get_direct_url] returns in world [w], and the world it leaves. *)
Definition answer (video_id quality : string) (w : World)
  : option string * option format_info :=
  match outcome (UrlResolver.get_direct_url video_id quality w) with
  | inr r => r
  | inl _ => (None, None)
  end.

Definition after (video_id quality : string) (w : World) : World :=
  world_of (UrlResolver.get_direct_url video_id quality w).

(** What [n] consecutive invocations starting in [w] return. *)
Fixpoint answers (video_id quality : string) (n : nat) (w : World)
  : list (option string * option format_info) :=
  match n with
  | O => []
  | S n' =>
      answer video_id quality w
        :: answers video_id quality n' (after video_id quality w)
  end.

(** The world after [n] consecutive invocations starting in [w]. *)
Fixpoint after_calls (video_id quality : string) (n : nat) (w : World)
  : World :=
  match n with
  | O => w
  | S n' => after_calls video_id quality n' (after video_id quality w)
  end.

(** The retry loop of either orchestrator, with the pause as a
    parameter. *)
Section RetryWith.
Variables (quality : string) (max_retries : Z) (pause : Q).

Fixpoint retry_with (video_id : string) (attempts : list Z)
    (current : option string * option format_info)
  : M (option string * option format_info) :=
  match attempts with
  | [] => ret current
  | attempt :: rest =>
      r <- UrlResolver.get_direct_url video_id quality ;;
      if PyStr.truthy_opt (fst r) then ret r
      else
        (if attempt <? max_retries - 1 then sleep pause else ret tt) ;;
        retry_with video_id rest r
  end.
End RetryWith.

(** The retry loop as the sequential [process_playlist] and as
    [_resolve_video_url] run it for one video, started in world [w]. *)
Definition seq_retry_run (quality : string) (delay : Q) (max_retries : Z)
    (video_id : string) (w : World) :=
  Orchestrator.retry quality delay max_retries video_id
    (range max_retries) (None, None) w.

Definition async_retry_run (quality : string) (max_retries : Z)
    (video_id : string) (w : World) :=
  OrchestratorAsync.retry quality max_retries video_id
    (range max_retries) (None, None) w.

End Observations.

(** The counters after a step relative to the counters before it:
    [n] more videos are accounted for, each as a success or as a failure,
    and the lists grow with their counters. *)
Definition advanced (n : Z) (st st' : tally) : Prop :=
  successful (report st') + failed (report st')
    = successful (report st) + failed (report st) + n /\
  len (video_data st') - successful (report st')
    = len (video_data st) - successful (report st) /\
  len (failed_videos st') - failed (report st')
    = len (failed_videos st) - failed (report st) /\
  successful (report st) <= successful (report st') /\
  total_videos (report st') = total_videos (report st) /\
  success (report st') = success (report st) /\
  output_file (report st') = output_file (report st) /\
  errors (report st') = errors (report st).

(** ** A termination measure for the pool *)

(** Steps a worker still has to take before its call returns. *)
Definition task_cost (t : task) : nat :=
  match t_pc t with
  | AtLoop attempts _ => (2 * List.length attempts + 1)%nat
  | InCall _ rest => (2 * List.length rest + 2)%nat
  end.

(** Steps the pool still has to take: for a submitted call, one to start it
    and those of a fresh worker. *)
Definition pool_cost (max_retries : Z) (p : pool) : nat :=
  (List.length (queue p) * (2 * Z.to_nat max_retries + 2)
   + list_sum (map task_cost (active p)))%nat.

(** The calls the pool has been given, whatever their state. *)
Definition population (p : pool) : nat :=
  (List.length (queue p) + List.length (active p)
   + List.length (completed p))%nat.

(** The state of step 2 once all [n] videos are accounted for, starting
    from the initial result with [total_videos] set. *)
Definition accounted (n : Z) (st : tally) : Prop :=
  successful (report st) + failed (report st) = n /\
  len (video_data st) = successful (report st) /\
  len (failed_videos st) = failed (report st) /\
  0 <= successful (report st) /\
  total_videos (report st) = n /\
  success (report st) = false /\
  output_file (report st) = None /\
  errors (report st) = [].


(** A playlist of two videos whose first resolves and whose second is
    unavailable, on a writable and on a read-only file system; and an empty
    playlist. *)
Definition two_videos : Runtime := scripted (playlist_of ["a"; "b"]) None.



Definition first_resolves : list (exn + option info_dict) :=
  [inr (Some (info_with_url (Some "https://cdn.example/a.mp4")));
   inl (DownloadError "Private video")].


(** The two videos of that playlist, as the fetch returns them. *)
Definition two_video_list : list video :=
  [{| id := "a"; title := "a";
      url := "https://www.youtube.com/watch?v=a"; duration := 0 |};
   {| id := "b"; title := "b";
      url := "https://www.youtube.com/watch?v=b"; duration := 0 |}].

Definition demo_url : string := "https://www.youtube.com/playlist?list=PL1".

(** ** What a run settles for each video *)

(** The counting done for one finished future by either orchestrator. *)
Definition count_result (st : tally) (res : video_result) : tally :=
  match res with
  | Resolved video_title direct_url format_info =>
      record_success st
        {| e_title := video_title; e_url := direct_url;
           e_format_info := format_info |}
  | Unresolved video_title => record_failure st video_title
  end.

(** The counting of a list of futures; the first exception ends it. *)
Fixpoint tally_futures (futures : list future) (st : tally) : exn + tally :=
  match futures with
  | [] => inr st
  | inl e :: _ => inl e
  | inr res :: rest => tally_futures rest (count_result st res)
  end.

(** The entries that successful futures contribute to [video_data]. *)
Fixpoint entries (futures : list future) : list entry :=
  match futures with
  | [] => []
  | inr (Resolved video_title direct_url format_info) :: rest =>
      {| e_title := video_title; e_url := direct_url;
         e_format_info := format_info |} :: entries rest
  | _ :: rest => entries rest
  end.

(** The answer a worker will end its loop with, given the answer [a] of a
    resolver that answers by video alone. *)
Definition pending_answer (a : option string * option format_info)
    (pc : task_pc) : option string * option format_info :=
  match pc with
  | AtLoop [] current => current
  | AtLoop (_ :: _) _ => a
  | InCall _ _ => a
  end.

Section Verdicts.
Context {R : Runtime}.

(** What the [if direct_url: ... else: ...] after the retry loop returns or
    raises; it involves neither the world nor the trace. *)
Definition finish_future (video_title : string)
    (r : option string * option format_info) : future :=
  let '(direct_url, format_info) := r in
  if PyStr.truthy_opt direct_url then
    match format_info with
    | Some fi =>
        match UrlResolver.format_filesize (filesize fi) with
        | inl e => inl e
        | inr s => inr (Resolved video_title direct_url
                          (Some (set_filesize_str fi s)))
        end
    | None => inr (Resolved video_title direct_url None)
    end
  else inr (Unresolved video_title).

Variables (quality : string) (max_retries : Z).

(** The answer the retry loop ends with for [v] when started in [w], and
    what becomes of [v] then. *)
Definition settled (w : World) (v : video)
  : option string * option format_info :=
  List.last
    (upto_success (answers (id v) quality (Z.to_nat max_retries) w))
    (None, None).

Definition verdict (w : World) (v : video) : future :=
  finish_future (title v) (settled w v).

(** The videos that end up in [video_data], and their entries. *)
Definition resolves (w : World) (v : video) : bool :=
  match verdict w v with
  | inr (Resolved _ _ _) => true
  | _ => false
  end.

Definition entry_for (w : World) (v : video) : entry :=
  match verdict w v with
  | inr (Resolved video_title direct_url format_info) =>
      {| e_title := video_title; e_url := direct_url;
         e_format_info := format_info |}
  | _ => {| e_title := title v; e_url := None; e_format_info := None |}
  end.

(** What the call run by a worker will return or raise. *)
Definition task_future (w : World) (t : task) : future :=
  finish_future (title (t_video t))
    (pending_answer (answer (id (t_video t)) quality w) (t_pc t)).

End Verdicts.

(** The resolver answers by video URL and format alone, whatever the state
    of the world. *)
Definition deterministic {R : Runtime}
    (det : string -> string -> exn + option info_dict) : Prop :=
  forall video_url format_string w,
    fst (extract_info video_url format_string w) = det video_url format_string.

(** The pool is on course over the submitted [videos]: the finished futures
    are the verdicts of some videos [done], every busy worker is heading
    for the verdict of its video, and no video is lost or duplicated. *)
Definition on_course {R : Runtime} (quality : string) (max_retries : Z)
    (w0 : World) (videos : list video) (p : pool) : Prop :=
  exists done : list video,
    completed p = map (verdict quality max_retries w0) done /\
    Permutation videos (done ++ map t_video (active p) ++ queue p) /\
    Forall (fun t => task_future quality w0 t
                     = verdict quality max_retries w0 (t_video t))
           (active p).

(** A resolver that answers for the video [a] and for no other, and the
    playlist of the videos [a] and [b] on it. *)
Definition a_only (video_url : string) (format_string : string)
  : exn + option info_dict :=
  if String.eqb video_url "https://www.youtube.com/watch?v=a"
  then inr (Some (info_with_url (Some "https://cdn.example/a.mp4")))
  else inl (DownloadError "Video unavailable").

Definition two_videos_fixed : Runtime :=
  by_url (fun video_url => a_only video_url "") (playlist_of ["a"; "b"]) None.



(** An answer whose format, if any, carries a file size that is a number. *)
Definition size_known (r : option string * option format_info) : Prop :=
  forall fi, snd r = Some fi -> filesize fi <> PyNone.

(** The resolver never reports [None] as the size of a format. *)
Definition sizes_known {R : Runtime} (quality : string) : Prop :=
  forall video_id w, size_known (answer video_id quality w).

(** A worker whose current answer has a known size. *)
Definition task_size_known (t : task) : Prop :=
  match t_pc t with
  | AtLoop _ current => size_known current
  | InCall _ _ => True
  end.

(** A pool whose workers and finished futures are free of exceptions. *)
Definition unexceptional (p : pool) : Prop :=
  Forall task_size_known (active p) /\
  Forall (fun f : future => exists res, f = inr res) (completed p).

(** ** webapp/main.py: the helper [sanitize_filename] *)

Module WebApp.

(** [filename.strip('. ')[:200]] after the same replacements as in
    [modules/output_formatter.py]; there is no fallback name here. *)
Definition sanitize_filename (filename : string) : string :=
  let filename :=
    OutputFormatter.replace_invalid OutputFormatter.invalid_chars filename in
  PyStr.slice_to 200 (PyStr.strip ". " filename).

End WebApp.

(** Every character of [s] is one of [chars]. *)
Fixpoint all_in (chars : string) (s : string) : bool :=
  match s with
  | EmptyString => true
  | String c rest => PyStr.mem c chars && all_in chars rest
  end.

(** ** Observations on sizes *)

(** [size_bytes] after [k] passes of [size_bytes /= 1024.0]. *)
Fixpoint scaled (k : nat) (size_bytes : Q) : Q :=
  match k with
  | O => size_bytes
  | S k' => scaled k' (size_bytes / 1024)%Q
  end.

(** The unit reached after [k] passes. *)
Definition unit_name (k : nat) : string :=
  nth k ["B"; "KB"; "MB"; "GB"] "TB".

(** The video made from an available playlist entry. *)
Definition video_of_entry (e : playlist_entry) : video :=
  {| id := get_default (pe_id e) "";
     title := get_default (pe_title e) "Unknown Title";
     url := get_default (pe_url e)
              ("https://www.youtube.com/watch?v=" ++ get_default (pe_id e) "")%string;
     duration := get_default (pe_duration e) 0 |}.

(** The entries that are not [None], in order. *)
Fixpoint available {A} (entries : list (option A)) : list A :=
  match entries with
  | [] => []
  | None :: rest => available rest
  | Some e :: rest => e :: available rest
  end.

(** A playlist whose second entry is unavailable and whose third entry
    has no ['url']. *)
Definition gappy_entries : list (option playlist_entry) :=
  [Some {| pe_id := Some "a"; pe_title := Some "First";
           pe_url := Some "https://youtu.be/a"; pe_duration := Some 61 |};
   None;
   Some {| pe_id := Some "c"; pe_title := None;
           pe_url := None; pe_duration := None |}].

Definition gappy_info : playlist_info :=
  {| pl_title := Some (Some "Mix"); pl_entries := Some gappy_entries |}.

Definition gappy_playlist : Runtime := scripted (inr (Some gappy_info)) None.

(** The report of a run whose fetch raised [e]. *)
Definition fetch_failure_report (e : exn) : result :=
  {| success := false; output_file := None; total_videos := 0;
     successful := 0; failed := 0;
     errors := [("Failed to fetch playlist: " ++ exn_str e)%string] |}.

(** A playlist that yt-dlp cannot open. *)
Definition unreachable_playlist : Runtime :=
  scripted (inl (DownloadError "HTTP Error 404: Not Found")) None.

(** An info dictionary with a direct URL whose size yt-dlp reports as
    [None] under both keys. *)
Definition info_without_size : info_dict :=
  {| info_url := Some "https://cdn.example/a.mp4";
     info_requested_formats := None;
     info_width := Some "1920"; info_height := Some "1080";
     info_filesize := PyNone; info_filesize_approx := Some PyNone;
     info_ext := Some "mp4"; info_format_note := Some "1080p";
     info_vcodec := Some "avc1"; info_acodec := Some "mp4a" |}.

(** The text of the [TypeError] of [format_filesize]. *)
Definition none_size_error : exn :=
  TypeError "'<' not supported between instances of 'NoneType' and 'float'".

(** A command line that asks for a delay of 0.1 seconds. *)
Definition hasty_args : PlaylistGrabber.args :=
  {| PlaylistGrabber.playlist_url := "https://y/playlist?list=PL1";
     PlaylistGrabber.output_file := None;
     PlaylistGrabber.quality := "best";
     PlaylistGrabber.delay := (1 # 10)%Q;
     PlaylistGrabber.retries := 3;
     PlaylistGrabber.use_async := false;
     PlaylistGrabber.workers := 10 |}.

(** ** Observations on a whole resolution step *)

(** [blocks] laid end to end with [sep] between consecutive blocks and
    nowhere else. *)
Fixpoint joined {A} (sep : A) (blocks : list (list A)) : list A :=
  match blocks with
  | [] => []
  | [b] => b
  | b :: rest => b ++ sep :: joined sep rest
  end.

Section VideoTraces.
Context {R : Runtime}.
Variables (quality : string) (delay : Q) (max_retries : Z).

(** The traces of the retry loops that the sequential orchestrator runs for
    [videos] one after the other, the first one started in [w]. *)
Fixpoint video_traces (videos : list video) (w : World)
  : list (list event) :=
  match videos with
  | [] => []
  | v :: rest =>
      let run := seq_retry_run quality delay max_retries (id v) w in
      trace run :: video_traces rest (world_of run)
  end.

End VideoTraces.

(** Invocations of [get_direct_url] a worker may still make, and those the
    pool may still make: [max_retries] for every call not yet started. *)
Definition task_calls (t : task) : nat :=
  match t_pc t with
  | AtLoop attempts _ => List.length attempts
  | InCall _ rest => S (List.length rest)
  end.

Definition pool_calls (max_retries : Z) (p : pool) : nat :=
  (List.length (queue p) * Z.to_nat max_retries
   + list_sum (map task_calls (active p)))%nat.

(** The title carried by the dictionary that [_resolve_video_url]
    returns. *)
Definition result_title (res : video_result) : string :=
  match res with
  | Resolved video_title _ _ => video_title
  | Unresolved video_title => video_title
  end.

(** The titles that step 2 has put on record: those of [video_data], then
    [failed_videos]. *)
Definition recorded_titles (st : tally) : list string :=
  map e_title (video_data st) ++ failed_videos st.

(** A finished call paired with its video carries the title of that
    video, if it returned at all. *)
Definition titled (vf : video * future) : Prop :=
  forall res, snd vf = inr res -> result_title res = title (fst vf).

(** The pool has neither lost nor duplicated a video of [videos], and its
    finished futures are those of the videos [map fst pairs]. *)
Definition titles_kept (videos : list video) (p : pool) : Prop :=
  exists pairs : list (video * future),
    completed p = map snd pairs /\
    Forall titled pairs /\
    Permutation videos (map fst pairs ++ map t_video (active p) ++ queue p).




(** A playlist of one video whose ['title'] is [None], and a resolver that
    answers for that video. *)
Definition untitled_playlist : Runtime :=
  scripted
    (inr (Some {| pl_title := Some None;
                  pl_entries := Some
                    [Some {| pe_id := Some "a"; pe_title := Some "a";
                             pe_url := None; pe_duration := None |}] |}))
    None.

(** ** webapp/main.py: the resolver helper and the playlist endpoint *)

Module WebMain.

(** One element of [request.videos] that has the keys ['id'] and
    ['title']; ['quality'] may be missing. *)
Record video_request : Type := {
  vr_id : string;
  vr_title : string;
  vr_quality : option string
}.

(** The dictionary returned by [resolve_video_url]. *)
Inductive resolution : Type :=
| UrlResolved (video_title url quality : string)
    (fmt : option format_info)
| UrlFailed (video_title error : string).

Record VideoInfo : Type := {
  vi_id : string;
  vi_title : string;
  vi_duration : Z;
  vi_thumbnail : option string
}.

Record PlaylistResponse : Type := {
  pr_title : string;
  pr_total_videos : Z;
  pr_videos : list VideoInfo
}.

(** [HTTPException(status_code, detail)]; it derives from [Exception]. *)
Record HTTPException : Type := {
  status_code : Z;
  detail : string
}.

Section Defs.
Context {R : Runtime}.

(** [str(e)] for an [HTTPException], which depends on the version of
    Starlette, and for the [ValidationError] that pydantic raises on a
    title that is [None]. *)
Variable http_exception_str : HTTPException -> string.
Variable validation_error_str : string.

Definition resolve_video_url (video_data : video_request) : M resolution :=
  let video_id := vr_id video_data in
  let video_title := vr_title video_data in
  let quality := get_default (vr_quality video_data) "best" in
  r <- UrlResolver.get_direct_url video_id quality ;;
  let '(direct_url, format_info) := r in
  if PyStr.truthy_opt direct_url then
    let safe_title :=
      PyStr.replace " "%char "_"%char (WebApp.sanitize_filename video_title) in
    let url_with_title :=
      (get_default direct_url "" ++ "#" ++ safe_title ++ ".mp4")%string in
    ret (UrlResolved video_title url_with_title quality format_info)
  else ret (UrlFailed video_title "Failed to resolve URL").

(** [VideoInfo(id=..., title=..., duration=..., thumbnail=...)]. *)
Definition video_info (video : video) : VideoInfo :=
  {| vi_id := id video;
     vi_title := title video;
     vi_duration := duration video;
     vi_thumbnail :=
       Some ("https://img.youtube.com/vi/" ++ id video ++ "/mqdefault.jpg")%string |}.

(** The body of the [try] of [fetch_playlist]; [inl] is the
    [HTTPException] that the body raises itself. *)
Definition fetch_playlist_body (url : string)
  : M (HTTPException + PlaylistResponse) :=
  playlist_title <- PlaylistFetcher.get_playlist_title url ;;
  videos <- PlaylistFetcher.get_playlist_videos url ;;
  match videos with
  | [] =>
      ret (inl {| status_code := 404;
                  detail := "No videos found in playlist" |})
  | _ :: _ =>
      let video_list := map video_info videos in
      match playlist_title with
      | None => raise (ValueError validation_error_str)
      | Some playlist_title =>
          ret (inr {| pr_title := playlist_title;
                      pr_total_videos := len video_list;
                      pr_videos := video_list |})
      end
  end.

(** [fetch_playlist]: the [except Exception] clause also catches the
    [HTTPException] raised inside the [try]. *)
Definition fetch_playlist (url : string) (w : World)
  : (HTTPException + PlaylistResponse) * World * list event :=
  match fetch_playlist_body url w with
  | (inl e, w1, t) =>
      (inl {| status_code := 500;
              detail := ("Failed to fetch playlist: " ++ exn_str e)%string |},
       w1, t)
  | (inr (inl h), w1, t) =>
      (inl {| status_code := 500;
              detail := ("Failed to fetch playlist: "
                           ++ http_exception_str h)%string |},
       w1, t)
  | (inr (inr response), w1, t) => (inr response, w1, t)
  end.

End Defs.
End WebMain.



(** ** The ranges the statements on sizes and dictionaries are made for *)

(** Sizes below 2^53 in magnitude, for which the arithmetic of
    [format_filesize] is exact in the source as it is here. *)
Definition exact_size (size_bytes : Q) : Prop :=
  (- (9007199254740992) < size_bytes)%Q /\ (size_bytes < 9007199254740992)%Q.

(** The info dictionary holds one of the keys that [get_direct_url] reads
    (with a value other than [None]), so it is not the empty dictionary. *)
Definition info_has_key (info : info_dict) : bool :=
  match info_url info with Some _ => true | None => false end
  || match info_requested_formats info with Some _ => true | None => false end
  || match info_width info with Some _ => true | None => false end
  || match info_height info with Some _ => true | None => false end
  || match info_filesize info with PyNum _ => true | PyNone => false end
  || match info_filesize_approx info with Some _ => true | None => false end
  || match info_ext info with Some _ => true | None => false end
  || match info_format_note info with Some _ => true | None => false end
  || match info_vcodec info with Some _ => true | None => false end
  || match info_acodec info with Some _ => true | None => false end.

(** The invocations of [get_direct_url] for the video [video_id] in a
    trace, and the number of videos of a list that carry that id. *)
Fixpoint calls_for (video_id : string) (t : list event) : nat :=
  match t with
  | [] => O
  | Resolve v _ :: rest =>
      if String.eqb v video_id then S (calls_for video_id rest)
      else calls_for video_id rest
  | Sleep _ :: rest => calls_for video_id rest
  end.

Definition copies (video_id : string) (videos : list video) : nat :=
  List.length (filter (fun v => String.eqb (id v) video_id) videos).

(** The share of the video [video_id] in [task_calls] and [pool_calls]. *)
Definition task_calls_for (video_id : string) (t : task) : nat :=
  if String.eqb (id (t_video t)) video_id then task_calls t else O.

Definition pool_calls_for (video_id : string) (max_retries : Z) (p : pool)
  : nat :=
  (copies video_id (queue p) * Z.to_nat max_retries
   + list_sum (map (task_calls_for video_id) (active p)))%nat.

(** * Properties *)

(** ** The monad *)

Section MonadFacts.
Context {R : Runtime}.

Lemma bind_run {A B} (c : M A) (k : A -> M B) (w : World) :
  bind c k w =
  match c w with
  | (inl e, w1, t1) => (inl e, w1, t1)
  | (inr a, w1, t1) =>
      (outcome (k a w1), world_of (k a w1), t1 ++ trace (k a w1))
  end.
Proof.
  unfold bind, outcome, world_of, trace.
  destruct (c w) as [[[e | a] w1] t1]; [reflexivity |].
  destruct (k a w1) as [[r w2] t2]; reflexivity.
Qed.

Lemma bind_returns {A B} (c : M A) (k : A -> M B) w a w1 t1 :
  c w = (inr a, w1, t1) ->
  bind c k w = (outcome (k a w1), world_of (k a w1), t1 ++ trace (k a w1)).
Proof. intros H. rewrite bind_run, H. reflexivity. Qed.

Lemma bind_raises {A B} (c : M A) (k : A -> M B) w e w1 t1 :
  c w = (inl e, w1, t1) -> bind c k w = (inl e, w1, t1).
Proof. intros H. rewrite bind_run, H. reflexivity. Qed.

Lemma run_eta {A} (x : (exn + A) * World * list event) :
  x = (outcome x, world_of x, trace x).
Proof. destruct x as [[r w] t]; reflexivity. Qed.

End MonadFacts.

(** ** The resolver *)

Section ResolverFacts.
Context {R : Runtime}.

(** [read_info] raises nothing but the [IndexError] of an empty
    [requested_formats], and logs nothing. *)
Lemma read_info_trace info w :
  world_of (UrlResolver.read_info info w) = w /\
  trace (UrlResolver.read_info info w) = [].
Proof.
  unfold UrlResolver.read_info.
  destruct info as [info |]; [| split; reflexivity].
  destruct (PyStr.truthy_opt (info_url info)); simpl; [split; reflexivity |].
  destruct (info_requested_formats info) as [[| f fs] |];
    split; reflexivity.
Qed.

(** [get_direct_url] always returns, and logs exactly its own
    invocation. *)
Lemma get_direct_url_shape video_id quality w :
  exists r w1,
    UrlResolver.get_direct_url video_id quality w =
    (inr r, w1, [Resolve video_id quality]).
Proof.
  unfold UrlResolver.get_direct_url, bind, emit, try_except, attempt.
  destruct (extract_info _ _ w) as [[e | info] w1].
  - eexists; eexists; reflexivity.
  - destruct (read_info_trace info w1) as [Hw Ht].
    destruct (UrlResolver.read_info info w1) as [[[e | r] w2] t2];
      cbn in Hw, Ht; subst; eexists; eexists; reflexivity.
Qed.

Lemma get_direct_url_run video_id quality w :
  UrlResolver.get_direct_url video_id quality w =
  (inr (answer video_id quality w), after video_id quality w,
   [Resolve video_id quality]).
Proof.
  unfold answer, after.
  destruct (get_direct_url_shape video_id quality w) as (r & w1 & H).
  rewrite H. reflexivity.
Qed.

Lemma retry_seq_eq quality delay max_retries :
  Orchestrator.retry quality delay max_retries =
  retry_with quality max_retries (delay * (1 # 2))%Q.
Proof. reflexivity. Qed.

Lemma retry_async_eq quality max_retries :
  OrchestratorAsync.retry quality max_retries =
  retry_with quality max_retries (1 # 2)%Q.
Proof. reflexivity. Qed.

End ResolverFacts.

(** ** The retry loop *)

Section RetryFacts.
Context {R : Runtime}.
Variables (quality : string) (max_retries : Z) (pause : Q).
Variable video_id : string.

Lemma upto_success_length rs :
  (List.length (upto_success rs) <= List.length rs)%nat.
Proof.
  induction rs as [| r rs IH]; simpl; [lia |].
  destruct (PyStr.truthy_opt (fst r)); simpl; lia.
Qed.

Lemma upto_success_nonempty r rs : upto_success (r :: rs) <> [].
Proof. simpl. destruct (PyStr.truthy_opt (fst r)); discriminate. Qed.

(** A truthy answer at position [j] ends the kept prefix at [j] or
    before. *)
Lemma upto_success_stops rs j r :
  nth_error rs j = Some r -> PyStr.truthy_opt (fst r) = true ->
  (List.length (upto_success rs) <= S j)%nat.
Proof.
  revert j. induction rs as [| r0 rs IH]; intros j Hj Hr.
  - destruct j; discriminate.
  - simpl. destruct (PyStr.truthy_opt (fst r0)) eqn:E; simpl; [lia |].
    destruct j as [| j]; simpl in Hj.
    + injection Hj as ->. congruence.
    + specialize (IH j Hj Hr). lia.
Qed.

(** Every kept answer but the last has a falsy URL. *)
Lemma upto_success_falsy rs :
  Forall (fun r => PyStr.truthy_opt (fst r) = false)
         (removelast (upto_success rs)).
Proof.
  induction rs as [| r rs IH]; simpl; [constructor |].
  destruct (PyStr.truthy_opt (fst r)) eqn:E; [constructor |].
  destruct (upto_success rs) as [| r1 rest] eqn:Er; [constructor |].
  change (removelast (r :: r1 :: rest)) with (r :: removelast (r1 :: rest)).
  constructor; assumption.
Qed.

(** The kept answers are a prefix of the answers. *)
Lemma upto_success_prefix rs :
  exists tl, rs = upto_success rs ++ tl.
Proof.
  induction rs as [| r rs [tl IH]]; [exists []; reflexivity |].
  simpl. destruct (PyStr.truthy_opt (fst r)).
  - exists rs. reflexivity.
  - exists tl. simpl. f_equal. exact IH.
Qed.

Lemma last_default {A} (xs : list A) (d d' : A) :
  xs <> [] -> List.last xs d = List.last xs d'.
Proof.
  induction xs as [| x xs IH]; intros Hne; [congruence |].
  destruct xs as [| y ys]; [reflexivity |].
  change (List.last (y :: ys) d = List.last (y :: ys) d').
  apply IH. discriminate.
Qed.

(** The loop over [range(max_retries)] from attempt [k] on: it returns the
    last kept answer, leaves the world of that many invocations, and its
    trace alternates invocations and pauses. *)
Lemma retry_with_run n : forall k current w,
  (n <> O -> Z.of_nat (k + n) = max_retries) ->
  let rs := upto_success (answers video_id quality n w) in
  retry_with quality max_retries pause video_id
    (map Z.of_nat (seq k n)) current w =
  (inr (List.last rs current),
   after_calls video_id quality (List.length rs) w,
   alternating (Resolve video_id quality) (Sleep pause) (List.length rs)).
Proof.
  induction n as [| n IH]; intros k current w Hm; [reflexivity |].
  cbn zeta. cbn [seq map retry_with answers upto_success].
  rewrite (bind_returns _ _ _ _ _ _ (get_direct_url_run video_id quality w)).
  specialize (Hm ltac:(discriminate)).
  set (r := answer video_id quality w).
  set (w1 := after video_id quality w).
  destruct (PyStr.truthy_opt (fst r)) eqn:E; cbn [fst]; [reflexivity |].
  assert (Hnext : n <> O -> Z.of_nat (S k + n) = max_retries) by (intros _; lia).
  specialize (IH (S k) r w1 Hnext). cbn zeta in IH.
  destruct n as [| n'].
  - (* the final attempt: no pause *)
    assert (Hlast : (Z.of_nat k <? max_retries - 1) = false)
      by (apply Z.ltb_ge; lia).
    rewrite Hlast. reflexivity.
  - assert (Hmore : (Z.of_nat k <? max_retries - 1) = true)
      by (apply Z.ltb_lt; lia).
    rewrite Hmore.
    rewrite (bind_returns (sleep pause) _ w1 tt w1 [Sleep pause] eq_refl).
    rewrite IH.
    pose proof (upto_success_nonempty
                  (answer video_id quality w1)
                  (answers video_id quality n' (after video_id quality w1)))
      as Hne.
    change (answer video_id quality w1
              :: answers video_id quality n' (after video_id quality w1))
      with (answers video_id quality (S n') w1) in Hne.
    destruct (upto_success (answers video_id quality (S n') w1))
      as [| r1 rest]; [congruence |].
    unfold outcome, world_of, trace. cbn [fst snd].
    cbn [List.length after_calls alternating app].
    change (List.last (r :: r1 :: rest) current)
      with (List.last (r1 :: rest) current).
    rewrite (last_default (r1 :: rest) r current) by discriminate.
    reflexivity.
Qed.

(** The loop as both orchestrators start it. *)
Lemma retry_with_range current w :
  let rs := upto_success
              (answers video_id quality (Z.to_nat max_retries) w) in
  retry_with quality max_retries pause video_id (range max_retries)
    current w =
  (inr (List.last rs current),
   after_calls video_id quality (List.length rs) w,
   alternating (Resolve video_id quality) (Sleep pause) (List.length rs)).
Proof.
  unfold range. apply retry_with_run. intros Hn.
  destruct (Z.to_nat max_retries) eqn:E; [congruence |]. lia.
Qed.

End RetryFacts.

Section RetryClaims.
Context {R : Runtime}.

Lemma calls_alternating x d n :
  calls (alternating (Resolve (fst x) (snd x)) (Sleep d) n) = n.
Proof.
  induction n as [| n IH]; [reflexivity |].
  destruct n as [| n]; [reflexivity |].
  change (S (calls (alternating (Resolve (fst x) (snd x)) (Sleep d) (S n)))
          = S (S n)).
  now rewrite IH.
Qed.

Lemma calls_alternating' video_id quality d n :
  calls (alternating (Resolve video_id quality) (Sleep d) n) = n.
Proof. exact (calls_alternating (video_id, quality) d n). Qed.

Lemma sleeps_alternating video_id quality d n :
  sleeps (alternating (Resolve video_id quality) (Sleep d) n) =
  List.repeat d (Nat.pred n).
Proof.
  induction n as [| n IH]; [reflexivity |].
  destruct n as [| n]; [reflexivity |].
  change (d :: sleeps (alternating (Resolve video_id quality) (Sleep d) (S n))
          = d :: List.repeat d n).
  now rewrite IH.
Qed.

(** The number of invocations made by either retry loop is the number of
    answers kept up to the first truthy URL. *)
Lemma seq_retry_calls quality delay max_retries video_id w :
  calls (trace (seq_retry_run quality delay max_retries video_id w)) =
  List.length
    (upto_success (answers video_id quality (Z.to_nat max_retries) w)).
Proof.
  unfold seq_retry_run. rewrite retry_seq_eq, retry_with_range.
  apply calls_alternating'.
Qed.

Lemma async_retry_calls quality max_retries video_id w :
  calls (trace (async_retry_run quality max_retries video_id w)) =
  List.length
    (upto_success (answers video_id quality (Z.to_nat max_retries) w)).
Proof.
  unfold async_retry_run. rewrite retry_async_eq, retry_with_range.
  apply calls_alternating'.
Qed.

Lemma answers_length video_id quality n w :
  List.length (answers video_id quality n w) = n.
Proof.
  revert w. induction n as [| n IH]; intros w; simpl; [reflexivity |].
  now rewrite IH.
Qed.

(** C2 (as amended): for [max_retries >= 1], each retry loop (sequential
    and thread-pool) invokes [get_direct_url] at most [max_retries] times,
    and once the invocation number [j+1] has returned a truthy URL (neither
    [None] nor the empty string) no further invocation is made. *)
Theorem retry_at_most_max_retries quality delay max_retries video_id w :
  1 <= max_retries ->
  (Z.of_nat (calls (trace (seq_retry_run quality delay max_retries video_id w)))
     <= max_retries /\
   Z.of_nat (calls (trace (async_retry_run quality max_retries video_id w)))
     <= max_retries) /\
  (forall j r,
      nth_error (answers video_id quality (Z.to_nat max_retries) w) j = Some r ->
      PyStr.truthy_opt (fst r) = true ->
      (calls (trace (seq_retry_run quality delay max_retries video_id w))
         <= S j)%nat /\
      (calls (trace (async_retry_run quality max_retries video_id w))
         <= S j)%nat).
Proof.
  intros Hm. rewrite seq_retry_calls, async_retry_calls.
  pose proof (upto_success_length
                (answers video_id quality (Z.to_nat max_retries) w)) as Hle.
  rewrite answers_length in Hle.
  split; [split; lia |].
  intros j r Hj Hr.
  pose proof (upto_success_stops _ _ _ Hj Hr). lia.
Qed.

(** C4 (as amended): in either mode the trace of the retry loop is its
    invocations with one pause between consecutive ones and none after the
    last; the pause is [delay * 0.5] in the sequential orchestrator and the
    constant [0.5] in [_resolve_video_url]. *)
Theorem backoff_between_attempts quality delay max_retries video_id w :
  trace (seq_retry_run quality delay max_retries video_id w) =
    alternating (Resolve video_id quality) (Sleep (delay * (1 # 2))%Q)
      (calls (trace (seq_retry_run quality delay max_retries video_id w)))
  /\
  trace (async_retry_run quality max_retries video_id w) =
    alternating (Resolve video_id quality) (Sleep (1 # 2)%Q)
      (calls (trace (async_retry_run quality max_retries video_id w))).
Proof.
  rewrite seq_retry_calls, async_retry_calls.
  unfold seq_retry_run, async_retry_run.
  rewrite retry_seq_eq, retry_async_eq, !retry_with_range.
  split; reflexivity.
Qed.

End RetryClaims.

(** Witness for C2: three attempts against a resolver that fails twice. *)
Lemma retry_at_most_max_retries_witness :
  1 <= 3 /\
  (Z.of_nat
     (calls (trace (@seq_retry_run (scripted (playlist_of []) None)
                      "best" (3 # 2)%Q 3 "a" []))) <= 3 /\
   Z.of_nat
     (calls (trace (@async_retry_run (scripted (playlist_of []) None)
                      "best" 3 "a" []))) <= 3).
Proof.
  split; [lia |].
  exact (proj1 (@retry_at_most_max_retries (scripted (playlist_of []) None)
                  "best" (3 # 2)%Q 3 "a" [] ltac:(lia))).
Defined.

(** Counterexample to C2 as stated: the first invocation returns a URL that
    is not [None] (it is the empty string) and the loop invokes the resolver
    again. *)
Lemma retry_continues_after_empty_url :
  ~ (forall (R : Runtime) quality delay max_retries video_id (w : World) j r,
        1 <= max_retries ->
        nth_error (answers video_id quality (Z.to_nat max_retries) w) j = Some r ->
        fst r <> None ->
        (calls (trace (seq_retry_run quality delay max_retries video_id w))
           <= S j)%nat).
Proof.
  intros H.
  specialize (H (scripted (playlist_of []) None) "best" (3 # 2)%Q 2 "a"
                [inr (Some (info_with_url (Some "")));
                 inr (Some (info_with_url (Some "http://x")))]
                O _ ltac:(lia) eq_refl ltac:(discriminate)).
  vm_compute in H. lia.
Qed.

(** Counterexample to C4 as stated: with a configured delay of 1.5 s the
    thread-pool run made by [main] pauses 0.5 s between attempts, which is
    not half of the delay. *)
Lemma async_backoff_ignores_delay :
  let a := {| PlaylistGrabber.playlist_url := "https://y/playlist?list=PL1";
              PlaylistGrabber.output_file := None;
              PlaylistGrabber.quality := "best";
              PlaylistGrabber.delay := (3 # 2)%Q;
              PlaylistGrabber.retries := 2;
              PlaylistGrabber.use_async := true;
              PlaylistGrabber.workers := 10 |} in
  sleeps (trace (@PlaylistGrabber.run (scripted (playlist_of ["a"]) None)
                   (fun k => k) [] a [])) = [(1 # 2)%Q] /\
  ~ ((1 # 2) == PlaylistGrabber.delay a * (1 # 2))%Q.
Proof.
  split; [vm_compute; reflexivity |].
  cbv zeta. cbn [PlaylistGrabber.delay]. intros H. vm_compute in H. discriminate.
Qed.

(** ** sanitize_filename *)

Section SanitizeFacts.

Lemma mem_replace_other old new c s :
  c <> new -> PyStr.mem c s = false ->
  PyStr.mem c (PyStr.replace old new s) = false.
Proof.
  intros Hc. induction s as [| d s IH]; simpl; [reflexivity |].
  intros H. apply orb_false_iff in H as [Hd Hs].
  rewrite (IH Hs), orb_false_r.
  destruct (Ascii.eqb d old); [| exact Hd].
  apply Ascii.eqb_neq. exact Hc.
Qed.

Lemma mem_replace_old old new s :
  old <> new -> PyStr.mem old (PyStr.replace old new s) = false.
Proof.
  intros Hne. induction s as [| d s IH]; simpl; [reflexivity |].
  rewrite IH, orb_false_r.
  destruct (Ascii.eqb d old) eqn:E.
  - apply Ascii.eqb_neq. exact Hne.
  - rewrite Ascii.eqb_sym. exact E.
Qed.

Lemma replace_invalid_absent chars : forall s c,
  PyStr.mem "_"%char chars = false ->
  PyStr.mem c chars = true \/ (c <> "_"%char /\ PyStr.mem c s = false) ->
  PyStr.mem c (OutputFormatter.replace_invalid chars s) = false.
Proof.
  induction chars as [| d rest IH]; intros s c Hu H; simpl in *.
  - destruct H as [H | [_ H]]; [discriminate | exact H].
  - apply orb_false_iff in Hu as [Hud Hur].
    assert (Hd : d <> "_"%char).
    { intros ->. vm_compute in Hud. discriminate. }
    apply IH; [exact Hur |].
    destruct (Ascii.eqb c d) eqn:E.
    + apply Ascii.eqb_eq in E as ->. right. split; [exact Hd |].
      apply mem_replace_old. exact Hd.
    + destruct H as [H | [Hc H]]; [left; exact H | right].
      split; [exact Hc |]. apply mem_replace_other; assumption.
Qed.

Lemma mem_lstrip chars c s :
  PyStr.mem c s = false -> PyStr.mem c (PyStr.lstrip chars s) = false.
Proof.
  induction s as [| d s IH]; simpl; [reflexivity |].
  intros H. destruct (PyStr.mem d chars); [| exact H].
  apply orb_false_iff in H as [_ H]. exact (IH H).
Qed.

Lemma mem_rstrip chars c s :
  PyStr.mem c s = false -> PyStr.mem c (PyStr.rstrip chars s) = false.
Proof.
  induction s as [| d s IH]; simpl; [reflexivity |].
  intros H. apply orb_false_iff in H as [Hd Hs]. specialize (IH Hs).
  destruct (PyStr.rstrip chars s) as [| e kept].
  - destruct (PyStr.mem d chars); simpl; [reflexivity |].
    now rewrite Hd.
  - change (Ascii.eqb c d || PyStr.mem c (String e kept) = false).
    now rewrite Hd, IH.
Qed.

Lemma mem_slice_to n : forall c s,
  PyStr.mem c s = false -> PyStr.mem c (PyStr.slice_to n s) = false.
Proof.
  induction n as [| n IH]; intros c s H; [reflexivity |].
  destruct s as [| d s]; [reflexivity |]. simpl in *.
  apply orb_false_iff in H as [Hd Hs]. now rewrite Hd, (IH _ _ Hs).
Qed.

Lemma length_slice_to n : forall s,
  (String.length (PyStr.slice_to n s) <= n)%nat.
Proof.
  induction n as [| n IH]; intros s; [simpl; lia |].
  destruct s as [| d s]; simpl; [lia |]. specialize (IH s). lia.
Qed.

Lemma first_lstrip chars s c :
  PyStr.first (PyStr.lstrip chars s) = Some c -> PyStr.mem c chars = false.
Proof.
  induction s as [| d s IH]; simpl; [discriminate |].
  destruct (PyStr.mem d chars) eqn:E; [exact IH |].
  simpl. intros [= <-]. exact E.
Qed.

Lemma first_rstrip chars s c :
  PyStr.first (PyStr.rstrip chars s) = Some c -> PyStr.first s = Some c.
Proof.
  destruct s as [| d s]; simpl; [discriminate |].
  destruct (PyStr.rstrip chars s); [| intros H; exact H].
  destruct (PyStr.mem d chars); [discriminate | intros H; exact H].
Qed.

Lemma first_slice_to n s c :
  PyStr.first (PyStr.slice_to n s) = Some c -> PyStr.first s = Some c.
Proof.
  destruct n as [| n]; [discriminate |].
  destruct s as [| d s]; [discriminate |]. intros H; exact H.
Qed.

(** What does hold of [sanitize_filename] on every input: no invalid
    character, at most 200 characters, never empty, and no leading space or
    dot. *)
Lemma sanitize_filename_sound filename :
  (forall c, PyStr.mem c OutputFormatter.invalid_chars = true ->
             PyStr.mem c (OutputFormatter.sanitize_filename filename) = false) /\
  (String.length (OutputFormatter.sanitize_filename filename) <= 200)%nat /\
  OutputFormatter.sanitize_filename filename <> "" /\
  (forall c, PyStr.first (OutputFormatter.sanitize_filename filename) = Some c ->
             PyStr.mem c ". " = false).
Proof.
  unfold OutputFormatter.sanitize_filename.
  set (s1 := OutputFormatter.replace_invalid OutputFormatter.invalid_chars filename).
  set (s2 := PyStr.strip ". " s1).
  set (s3 := if (200 <? String.length s2)%nat then PyStr.slice_to 200 s2 else s2).
  assert (H1 : forall c, PyStr.mem c OutputFormatter.invalid_chars = true ->
                         PyStr.mem c s3 = false).
  { intros c Hc.
    assert (Hs1 : PyStr.mem c s1 = false)
      by (apply replace_invalid_absent; [reflexivity | left; exact Hc]).
    assert (Hs2 : PyStr.mem c s2 = false)
      by (apply mem_rstrip, mem_lstrip; exact Hs1).
    unfold s3. destruct (200 <? String.length s2)%nat; [| exact Hs2].
    apply mem_slice_to. exact Hs2. }
  assert (H2 : (String.length s3 <= 200)%nat).
  { unfold s3. destruct (200 <? String.length s2)%nat eqn:E.
    - apply length_slice_to.
    - apply Nat.ltb_ge in E. exact E. }
  assert (H3 : forall c, PyStr.first s3 = Some c -> PyStr.mem c ". " = false).
  { intros c Hc. apply (first_lstrip ". " s1).
    apply (first_rstrip ". "). fold (PyStr.strip ". " s1). fold s2.
    unfold s3 in Hc. destruct (200 <? String.length s2)%nat; [| exact Hc].
    apply (first_slice_to 200). exact Hc. }
  destruct s3 as [| d rest] eqn:E3; cbn [PyStr.truthy].
  - repeat split.
    + intros c Hc. unfold OutputFormatter.invalid_chars in Hc. simpl in Hc.
      repeat (apply orb_true_iff in Hc as [Hc | Hc];
              [apply Ascii.eqb_eq in Hc as ->; reflexivity |]).
      discriminate.
    + simpl. lia.
    + discriminate.
    + intros c [= <-]. reflexivity.
  - repeat split; [exact H1 | exact H2 | discriminate | exact H3].
Qed.

End SanitizeFacts.

(** C10: the claim fails on the code for the trailing character.  On the 201
    characters made of 199 letters [a], a space and a letter [b], stripping
    changes nothing and the cut at 200 characters leaves the space at the
    end of the returned name. *)
Theorem sanitize_filename_trailing_space :
  OutputFormatter.sanitize_filename
    (PyStr.repeat "a" 199 ++ " b")%string
  = (PyStr.repeat "a" 199 ++ " ")%string /\
  PyStr.last
    (OutputFormatter.sanitize_filename (PyStr.repeat "a" 199 ++ " b")%string)
  = Some " "%char.
Proof. split; vm_compute; reflexivity. Qed.

(** ** Argument validation in main *)

(** C9 (as amended): a worker count below 1 makes [main] exit with status 1
    before any run starts (the world is untouched and nothing is resolved);
    whenever the run starts, the worker count handed to it lies in [1, 20],
    is the requested count if that is at most 20, and is 20 otherwise, in
    which case the warning line has been printed. *)
Theorem workers_validated {R : Runtime} (a : PlaylistGrabber.args) :
  (PlaylistGrabber.workers a < 1 ->
   snd (PlaylistGrabber.validate a) = inl 1 /\
   forall sched yield w,
     PlaylistGrabber.main sched yield a w = (inr 1, w, [])) /\
  (forall a',
     snd (PlaylistGrabber.validate a) = inr a' ->
     1 <= PlaylistGrabber.workers a' <= 20 /\
     (20 < PlaylistGrabber.workers a ->
      PlaylistGrabber.workers a' = 20 /\
      In "Warning: More than 20 workers may trigger YouTube rate limiting. Setting to 20."
         (fst (PlaylistGrabber.validate a))) /\
     (PlaylistGrabber.workers a <= 20 ->
      PlaylistGrabber.workers a' = PlaylistGrabber.workers a) /\
     forall sched yield w,
       PlaylistGrabber.main sched yield a w =
       try_except
         (result <- PlaylistGrabber.run sched yield a' ;;
          if success result then ret 0 else ret 1)
         (fun _ => ret 1) w).
Proof.
  split.
  - intros Hlow.
    assert (Hv : snd (PlaylistGrabber.validate a) = inl 1).
    { unfold PlaylistGrabber.validate.
      destruct (negb (String.prefix "http" (PlaylistGrabber.playlist_url a)));
        [reflexivity |].
      destruct (negb (PyStr.contains "list=" (PlaylistGrabber.playlist_url a)));
        [reflexivity |].
      destruct (negb (Qle_bool (1 # 2) (PlaylistGrabber.delay a)));
        cbn [PlaylistGrabber.workers PlaylistGrabber.set_delay];
        (destruct (PlaylistGrabber.workers a <? 1) eqn:E;
         [reflexivity | apply Z.ltb_ge in E; lia]). }
    split; [exact Hv |].
    intros sched yield w. unfold PlaylistGrabber.main. rewrite Hv. reflexivity.
  - intros a' Hv.
    assert (Hmain : forall sched yield w,
      PlaylistGrabber.main sched yield a w =
      try_except
        (result <- PlaylistGrabber.run sched yield a' ;;
         if success result then ret 0 else ret 1)
        (fun _ => ret 1) w).
    { intros sched yield w. unfold PlaylistGrabber.main. rewrite Hv.
      reflexivity. }
    unfold PlaylistGrabber.validate in Hv |- *.
    destruct (negb (String.prefix "http" (PlaylistGrabber.playlist_url a)));
      [discriminate |].
    destruct (negb (PyStr.contains "list=" (PlaylistGrabber.playlist_url a)));
      [discriminate |].
    destruct (negb (Qle_bool (1 # 2) (PlaylistGrabber.delay a)));
      cbn [PlaylistGrabber.workers PlaylistGrabber.set_delay] in Hv |- *;
      (destruct (PlaylistGrabber.workers a <? 1) eqn:E1; [discriminate |];
       apply Z.ltb_ge in E1;
       destruct (PlaylistGrabber.workers a >? 20) eqn:E2;
       cbn [snd fst] in Hv |- *;
       injection Hv as <-;
       cbn [PlaylistGrabber.workers PlaylistGrabber.set_workers
            PlaylistGrabber.set_delay];
       [ apply Z.gtb_lt in E2 | rewrite Z.gtb_ltb in E2; apply Z.ltb_ge in E2 ];
       (split; [lia |]; split;
        [intros Hgt;
         first [exfalso; lia | split; [reflexivity | cbn; tauto]] |];
        split; [intros Hle; lia | exact Hmain])).
Qed.

(** Counterexample to C9 as stated: 25 workers are requested; the run
    starts with 20, but not silently: the warning line is printed. *)
Lemma clamping_prints_a_warning :
  ~ (forall a a',
        snd (PlaylistGrabber.validate a) = inr a' ->
        20 < PlaylistGrabber.workers a ->
        PlaylistGrabber.workers a' = 20 /\
        fst (PlaylistGrabber.validate a) = []).
Proof.
  intros H.
  specialize (H {| PlaylistGrabber.playlist_url := demo_url;
                   PlaylistGrabber.output_file := None;
                   PlaylistGrabber.quality := "best";
                   PlaylistGrabber.delay := (3 # 2)%Q;
                   PlaylistGrabber.retries := 3;
                   PlaylistGrabber.use_async := true;
                   PlaylistGrabber.workers := 25 |}
                _ eq_refl ltac:(cbn; lia)).
  destruct H as [_ H]. vm_compute in H. discriminate.
Qed.

(** ** Failed attempts and terminal failures *)

Section FailureFacts.
Context {R : Runtime}.



(** So is the [IndexError] of an empty [requested_formats]. *)
Lemma get_direct_url_catches_index_error video_id quality w info w1 :
  extract_info ("https://www.youtube.com/watch?v=" ++ video_id)%string
    (UrlResolver.format_selectors quality) w = (inr (Some info), w1) ->
  PyStr.truthy_opt (info_url info) = false ->
  info_requested_formats info = Some [] ->
  outcome (UrlResolver.get_direct_url video_id quality w) = inr (None, None).
Proof.
  intros H Hu Hf.
  unfold UrlResolver.get_direct_url, bind, emit, try_except, attempt.
  rewrite H. unfold UrlResolver.read_info, bind. rewrite Hu, Hf. reflexivity.
Qed.


End FailureFacts.

(** ** The sequential orchestrator *)

Section SequentialFacts.
Context {R : Runtime}.

Lemma bind_inr_inv {A B} (c : M A) (k : A -> M B) w b w2 t :
  bind c k w = (inr b, w2, t) ->
  exists a w1 t1 t2,
    c w = (inr a, w1, t1) /\ k a w1 = (inr b, w2, t2) /\ t = t1 ++ t2.
Proof.
  unfold bind. destruct (c w) as [[[e | a] w1] t1]; [discriminate |].
  destruct (k a w1) as [[r w2'] t2] eqn:Ek. intros [= -> -> <-].
  exists a, w1, t1, t2. repeat split; assumption.
Qed.

Lemma advanced_refl st : advanced 0 st st.
Proof. unfold advanced. repeat split; lia. Qed.

Lemma advanced_trans n m st1 st2 st3 :
  advanced n st1 st2 -> advanced m st2 st3 -> advanced (n + m) st1 st3.
Proof.
  unfold advanced. intros (A1 & A2 & A3 & A4 & A5 & A6 & A7 & A8)
    (B1 & B2 & B3 & B4 & B5 & B6 & B7 & B8).
  repeat split; try lia; congruence.
Qed.

Lemma len_app {A} (xs ys : list A) : len (xs ++ ys) = len xs + len ys.
Proof. unfold len. rewrite length_app. lia. Qed.

Lemma len_cons {A} (x : A) (xs : list A) : len (x :: xs) = 1 + len xs.
Proof. unfold len. cbn [List.length]. lia. Qed.

Lemma advanced_success st e : advanced 1 st (record_success st e).
Proof.
  unfold advanced, record_success. cbn. rewrite len_app.
  change (len [e]) with 1. repeat split; lia.
Qed.

Lemma advanced_failure st t : advanced 1 st (record_failure st t).
Proof.
  unfold advanced, record_failure. cbn. rewrite len_app.
  change (len [t]) with 1. repeat split; lia.
Qed.

(** Recording one video touches neither the world nor the trace, and counts
    the video once. *)
Lemma record_run video_title r st w st' w' t :
  Orchestrator.record video_title r st w = (inr st', w', t) ->
  w' = w /\ t = [] /\ advanced 1 st st' /\
  (PyStr.truthy_opt (fst r) = false -> st' = record_failure st video_title).
Proof.
  unfold Orchestrator.record. destruct r as [direct_url format_info].
  cbn [fst]. destruct (PyStr.truthy_opt direct_url).
  - destruct format_info as [fi |].
    + unfold bind, lift_result.
      destruct (UrlResolver.format_filesize (filesize fi)) as [e | s];
        [discriminate |].
      cbn. intros [= <- <- <-].
      repeat split; try discriminate; apply advanced_success.
    + cbn. intros [= <- <- <-].
      repeat split; try discriminate; apply advanced_success.
  - cbn. intros [= <- <- <-].
    repeat split; try reflexivity; apply advanced_failure.
Qed.

Lemma retry_seq_returns quality delay max_retries video_id attempts cur w :
  exists r w1 t1,
    Orchestrator.retry quality delay max_retries video_id attempts cur w
    = (inr r, w1, t1).
Proof.
  revert cur w. induction attempts as [| a rest IH]; intros cur w.
  - eexists; eexists; eexists; reflexivity.
  - cbn [Orchestrator.retry].
    rewrite (bind_returns _ _ _ _ _ _ (get_direct_url_run video_id quality w)).
    destruct (PyStr.truthy_opt (fst (answer video_id quality w))).
    + eexists; eexists; eexists; reflexivity.
    + destruct (a <? max_retries - 1).
      * rewrite (bind_returns (sleep _) _ _ tt _ [Sleep _] eq_refl).
        destruct (IH (answer video_id quality w) (after video_id quality w))
          as (r & w1 & t1 & ->).
        eexists; eexists; eexists; reflexivity.
      * rewrite (bind_returns (ret tt) _ _ tt _ [] eq_refl).
        destruct (IH (answer video_id quality w) (after video_id quality w))
          as (r & w1 & t1 & ->).
        eexists; eexists; eexists; reflexivity.
Qed.

Lemma for_videos_counts quality delay max_retries total items :
  forall st w st' w' t,
    Orchestrator.for_videos quality delay max_retries total items st w
      = (inr st', w', t) ->
    advanced (len items) st st'.
Proof.
  induction items as [| [idx video] rest IH]; intros st w st' w' t H.
  - cbn in H. injection H as <- <- <-. apply advanced_refl.
  - cbn [Orchestrator.for_videos] in H.
    apply bind_inr_inv in H as (r & w1 & t1 & t2 & _ & H & _).
    apply bind_inr_inv in H as (st1 & w2 & t3 & t4 & Hrec & H & _).
    apply bind_inr_inv in H as (u & w3 & t5 & t6 & _ & H & _).
    apply record_run in Hrec as (_ & _ & Hadv & _).
    apply IH in H.
    replace (len ((idx, video) :: rest)) with (1 + len rest)
      by (unfold len; cbn [List.length]; lia).
    eapply advanced_trans; eassumption.
Qed.

Lemma enumerate_length {A} (xs : list A) : forall start,
  len (enumerate start xs) = len xs.
Proof.
  unfold len. induction xs as [| x xs IH]; intros start; [reflexivity |].
  cbn [enumerate List.length]. specialize (IH (start + 1)). lia.
Qed.

(** Step 2 accounts for every video once. *)
Lemma resolve_step_counts quality delay max_retries videos result w st w' t :
  Orchestrator.resolve_step quality delay max_retries videos result w
    = (inr st, w', t) ->
  successful result = 0 -> failed result = 0 ->
  successful (report st) + failed (report st) = len videos /\
  len (video_data st) = successful (report st) /\
  len (failed_videos st) = failed (report st) /\
  0 <= successful (report st) /\
  total_videos (report st) = total_videos result /\
  success (report st) = success result /\
  output_file (report st) = output_file result /\
  errors (report st) = errors result.
Proof.
  unfold Orchestrator.resolve_step. intros H Hs Hf.
  apply for_videos_counts in H. rewrite enumerate_length in H.
  unfold advanced in H. cbn in H. rewrite Hs, Hf in H.
  change (len (@nil entry)) with 0 in H. change (len (@nil string)) with 0 in H.
  repeat split; try lia; apply H.
Qed.

End SequentialFacts.

Section SharedStepFacts.
Context {R : Runtime}.

Lemma try_except_inr_inv {A} (c : M A) (h : exn -> M A) w a w2 t :
  try_except c h w = (inr a, w2, t) ->
  c w = (inr a, w2, t) \/
  exists e w1 t1 t2,
    c w = (inl e, w1, t1) /\ h e w1 = (inr a, w2, t2) /\ t = t1 ++ t2.
Proof.
  unfold try_except. destruct (c w) as [[[e | a'] w1] t1].
  - destruct (h e w1) as [[r w2'] t2] eqn:Eh. intros [= -> -> <-].
    right. exists e, w1, t1, t2. repeat split; assumption.
  - intros [= -> -> ->]. left. reflexivity.
Qed.

(** The playlist fetch logs nothing. *)
Lemma get_playlist_title_run playlist_url w :
  exists pt w1,
    PlaylistFetcher.get_playlist_title playlist_url w = (inr pt, w1, []).
Proof.
  unfold PlaylistFetcher.get_playlist_title, try_except, bind, attempt.
  destruct (extract_flat playlist_url w) as [[e | [pi |]] w1];
    eexists; eexists; reflexivity.
Qed.

Lemma get_playlist_videos_trace playlist_url w :
  trace (PlaylistFetcher.get_playlist_videos playlist_url w) = [].
Proof.
  unfold PlaylistFetcher.get_playlist_videos, try_except, bind, attempt.
  destruct (extract_flat playlist_url w) as [[e | [pi |]] w1];
    try reflexivity.
  destruct (pl_entries pi); reflexivity.
Qed.

(** Step 1 never raises and logs nothing. *)
Lemma fetch_step_run playlist_url w :
  exists x w1, fetch_step playlist_url w = (inr x, w1, []).
Proof.
  unfold fetch_step.
  destruct (get_playlist_title_run playlist_url w) as (pt & w1 & Ht).
  unfold try_except at 1. rewrite (bind_returns _ _ _ _ _ _ Ht).
  pose proof (get_playlist_videos_trace playlist_url w1) as Hv.
  rewrite bind_run.
  destruct (PlaylistFetcher.get_playlist_videos playlist_url w1)
    as [[[e | videos] w2] t2]; cbn in Hv; subst t2;
    eexists; eexists; reflexivity.
Qed.

(** Step 3 logs nothing, keeps the counters, and sets the success flag
    exactly when there is something to write and the write does not
    raise. *)
Lemma write_step_run playlist_title output_path st w r w' t :
  write_step playlist_title output_path st w = (inr r, w', t) ->
  t = [] /\
  total_videos r = total_videos (report st) /\
  successful r = successful (report st) /\
  failed r = failed (report st) /\
  ((video_data st = [] /\
    r = add_error (report st) "No URLs were successfully resolved") \/
   (video_data st <> [] /\
    ((exists path, r = set_written (report st) path) \/
     (exists e, r = add_error (report st)
                      ("Failed to write output file: " ++ exn_str e)%string)))).
Proof.
  unfold write_step. destruct (video_data st) as [| e0 es] eqn:Evd.
  - cbn. intros [= <- <- <-]. repeat split. left. split; reflexivity.
  - intros H.
    apply bind_inr_inv in H as (path & w1 & t1 & t2 & Hpath & H & ->).
    assert (Ht1 : t1 = []).
    { destruct (PyStr.truthy_opt output_path).
      - cbn in Hpath. now injection Hpath as _ _ <-.
      - unfold OutputFormatter.generate_output_filename in Hpath.
        destruct playlist_title as [pt |]; [| discriminate].
        unfold bind, perform in Hpath.
        destruct (timestamp w) as [stamp ws]. cbn in Hpath.
        now injection Hpath as _ _ <-. }
    subst t1.
    unfold try_except, OutputFormatter.write_to_file, bind, attempt in H.
    destruct (fs_write path (e0 :: es) playlist_title w1) as [[err |] w2];
      cbn in H; injection H as <- <- <-;
      (repeat split; right; split; [discriminate |]).
    + right. exists err. reflexivity.
    + left. exists path. reflexivity.
Qed.

End SharedStepFacts.

(** ** Lists updated by position *)

Section NthFacts.
Context {A : Type}.

Lemma remove_nth_length (xs : list A) : forall i x,
  nth_error xs i = Some x ->
  S (List.length (remove_nth i xs)) = List.length xs.
Proof.
  induction xs as [| y ys IH]; intros i x H.
  - destruct i; discriminate.
  - destruct i as [| i]; cbn in *; [reflexivity |].
    rewrite (IH i x H). reflexivity.
Qed.

Lemma replace_nth_length (xs : list A) : forall i y,
  List.length (replace_nth i y xs) = List.length xs.
Proof.
  induction xs as [| z zs IH]; intros i y; [destruct i; reflexivity |].
  destruct i as [| i]; cbn; [reflexivity |]. now rewrite IH.
Qed.

Lemma remove_nth_sum (f : A -> nat) (xs : list A) : forall i x,
  nth_error xs i = Some x ->
  (list_sum (map f (remove_nth i xs)) + f x = list_sum (map f xs))%nat.
Proof.
  unfold list_sum.
  induction xs as [| y ys IH]; intros i x H.
  - destruct i; discriminate.
  - destruct i as [| i]; cbn in *.
    + injection H as ->. lia.
    + specialize (IH i x H). lia.
Qed.

Lemma replace_nth_sum (f : A -> nat) (xs : list A) : forall i x y,
  nth_error xs i = Some x ->
  (list_sum (map f (replace_nth i y xs)) + f x
   = list_sum (map f xs) + f y)%nat.
Proof.
  unfold list_sum.
  induction xs as [| z zs IH]; intros i x y H.
  - destruct i; discriminate.
  - destruct i as [| i]; cbn in *.
    + injection H as ->. lia.
    + specialize (IH i x y H). lia.
Qed.

Lemma remove_nth_perm (xs : list A) : forall i x,
  nth_error xs i = Some x -> Permutation xs (x :: remove_nth i xs).
Proof.
  induction xs as [| y ys IH]; intros i x H.
  - destruct i; discriminate.
  - destruct i as [| i]; cbn in *.
    + injection H as ->. reflexivity.
    + rewrite (IH i x H) at 1. apply perm_swap.
Qed.

Lemma replace_nth_perm (xs : list A) : forall i x y,
  nth_error xs i = Some x ->
  Permutation (y :: xs) (x :: replace_nth i y xs).
Proof.
  induction xs as [| z zs IH]; intros i x y H.
  - destruct i; discriminate.
  - destruct i as [| i]; cbn in *.
    + injection H as ->. apply perm_swap.
    + rewrite perm_swap. rewrite (IH i x y H).
      rewrite perm_swap. reflexivity.
Qed.

Lemma arrange_perm (picks : list nat) : forall xs : list A,
  Permutation (arrange picks xs) xs.
Proof.
  induction picks as [| k picks IH]; intros xs; [reflexivity |].
  cbn [arrange].
  destruct (nth_error xs (k mod List.length xs)) as [x |] eqn:E;
    [| reflexivity].
  rewrite IH. symmetry. apply remove_nth_perm. exact E.
Qed.

End NthFacts.

(** ** The thread pool *)

Section PoolFacts.
Context {R : Runtime}.
Variables (quality : string) (max_retries max_workers : Z).

Local Abbreviation task_step := (OrchestratorAsync.task_step quality max_retries).
Local Abbreviation pool_step := (OrchestratorAsync.pool_step quality max_retries max_workers).
Local Abbreviation run_pool := (OrchestratorAsync.run_pool quality max_retries max_workers).
Local Abbreviation choose := (OrchestratorAsync.choose max_workers).
Local Abbreviation choices := (OrchestratorAsync.choices max_workers).
Local Abbreviation can_admit := (OrchestratorAsync.can_admit max_workers).
Local Abbreviation start := (OrchestratorAsync.start max_retries).

Lemma range_length n : List.length (range n) = Z.to_nat n.
Proof. unfold range. now rewrite length_map, length_seq. Qed.

(** A worker that goes on keeps its video and gets closer to the end. *)
Lemma task_step_continues t w t' w' tr :
  task_step t w = (inr (inl t'), w', tr) ->
  t_video t' = t_video t /\ (task_cost t' < task_cost t)%nat.
Proof.
  unfold OrchestratorAsync.task_step, task_cost.
  destruct (t_pc t) as [[| a rest] cur | a rest].
  - unfold bind.
    destruct (OrchestratorAsync.finish (title (t_video t)) cur w)
      as [[[e | res] w1] t1]; discriminate.
  - cbn. intros [= <- <- <-]. cbn. split; [reflexivity | lia].
  - rewrite (bind_returns _ _ _ _ _ _
               (get_direct_url_run (id (t_video t)) quality w)).
    destruct (PyStr.truthy_opt (fst (answer (id (t_video t)) quality w))).
    + cbn. intros [= <- <- <-]. cbn. split; [reflexivity | lia].
    + destruct (a <? max_retries - 1); cbn; intros [= <- <- <-]; cbn;
        (split; [reflexivity | lia]).
Qed.

(** What advancing the [i]-th worker does to the pool. *)
Lemma pool_step_advance i t p w :
  nth_error (active p) i = Some t ->
  match task_step t w with
  | (inr (inl t'), w', tr) =>
      pool_step (OrchestratorAsync.Advance i) p w =
      (inr {| queue := queue p;
              active := replace_nth i t' (active p);
              completed := completed p |}, w', tr)
  | (inr (inr res), w', tr) =>
      pool_step (OrchestratorAsync.Advance i) p w =
      (inr {| queue := queue p;
              active := remove_nth i (active p);
              completed := completed p ++ [inr res] |}, w', tr)
  | (inl e, w', tr) =>
      pool_step (OrchestratorAsync.Advance i) p w =
      (inr {| queue := queue p;
              active := remove_nth i (active p);
              completed := completed p ++ [inl e] |}, w', tr)
  end.
Proof.
  intros H. unfold OrchestratorAsync.pool_step. rewrite H.
  unfold bind, try_except.
  destruct (task_step t w) as [[[e | [t' | res]] w'] tr]; cbn;
    rewrite ?app_nil_r; reflexivity.
Qed.

(** The action chosen by a schedule is one the pool can take. *)
Lemma choose_valid c p a :
  choose c p = Some a ->
  match a with
  | OrchestratorAsync.Admit => can_admit p = true
  | OrchestratorAsync.Advance i => (i < List.length (active p))%nat
  end.
Proof.
  unfold OrchestratorAsync.choose.
  destruct (choices p) as [| n] eqn:En; [discriminate |].
  assert (Hlt : (c mod S n < S n)%nat) by (apply Nat.mod_upper_bound; lia).
  unfold OrchestratorAsync.choices in En.
  destruct (can_admit p) eqn:Ea.
  - destruct (c mod S n)%nat as [| i] eqn:Ek; intros [= <-]; [reflexivity |].
    cbn in En. lia.
  - intros [= <-]. cbn in En. lia.
Qed.

Lemma choose_none c p : choose c p = None -> choices p = O.
Proof.
  unfold OrchestratorAsync.choose.
  destruct (choices p) as [| n]; [reflexivity |].
  destruct (can_admit p); [destruct (c mod S n)%nat |]; discriminate.
Qed.

(** Nothing to choose from: no worker is busy and, when there is at least
    one worker thread, nothing waits. *)
Lemma choices_zero p :
  choices p = O -> active p = [] /\ (1 <= max_workers -> queue p = []).
Proof.
  unfold OrchestratorAsync.choices, OrchestratorAsync.can_admit.
  intros H. assert (Ha : active p = []).
  { destruct (active p); [reflexivity |]. cbn in H. lia. }
  split; [exact Ha |]. intros Hw.
  rewrite Ha in H. destruct (queue p) as [| v rest]; [reflexivity |].
  change (len (@nil task)) with 0 in H.
  destruct (0 <? max_workers) eqn:E; [cbn in H; lia |].
  apply Z.ltb_ge in E. lia.
Qed.

(** Every chosen step returns, brings the pool closer to its end, keeps the
    calls it was given and never has more busy workers than threads. *)
Lemma pool_step_progress c a p w :
  choose c p = Some a ->
  exists p' w' tr,
    pool_step a p w = (inr p', w', tr) /\
    (pool_cost max_retries p' < pool_cost max_retries p)%nat /\
    population p' = population p /\
    (len (active p) <= max_workers -> len (active p') <= max_workers).
Proof.
  intros Hc. apply choose_valid in Hc. destruct a as [| i].
  - unfold OrchestratorAsync.can_admit in Hc.
    unfold OrchestratorAsync.pool_step.
    destruct (queue p) as [| v rest] eqn:Eq; [discriminate |].
    rewrite Hc. eexists; eexists; eexists. split; [reflexivity |].
    apply Z.ltb_lt in Hc.
    unfold pool_cost, population, len in *. cbn [queue active completed].
    rewrite Eq, map_app, list_sum_app, length_app. cbn [map list_sum List.length].
    unfold task_cost at 2. cbn [OrchestratorAsync.start t_pc].
    rewrite range_length. cbn [list_sum fold_right]. repeat split; lia.
  - destruct (nth_error (active p) i) as [t |] eqn:Et;
      [| apply nth_error_None in Et; lia].
    pose proof (pool_step_advance i t p w Et) as Hstep.
    pose proof (task_step_continues t w) as Hcont.
    destruct (task_step t w) as [[[e | [t' | res]] w'] tr];
      eexists; eexists; eexists; (split; [exact Hstep |]);
      unfold pool_cost, population, len; cbn [queue active completed].
    + pose proof (remove_nth_sum task_cost _ _ _ Et).
      pose proof (remove_nth_length _ _ _ Et).
      assert (1 <= task_cost t)%nat
        by (unfold task_cost; destruct (t_pc t); lia).
      rewrite length_app. cbn [List.length]. repeat split; lia.
    + destruct (Hcont t' w' tr eq_refl) as [_ Hlt].
      pose proof (replace_nth_sum task_cost _ _ _ t' Et).
      rewrite replace_nth_length. repeat split; lia.
    + pose proof (remove_nth_sum task_cost _ _ _ Et).
      pose proof (remove_nth_length _ _ _ Et).
      assert (1 <= task_cost t)%nat
        by (unfold task_cost; destruct (t_pc t); lia).
      rewrite length_app. cbn [List.length]. repeat split; lia.
Qed.

(** Any property kept by the chosen steps holds after any number of steps
    of any schedule; and once the steps taken cover the cost of the pool,
    nothing is left to do. *)
Lemma run_pool_ends (I : pool -> Prop) (sched : nat -> nat) :
  (forall c a p w p' w' tr,
      I p -> choose c p = Some a ->
      pool_step a p w = (inr p', w', tr) -> I p') ->
  forall n k p w,
    I p ->
    exists p' w' tr,
      run_pool sched n k p w = (inr p', w', tr) /\ I p' /\
      population p' = population p /\
      ((pool_cost max_retries p <= n)%nat -> choices p' = O).
Proof.
  intros Hkeep. induction n as [| n IH]; intros k p w HI.
  - exists p, w, []. repeat split; try assumption.
    intros Hcost. unfold pool_cost in Hcost.
    unfold OrchestratorAsync.choices, OrchestratorAsync.can_admit.
    destruct (queue p) as [| v rest]; [| cbn in Hcost; lia].
    destruct (active p) as [| t ts]; [reflexivity |].
    cbn in Hcost. unfold task_cost at 1 in Hcost. destruct (t_pc t); lia.
  - cbn [OrchestratorAsync.run_pool].
    destruct (choose (sched k) p) as [a |] eqn:Ec.
    + destruct (pool_step_progress _ _ p w Ec)
        as (p1 & w1 & t1 & Hstep & Hlt & Hpop & _).
      rewrite (bind_returns _ _ _ _ _ _ Hstep).
      destruct (IH (S k) p1 w1 (Hkeep _ _ _ _ _ _ _ HI Ec Hstep))
        as (p2 & w2 & t2 & Hrun & HI2 & Hpop2 & Hend).
      rewrite Hrun. exists p2, w2, (t1 ++ t2).
      repeat split; try assumption; [congruence |].
      intros Hcost. apply Hend. lia.
    + exists p, w, []. repeat split; try assumption.
      intros _. exact (choose_none _ _ Ec).
Qed.

(** The pool never runs more calls than it has worker threads. *)
Lemma run_pool_bounded sched n k p w :
  len (active p) <= max_workers ->
  exists p' w' tr,
    run_pool sched n k p w = (inr p', w', tr) /\
    len (active p') <= max_workers.
Proof.
  intros H.
  destruct (run_pool_ends (fun p => len (active p) <= max_workers) sched)
    with (n := n) (k := k) (p := p) (w := w)
    as (p' & w' & tr & Hrun & HI & _); [| exact H |].
  - intros c a p0 w0 p1 w1 tr0 HI Hc Hstep.
    destruct (pool_step_progress _ _ p0 w0 Hc)
      as (p2 & w2 & t2 & Hstep2 & _ & _ & Hb).
    rewrite Hstep in Hstep2. injection Hstep2 as <- <- <-. auto.
  - exists p', w', tr. split; assumption.
Qed.

(** With at least one worker thread, the budget of steps lets every
    submitted call finish. *)
Lemma run_pool_completes sched videos w :
  1 <= max_workers ->
  exists p w' tr,
    run_pool sched (OrchestratorAsync.budget max_retries videos) 0
      (OrchestratorAsync.submit_all videos) w = (inr p, w', tr) /\
    queue p = [] /\ active p = [] /\
    List.length (completed p) = List.length videos.
Proof.
  intros Hw.
  destruct (run_pool_ends (fun _ => True) sched)
    with (n := OrchestratorAsync.budget max_retries videos) (k := O)
         (p := OrchestratorAsync.submit_all videos) (w := w)
    as (p & w' & tr & Hrun & _ & Hpop & Hend); [auto | exact I |].
  exists p, w', tr. split; [exact Hrun |].
  assert (Hz : choices p = O).
  { apply Hend. unfold pool_cost, OrchestratorAsync.budget.
    cbn [OrchestratorAsync.submit_all queue active map list_sum fold_right].
    lia. }
  apply choices_zero in Hz as [Ha Hq]. specialize (Hq Hw).
  unfold population in Hpop. rewrite Ha, Hq in Hpop.
  cbn [OrchestratorAsync.submit_all queue active completed List.length] in Hpop.
  repeat split; try assumption. lia.
Qed.

End PoolFacts.

(** ** Reports of whole runs *)

Section ReportFacts.
Context {R : Runtime}.


Lemma seq_resolve_step_accounted quality delay max_retries videos w st w' t :
  Orchestrator.resolve_step quality delay max_retries videos
    (set_total_videos initial_result (len videos)) w = (inr st, w', t) ->
  accounted (len videos) st.
Proof.
  intros H.
  apply resolve_step_counts in H as (H1 & H2 & H3 & H4 & H5 & H6 & H7 & H8);
    [| reflexivity | reflexivity].
  unfold accounted. repeat split; assumption.
Qed.


(** [future.result()] re-raises, so a returning aggregation saw no
    exception; it counts every future once. *)
Lemma aggregate_counts futures : forall st w st' w' t,
  OrchestratorAsync.aggregate futures st w = (inr st', w', t) ->
  advanced (len futures) st st' /\ w' = w /\ t = [].
Proof.
  induction futures as [| fut rest IH]; intros st w st' w' t H.
  - cbn in H. injection H as <- <- <-.
    split; [apply advanced_refl | split; reflexivity].
  - cbn [OrchestratorAsync.aggregate] in H.
    destruct fut as [e | res]; [discriminate |].
    rewrite (bind_returns (lift_result (inr res)) _ w res w [] eq_refl) in H.
    cbn [app] in H. rewrite <- run_eta in H.
    apply IH in H as (Hadv & -> & ->).
    split; [| split; reflexivity].
    rewrite len_cons.
    eapply advanced_trans; [| exact Hadv].
    destruct res; [apply advanced_success | apply advanced_failure].
Qed.

Lemma async_resolve_step_accounted quality max_retries max_workers
    sched yield videos w st w' t :
  OrchestratorAsync.resolve_step quality max_retries max_workers sched yield
    videos (set_total_videos initial_result (len videos)) w = (inr st, w', t) ->
  accounted (len videos) st /\ 1 <= max_workers.
Proof.
  unfold OrchestratorAsync.resolve_step. intros H.
  apply bind_inr_inv in H as (u & w1 & t1 & t2 & Hguard & H & _).
  destruct (max_workers <=? 0) eqn:Ew; [discriminate |].
  apply Z.leb_gt in Ew.
  cbn in Hguard. injection Hguard as _ <- _.
  apply bind_inr_inv in H as (p & w2 & t3 & t4 & Hpool & Hagg & _).
  destruct (run_pool_completes quality max_retries max_workers sched videos w
              ltac:(lia)) as (p' & w3 & t5 & Hrun & _ & _ & Hlen).
  rewrite Hpool in Hrun. injection Hrun as <- _ _.
  apply aggregate_counts in Hagg as (Hadv & _ & _).
  assert (Hn : len (arrange yield (completed p)) = len videos).
  { unfold len. rewrite (Permutation_length (arrange_perm yield (completed p))).
    now rewrite Hlen. }
  rewrite Hn in Hadv. unfold advanced in Hadv. cbn in Hadv.
  change (len (@nil entry)) with 0 in Hadv.
  change (len (@nil string)) with 0 in Hadv.
  split; [| lia]. unfold accounted. repeat split; try lia; apply Hadv.
Qed.


End ReportFacts.

(** ** The claims on whole runs *)

Section RunClaims.
Context {R : Runtime}.





(** C7: with a pool of [max_workers >= 1] threads, after any number of
    steps of any schedule the invocations of [get_direct_url] that have
    been entered and have not returned are at most [max_workers]. *)
Theorem in_flight_never_exceeds_workers quality max_retries max_workers
    sched videos n w :
  1 <= max_workers ->
  exists p,
    outcome (OrchestratorAsync.run_pool quality max_retries max_workers
               sched n 0 (OrchestratorAsync.submit_all videos) w) = inr p /\
    Z.of_nat (OrchestratorAsync.in_flight p) <= max_workers.
Proof.
  intros Hw.
  destruct (run_pool_bounded quality max_retries max_workers sched n 0
              (OrchestratorAsync.submit_all videos) w)
    as (p & w' & tr & Hrun & Hb); [cbn; lia |].
  exists p. rewrite Hrun. split; [reflexivity |].
  unfold OrchestratorAsync.in_flight, len in *.
  pose proof (filter_length_le OrchestratorAsync.in_call (active p)). lia.
Qed.

End RunClaims.

(** ** The claims at concrete runs *)






(** Witness for C7: two videos on two worker threads; after four steps both
    workers are inside [get_direct_url], and the ceiling is reached. *)
Lemma in_flight_never_exceeds_workers_witness :
  1 <= 2 /\
  exists p,
    outcome (@OrchestratorAsync.run_pool two_videos "best" 2 2
               (fun k => if Nat.eqb k 3 then 1%nat else 0%nat)
               4 0 (OrchestratorAsync.submit_all two_video_list)
               first_resolves) = inr p /\
    Z.of_nat (OrchestratorAsync.in_flight p) <= 2 /\
    OrchestratorAsync.in_flight p = 2%nat.
Proof.
  assert (Hw : 1 <= 2) by lia.
  split; [exact Hw |].
  destruct (@in_flight_never_exceeds_workers two_videos "best" 2 2
              (fun k => if Nat.eqb k 3 then 1%nat else 0%nat)
              two_video_list 4%nat first_resolves Hw)
    as (p & Hp & Hle).
  exists p. split; [exact Hp |]. split; [exact Hle |].
  vm_compute in Hp. injection Hp as <-. reflexivity.
Defined.

(** ** A resolver that answers by video alone *)

Section DeterministicFacts.
Context {R : Runtime}.
Variable det : string -> string -> exn + option info_dict.
Hypothesis Hdet : deterministic det.
Variables (quality : string) (max_retries : Z).

Lemma read_info_outcome info w w' :
  outcome (UrlResolver.read_info info w)
  = outcome (UrlResolver.read_info info w').
Proof.
  unfold UrlResolver.read_info. destruct info as [info |]; [| reflexivity].
  destruct (PyStr.truthy_opt (info_url info)); [reflexivity |].
  destruct (info_requested_formats info) as [[| f fs] |]; reflexivity.
Qed.

Lemma answer_unfold video_id w :
  answer video_id quality w =
  match fst (extract_info ("https://www.youtube.com/watch?v=" ++ video_id)%string
               (UrlResolver.format_selectors quality) w) with
  | inl _ => (None, None)
  | inr info =>
      match outcome (UrlResolver.read_info info w) with
      | inl _ => (None, None)
      | inr r => r
      end
  end.
Proof.
  unfold answer, UrlResolver.get_direct_url, bind, emit, try_except, attempt.
  destruct (extract_info _ _ w) as [[e | info] w1]; [reflexivity |].
  cbn [fst]. rewrite (read_info_outcome info w w1).
  destruct (UrlResolver.read_info info w1) as [[[e | r] w2] t2]; reflexivity.
Qed.

(** The answer does not depend on the world. *)
Lemma answer_det video_id w w' :
  answer video_id quality w = answer video_id quality w'.
Proof.
  rewrite !answer_unfold, !Hdet.
  destruct (det _ _) as [e | info]; [reflexivity |].
  now rewrite (read_info_outcome info w w').
Qed.

Lemma answers_det video_id n : forall w w0,
  answers video_id quality n w
  = List.repeat (answer video_id quality w0) n.
Proof.
  induction n as [| n IH]; intros w w0; [reflexivity |].
  cbn [answers List.repeat]. f_equal; [apply answer_det | apply IH].
Qed.

Lemma last_upto_repeat a n d :
  List.last (upto_success (List.repeat a n)) d =
  match n with O => d | S _ => a end.
Proof.
  induction n as [| n IH]; [reflexivity |].
  cbn [List.repeat upto_success].
  destruct (PyStr.truthy_opt (fst a)) eqn:E; [reflexivity |].
  destruct n as [| n]; [reflexivity |].
  pose proof (upto_success_nonempty a (List.repeat a n)) as Hne.
  change (a :: List.repeat a n) with (List.repeat a (S n)) in Hne.
  destruct (upto_success (List.repeat a (S n))) as [| u us]; [congruence |].
  change (List.last (a :: u :: us) d) with (List.last (u :: us) d).
  exact IH.
Qed.

(** Neither does the answer the loop ends with. *)
Lemma settled_det w w0 v :
  settled quality max_retries w v =
  match Z.to_nat max_retries with
  | O => (None, None)
  | S _ => answer (id v) quality w0
  end.
Proof.
  unfold settled. rewrite (answers_det (id v) _ w w0).
  apply last_upto_repeat.
Qed.

Lemma verdict_det w w0 v :
  verdict quality max_retries w v = verdict quality max_retries w0 v.
Proof.
  unfold verdict. now rewrite (settled_det w w0), (settled_det w0 w0).
Qed.

Lemma finish_run video_title r w :
  OrchestratorAsync.finish video_title r w
  = (finish_future video_title r, w, []).
Proof.
  unfold OrchestratorAsync.finish, finish_future.
  destruct r as [direct_url format_info].
  destruct (PyStr.truthy_opt direct_url); [| reflexivity].
  destruct format_info as [fi |]; [| reflexivity].
  unfold bind, lift_result.
  destruct (UrlResolver.format_filesize (filesize fi)); reflexivity.
Qed.

Lemma record_as_future video_title r st w :
  Orchestrator.record video_title r st w =
  (match finish_future video_title r with
   | inl e => inl e
   | inr res => inr (count_result st res)
   end, w, []).
Proof.
  unfold Orchestrator.record, finish_future.
  destruct r as [direct_url format_info].
  destruct (PyStr.truthy_opt direct_url); [| reflexivity].
  destruct format_info as [fi |]; [| reflexivity].
  unfold bind, lift_result.
  destruct (UrlResolver.format_filesize (filesize fi)); reflexivity.
Qed.

(** A step of a worker does not change what its call will return or raise,
    and the call ends with just that. *)
Lemma task_step_future w0 t w :
  match OrchestratorAsync.task_step quality max_retries t w with
  | (inr (inl t'), _, _) =>
      t_video t' = t_video t /\
      task_future quality w0 t' = task_future quality w0 t
  | (inr (inr res), _, _) => task_future quality w0 t = inr res
  | (inl e, _, _) => task_future quality w0 t = inl e
  end.
Proof.
  unfold OrchestratorAsync.task_step, task_future.
  destruct t as [v pc]. cbn [t_video t_pc].
  destruct pc as [[| a rest] cur | a rest]; cbn [pending_answer].
  - rewrite (bind_returns _ _ _ _ _ _ (finish_run (title v) cur w))
      || rewrite bind_run, finish_run.
    destruct (finish_future (title v) cur); reflexivity.
  - cbn. split; reflexivity.
  - rewrite (bind_returns _ _ _ _ _ _ (get_direct_url_run (id v) quality w)).
    rewrite (answer_det (id v) w w0).
    destruct (PyStr.truthy_opt (fst (answer (id v) quality w0))).
    + cbn. split; reflexivity.
    + destruct (a <? max_retries - 1); cbn; (split; [reflexivity |]);
        destruct rest; reflexivity.
Qed.

End DeterministicFacts.

Section MoreNthFacts.
Context {A B : Type}.

Lemma map_replace_nth (f : A -> B) (xs : list A) : forall i x y,
  nth_error xs i = Some x -> f y = f x ->
  map f (replace_nth i y xs) = map f xs.
Proof.
  induction xs as [| z zs IH]; intros i x y H Hf.
  - destruct i; discriminate.
  - destruct i as [| i]; cbn in *.
    + injection H as ->. now rewrite Hf.
    + now rewrite (IH i x y H Hf).
Qed.

Lemma map_remove_nth (f : A -> B) (xs : list A) : forall i,
  map f (remove_nth i xs) = remove_nth i (map f xs).
Proof.
  induction xs as [| z zs IH]; intros i; [destruct i; reflexivity |].
  destruct i as [| i]; cbn; [reflexivity |]. now rewrite IH.
Qed.

Lemma Forall_replace_nth (P : A -> Prop) (xs : list A) : forall i y,
  Forall P xs -> P y -> Forall P (replace_nth i y xs).
Proof.
  induction xs as [| z zs IH]; intros i y H Hy.
  - destruct i; constructor.
  - inversion H; subst. destruct i as [| i]; cbn; constructor; auto.
Qed.

Lemma Forall_remove_nth (P : A -> Prop) (xs : list A) : forall i,
  Forall P xs -> Forall P (remove_nth i xs).
Proof.
  induction xs as [| z zs IH]; intros i H.
  - destruct i; constructor.
  - inversion H; subst. destruct i as [| i]; cbn; [assumption |].
    constructor; auto.
Qed.

Lemma arrange_map (f : A -> B) (picks : list nat) : forall xs,
  arrange picks (map f xs) = map f (arrange picks xs).
Proof.
  induction picks as [| k picks IH]; intros xs; [reflexivity |].
  cbn [arrange]. rewrite length_map, nth_error_map.
  destruct (nth_error xs (k mod List.length xs)) as [x |]; [| reflexivity].
  cbn [option_map map]. now rewrite <- map_remove_nth, IH.
Qed.

Lemma Permutation_filter_keep (f : A -> bool) (xs ys : list A) :
  Permutation xs ys -> Permutation (filter f xs) (filter f ys).
Proof.
  induction 1 as [| x xs ys _ IH | x y xs | xs ys zs _ IH1 _ IH2].
  - constructor.
  - cbn. destruct (f x); [constructor |]; exact IH.
  - cbn. destruct (f x), (f y); try reflexivity. apply perm_swap.
  - etransitivity; eassumption.
Qed.

End MoreNthFacts.

Section PoolVerdicts.
Context {R : Runtime}.
Variable det : string -> string -> exn + option info_dict.
Hypothesis Hdet : deterministic det.
Variables (quality : string) (max_retries max_workers : Z).
Variable w0 : World.

Lemma start_future v :
  task_future quality w0 (OrchestratorAsync.start max_retries v)
  = verdict quality max_retries w0 v.
Proof.
  unfold task_future, verdict, OrchestratorAsync.start. cbn [t_video t_pc].
  rewrite (settled_det det Hdet quality max_retries w0 w0 v).
  unfold range. destruct (Z.to_nat max_retries); reflexivity.
Qed.

(** Every chosen step keeps the pool on course. *)
Lemma pool_step_on_course videos c a p w p' w' tr :
  on_course quality max_retries w0 videos p ->
  OrchestratorAsync.choose max_workers c p = Some a ->
  OrchestratorAsync.pool_step quality max_retries max_workers a p w
    = (inr p', w', tr) ->
  on_course quality max_retries w0 videos p'.
Proof.
  intros (done & Hdone & Hperm & Hall) Hc Hstep.
  apply choose_valid in Hc. destruct a as [| i].
  - unfold OrchestratorAsync.can_admit in Hc.
    unfold OrchestratorAsync.pool_step in Hstep.
    destruct (queue p) as [| v rest] eqn:Eq; [discriminate |].
    rewrite Hc in Hstep. injection Hstep as <- _ _.
    exists done. cbn [queue active completed].
    split; [exact Hdone | split].
    + rewrite Hperm, map_app. cbn [map OrchestratorAsync.start t_video].
      rewrite <- !app_assoc. reflexivity.
    + apply Forall_app. split; [exact Hall |].
      constructor; [| constructor]. apply start_future.
  - destruct (nth_error (active p) i) as [t |] eqn:Et;
      [| apply nth_error_None in Et; lia].
    pose proof (pool_step_advance quality max_retries max_workers i t p w Et)
      as Hadv.
    pose proof (task_step_future det Hdet quality max_retries w0 t w) as Hfut.
    pose proof (proj1 (Forall_forall _ _) Hall t (nth_error_In _ _ Et)) as Ht.
    cbn beta in Ht.
    assert (Hfin : forall f, task_future quality w0 t = f ->
      on_course quality max_retries w0 videos
        {| queue := queue p; active := remove_nth i (active p);
           completed := completed p ++ [f] |}).
    { intros f Hf. exists (done ++ [t_video t]). cbn [queue active completed].
      split; [| split].
      - rewrite map_app, Hdone. cbn [map]. now rewrite <- Ht, Hf.
      - rewrite Hperm. rewrite <- !app_assoc. apply Permutation_app_head.
        cbn [app]. rewrite map_remove_nth.
        change (t_video t :: remove_nth i (map t_video (active p)) ++ queue p)
          with ((t_video t :: remove_nth i (map t_video (active p)))
                  ++ queue p).
        apply Permutation_app_tail. apply remove_nth_perm.
        rewrite nth_error_map, Et. reflexivity.
      - apply Forall_remove_nth. exact Hall. }
    destruct (OrchestratorAsync.task_step quality max_retries t w)
      as [[[e | [t' | res]] w1] t1];
      rewrite Hadv in Hstep; injection Hstep as <- _ _.
    + apply Hfin. exact Hfut.
    + destruct Hfut as [Hv Hf]. exists done. cbn [queue active completed].
      split; [exact Hdone | split].
      * rewrite (map_replace_nth t_video _ _ _ _ Et Hv). exact Hperm.
      * apply Forall_replace_nth; [exact Hall |]. now rewrite Hf, Hv.
    + apply Hfin. exact Hfut.
Qed.

(** Under any schedule the finished futures are the verdicts of the
    submitted videos, in some order. *)
Lemma run_pool_verdicts sched videos w :
  1 <= max_workers ->
  exists p w' tr done,
    OrchestratorAsync.run_pool quality max_retries max_workers sched
      (OrchestratorAsync.budget max_retries videos) 0
      (OrchestratorAsync.submit_all videos) w = (inr p, w', tr) /\
    completed p = map (verdict quality max_retries w0) done /\
    Permutation videos done.
Proof.
  intros Hw.
  destruct (run_pool_ends quality max_retries max_workers
              (on_course quality max_retries w0 videos) sched)
    with (n := OrchestratorAsync.budget max_retries videos) (k := O)
         (p := OrchestratorAsync.submit_all videos) (w := w)
    as (p & w' & tr & Hrun & (done & Hdone & Hperm & _) & _ & Hend).
  - intros c a p0 w1 p1 w2 tr0 HI Hc Hstep.
    eapply pool_step_on_course; eassumption.
  - exists []. cbn. repeat split; [reflexivity | constructor].
  - assert (Hz : OrchestratorAsync.choices max_workers p = O).
    { apply Hend. unfold pool_cost, OrchestratorAsync.budget.
      cbn [OrchestratorAsync.submit_all queue active map list_sum fold_right].
      lia. }
    apply choices_zero in Hz as [Ha Hq]. specialize (Hq Hw).
    rewrite Ha, Hq in Hperm. cbn [map app] in Hperm.
    rewrite app_nil_r in Hperm.
    exists p, w', tr, done. repeat split; assumption.
Qed.

End PoolVerdicts.

Section ModesAgree.
Context {R : Runtime}.
Variable det : string -> string -> exn + option info_dict.
Hypothesis Hdet : deterministic det.
Variables (quality : string) (delay : Q) (max_retries max_workers : Z).

Lemma aggregate_run futures : forall st w,
  OrchestratorAsync.aggregate futures st w = (tally_futures futures st, w, []).
Proof.
  induction futures as [| fut rest IH]; intros st w; [reflexivity |].
  cbn [OrchestratorAsync.aggregate tally_futures].
  destruct fut as [e | res]; [reflexivity |].
  rewrite (bind_returns (lift_result (inr res)) _ w res w [] eq_refl).
  rewrite IH. destruct res; reflexivity.
Qed.

(** The sequential loop counts the verdicts of the videos in playlist
    order. *)
Lemma for_videos_det w0 total items : forall st w,
  outcome (Orchestrator.for_videos quality delay max_retries total items st w)
  = tally_futures
      (map (fun iv => verdict quality max_retries w0 (snd iv)) items) st.
Proof.
  induction items as [| [idx v] rest IH]; intros st w; [reflexivity |].
  cbn [Orchestrator.for_videos map snd tally_futures].
  rewrite retry_seq_eq.
  rewrite (bind_returns _ _ _ _ _ _
             (retry_with_range quality max_retries _ (id v) (None, None) w)).
  fold (settled quality max_retries w v).
  set (w1 := after_calls _ _ _ w).
  rewrite bind_run, record_as_future.
  change (finish_future (title v) (settled quality max_retries w v))
    with (verdict quality max_retries w v).
  rewrite (verdict_det det Hdet quality max_retries w w0 v).
  destruct (verdict quality max_retries w0 v) as [e | res]; [reflexivity |].
  unfold outcome at 1. cbn [fst].
  destruct (idx <? total).
  - rewrite (bind_returns (sleep delay) _ w1 tt w1 [Sleep delay] eq_refl).
    unfold outcome at 1. cbn [fst]. apply IH.
  - rewrite (bind_returns (ret tt) _ w1 tt w1 [] eq_refl).
    unfold outcome at 1. cbn [fst]. apply IH.
Qed.

Lemma map_snd_enumerate {A} (xs : list A) : forall start,
  map snd (enumerate start xs) = xs.
Proof.
  induction xs as [| x xs IH]; intros start; [reflexivity |].
  cbn. now rewrite IH.
Qed.

Lemma seq_resolve_step_det w0 videos result w :
  outcome (Orchestrator.resolve_step quality delay max_retries videos result w)
  = tally_futures (map (verdict quality max_retries w0) videos)
      {| video_data := []; failed_videos := []; report := result |}.
Proof.
  unfold Orchestrator.resolve_step. rewrite (for_videos_det w0).
  rewrite <- (map_map snd (verdict quality max_retries w0)).
  now rewrite map_snd_enumerate.
Qed.

(** A counting that returns has appended the entries of its futures and
    counted their successes. *)
Lemma tally_futures_entries futures : forall st st',
  tally_futures futures st = inr st' ->
  video_data st' = video_data st ++ entries futures /\
  successful (report st')
  = successful (report st) + len (entries futures).
Proof.
  induction futures as [| fut rest IH]; intros st st' H.
  - cbn in H. injection H as <-. cbn. rewrite app_nil_r.
    change (len (@nil entry)) with 0. split; [reflexivity | lia].
  - destruct fut as [e | res]; [discriminate |].
    cbn [tally_futures] in H. apply IH in H as [Hvd Hs].
    destruct res as [t u fi | t]; cbn [entries count_result] in *.
    + cbn [record_success video_data report successful] in Hvd, Hs.
      rewrite Hvd, Hs, <- app_assoc, len_cons. split; [reflexivity | lia].
    + cbn [record_failure video_data report successful] in Hvd, Hs.
      split; assumption.
Qed.

Lemma entries_verdicts w0 videos :
  entries (map (verdict quality max_retries w0) videos)
  = map (entry_for quality max_retries w0)
      (filter (resolves quality max_retries w0) videos).
Proof.
  induction videos as [| v vs IH]; [reflexivity |].
  cbn [map entries filter]. unfold resolves at 1.
  destruct (verdict quality max_retries w0 v) as [e | [t u fi | t]] eqn:Ev;
    [exact IH | | exact IH].
  cbn [map]. unfold entry_for at 1. now rewrite Ev, IH.
Qed.

(** C3: with a resolver that answers by video alone, when the sequential
    step and the thread-pool step (under any schedule and any order of
    [as_completed]) both return on the same list of videos, the videos
    they resolved are the same up to order: [video_data] holds the entries
    of the resolving videos, in playlist order for the sequential step and
    in some permutation of it for the pool, so the identifiers of the
    resolved videos and the success counters coincide. *)
Theorem modes_resolve_same_videos sched yield videos result w w' st_seq st_async :
  outcome (Orchestrator.resolve_step quality delay max_retries
             videos result w) = inr st_seq ->
  outcome (OrchestratorAsync.resolve_step quality max_retries max_workers
             sched yield videos result w') = inr st_async ->
  exists ok_async : list video,
    Permutation (filter (resolves quality max_retries w) videos) ok_async /\
    video_data st_seq
    = map (entry_for quality max_retries w)
        (filter (resolves quality max_retries w) videos) /\
    video_data st_async = map (entry_for quality max_retries w) ok_async /\
    Permutation
      (map id (filter (resolves quality max_retries w) videos))
      (map id ok_async) /\
    successful (report st_seq) = successful (report st_async).
Proof.
  intros Hseq Hasync.
  rewrite (seq_resolve_step_det w) in Hseq.
  apply tally_futures_entries in Hseq as [Hvs Hss].
  cbn [video_data report app] in Hvs, Hss.
  rewrite entries_verdicts in Hvs, Hss.
  (* the pool *)
  unfold OrchestratorAsync.resolve_step, outcome in Hasync.
  destruct ((_ <- (if max_workers <=? 0
                   then raise (ValueError "max_workers must be greater than 0")
                   else ret tt) ;;
             p <- OrchestratorAsync.run_pool quality max_retries max_workers
                    sched (OrchestratorAsync.budget max_retries videos) 0
                    (OrchestratorAsync.submit_all videos) ;;
             OrchestratorAsync.aggregate (arrange yield (completed p))
               {| video_data := []; failed_videos := []; report := result |})
              w') as [[r0 w2] t2] eqn:E.
  cbn [fst] in Hasync. subst r0.
  apply bind_inr_inv in E as (u & w1 & t1 & t3 & Hguard & E & _).
  destruct (max_workers <=? 0) eqn:Ew; [discriminate |].
  apply Z.leb_gt in Ew. cbn in Hguard. injection Hguard as _ <- _.
  apply bind_inr_inv in E as (p & w3 & t4 & t5 & Hpool & Hagg & _).
  destruct (run_pool_verdicts det Hdet quality max_retries max_workers w
              sched videos w' ltac:(lia))
    as (p' & w4 & t6 & done & Hrun & Hdone & Hperm).
  rewrite Hpool in Hrun. injection Hrun as <- _ _.
  rewrite aggregate_run, Hdone, arrange_map in Hagg.
  injection Hagg as Hagg _ _.
  apply tally_futures_entries in Hagg as [Hva Hsa].
  cbn [video_data report app] in Hva, Hsa.
  rewrite entries_verdicts in Hva, Hsa.
  assert (Hok : Permutation
                  (filter (resolves quality max_retries w) videos)
                  (filter (resolves quality max_retries w)
                          (arrange yield done))).
  { apply Permutation_filter_keep. rewrite Hperm. symmetry.
    apply arrange_perm. }
  exists (filter (resolves quality max_retries w) (arrange yield done)).
  split; [exact Hok |]. split; [exact Hvs |]. split; [exact Hva |].
  split; [apply Permutation_map; exact Hok |].
  rewrite Hss, Hsa. unfold len. rewrite !length_map.
  now rewrite (Permutation_length Hok).
Qed.

(** Under the same conditions one step returns exactly when the other
    does. *)
Lemma modes_return_together sched yield videos result w w' :
  1 <= max_workers ->
  (exists st, outcome (Orchestrator.resolve_step quality delay max_retries
                         videos result w) = inr st) <->
  (exists st, outcome (OrchestratorAsync.resolve_step quality max_retries
                         max_workers sched yield videos result w') = inr st).
Proof.
  intros Hw.
  assert (Hall : forall fs st,
    (exists st', tally_futures fs st = inr st') <->
    Forall (fun f : future => exists res, f = inr res) fs).
  { induction fs as [| f fs IH]; intros st.
    - split; [constructor | intros _; eexists; reflexivity].
    - destruct f as [e | res]; cbn [tally_futures].
      + split; [intros [st' H]; discriminate |].
        intros H. inversion H as [| ? ? [res Hr] _]; discriminate.
      + rewrite IH. split.
        * intros H. constructor; [eexists; reflexivity | exact H].
        * intros H. now inversion H. }
  rewrite (seq_resolve_step_det w), Hall.
  destruct (run_pool_verdicts det Hdet quality max_retries max_workers w
              sched videos w' Hw)
    as (p & w1 & t1 & done & Hrun & Hdone & Hperm).
  assert (Ha : outcome (OrchestratorAsync.resolve_step quality max_retries
                          max_workers sched yield videos result w')
               = tally_futures
                   (map (verdict quality max_retries w) (arrange yield done))
                   {| video_data := []; failed_videos := [];
                      report := result |}).
  { unfold OrchestratorAsync.resolve_step.
    assert (Eg : (max_workers <=? 0) = false) by (apply Z.leb_gt; lia).
    rewrite Eg.
    rewrite (bind_returns (ret tt) _ w' tt w' [] eq_refl).
    unfold outcome at 1. cbn [fst].
    rewrite (bind_returns _ _ _ _ _ _ Hrun).
    unfold outcome at 1. cbn [fst].
    now rewrite aggregate_run, Hdone, arrange_map. }
  rewrite Ha, Hall.
  assert (Hp : Permutation (map (verdict quality max_retries w) videos)
                 (map (verdict quality max_retries w) (arrange yield done))).
  { apply Permutation_map. rewrite Hperm. symmetry. apply arrange_perm. }
  split; intros H.
  - eapply Permutation_Forall; eassumption.
  - eapply Permutation_Forall; [symmetry |]; eassumption.
Qed.

End ModesAgree.

(** Witness for C3: the videos [a] and [b] against a resolver that answers
    for [a] only, two attempts, two worker threads. *)
Lemma modes_resolve_same_videos_witness :
  exists st_seq st_async,
    outcome (@Orchestrator.resolve_step two_videos_fixed "best" (3 # 2)%Q 2
               two_video_list initial_result tt) = inr st_seq /\
    outcome (@OrchestratorAsync.resolve_step two_videos_fixed "best" 2 2
               (fun k => k) [1%nat] two_video_list initial_result tt)
    = inr st_async /\
    exists ok_async : list video,
      Permutation
        (filter (@resolves two_videos_fixed "best" 2 tt) two_video_list)
        ok_async /\
      video_data st_seq
      = map (@entry_for two_videos_fixed "best" 2 tt)
          (filter (@resolves two_videos_fixed "best" 2 tt) two_video_list) /\
      video_data st_async
      = map (@entry_for two_videos_fixed "best" 2 tt) ok_async /\
      Permutation
        (map id (filter (@resolves two_videos_fixed "best" 2 tt)
                   two_video_list))
        (map id ok_async) /\
      successful (report st_seq) = successful (report st_async).
Proof.
  eexists. eexists.
  split; [vm_compute; reflexivity |].
  split; [vm_compute; reflexivity |].
  apply (@modes_resolve_same_videos two_videos_fixed a_only
           (fun _ _ _ => eq_refl) "best" (3 # 2)%Q 2 2 (fun k => k) [1%nat]
           two_video_list initial_result tt tt);
    vm_compute; reflexivity.
Defined.

(** ** Runs that return

    The only exceptions of step 2 come from [format_filesize] on a size that
    is [None]; a resolver that always reports a number makes both steps
    return. *)

Section Returns.
Context {R : Runtime}.
Variables (quality : string) (delay : Q) (max_retries max_workers : Z).
Hypothesis Hsizes : sizes_known quality.

Lemma size_known_none : size_known (None, None).
Proof. intros fi H. discriminate. Qed.

Lemma finish_future_returns video_title r :
  size_known r -> exists res, finish_future video_title r = inr res.
Proof.
  unfold finish_future, size_known. destruct r as [direct_url format_info].
  cbn [snd]. intros H.
  destruct (PyStr.truthy_opt direct_url); [| eexists; reflexivity].
  destruct format_info as [fi |]; [| eexists; reflexivity].
  specialize (H fi eq_refl). unfold UrlResolver.format_filesize.
  destruct (filesize fi) as [| q]; [congruence |].
  destruct (Qeq_bool q 0); eexists; reflexivity.
Qed.

Lemma answers_size_known video_id n : forall w,
  Forall size_known (answers video_id quality n w).
Proof.
  induction n as [| n IH]; intros w; constructor; [apply Hsizes | apply IH].
Qed.

Lemma Forall_last {A} (P : A -> Prop) (xs : list A) (d : A) :
  Forall P xs -> P d -> P (List.last xs d).
Proof.
  induction xs as [| x xs IH]; intros H Hd; [exact Hd |].
  inversion H; subst. destruct xs as [| y ys]; [assumption |].
  change (P (List.last (y :: ys) d)). auto.
Qed.

Lemma settled_size_known w v : size_known (settled quality max_retries w v).
Proof.
  unfold settled. apply Forall_last; [| apply size_known_none].
  pose proof (answers_size_known (id v) (Z.to_nat max_retries) w) as H.
  destruct (upto_success_prefix
              (answers (id v) quality (Z.to_nat max_retries) w)) as [tl E].
  rewrite E in H. apply Forall_app in H. apply H.
Qed.

Lemma tally_futures_returns futures : forall st,
  Forall (fun f : future => exists res, f = inr res) futures ->
  exists st', tally_futures futures st = inr st'.
Proof.
  induction futures as [| f fs IH]; intros st H; [eexists; reflexivity |].
  inversion H as [| ? ? [res ->] Hfs]; subst. cbn [tally_futures]. auto.
Qed.

(** The sequential step returns. *)
Lemma for_videos_returns total items : forall st w,
  exists st' w' t,
    Orchestrator.for_videos quality delay max_retries total items st w
    = (inr st', w', t).
Proof.
  induction items as [| [idx v] rest IH]; intros st w.
  - eexists; eexists; eexists; reflexivity.
  - cbn [Orchestrator.for_videos]. rewrite retry_seq_eq.
    rewrite (bind_returns _ _ _ _ _ _
               (retry_with_range quality max_retries _ (id v) (None, None) w)).
    fold (settled quality max_retries w v).
    set (w1 := after_calls _ _ _ w).
    rewrite bind_run, record_as_future.
    destruct (finish_future_returns (title v) _ (settled_size_known w v))
      as [res ->].
    destruct (idx <? total).
    + rewrite (bind_returns (sleep delay) _ w1 tt w1 [Sleep delay] eq_refl).
      destruct (IH (count_result st res) w1) as (st' & w' & t & ->).
      eexists; eexists; eexists; reflexivity.
    + rewrite (bind_returns (ret tt) _ w1 tt w1 [] eq_refl).
      destruct (IH (count_result st res) w1) as (st' & w' & t & ->).
      eexists; eexists; eexists; reflexivity.
Qed.

Lemma seq_resolve_step_returns videos result w :
  exists st w' t,
    Orchestrator.resolve_step quality delay max_retries videos result w
    = (inr st, w', t).
Proof. apply for_videos_returns. Qed.

(** A worker with a known size makes no exception. *)
Lemma task_step_size_known t w :
  task_size_known t ->
  match OrchestratorAsync.task_step quality max_retries t w with
  | (inr (inl t'), _, _) => task_size_known t'
  | (inr (inr _), _, _) => True
  | (inl _, _, _) => False
  end.
Proof.
  unfold task_size_known, OrchestratorAsync.task_step.
  destruct (t_pc t) as [[| a rest] cur | a rest]; intros H.
  - rewrite bind_run, finish_run.
    destruct (finish_future_returns (title (t_video t)) cur H) as [res ->].
    exact I.
  - exact I.
  - rewrite (bind_returns _ _ _ _ _ _
               (get_direct_url_run (id (t_video t)) quality w)).
    destruct (PyStr.truthy_opt (fst (answer (id (t_video t)) quality w)));
      [apply Hsizes |].
    destruct (a <? max_retries - 1); apply Hsizes.
Qed.

Lemma pool_step_unexceptional c a p w p' w' tr :
  unexceptional p ->
  OrchestratorAsync.choose max_workers c p = Some a ->
  OrchestratorAsync.pool_step quality max_retries max_workers a p w
    = (inr p', w', tr) ->
  unexceptional p'.
Proof.
  intros [Hact Hdone] Hc Hstep. apply choose_valid in Hc.
  destruct a as [| i].
  - unfold OrchestratorAsync.can_admit in Hc.
    unfold OrchestratorAsync.pool_step in Hstep.
    destruct (queue p) as [| v rest]; [discriminate |].
    rewrite Hc in Hstep. injection Hstep as <- _ _.
    split; cbn [active completed]; [| exact Hdone].
    apply Forall_app. split; [exact Hact |].
    constructor; [apply size_known_none | constructor].
  - destruct (nth_error (active p) i) as [t |] eqn:Et;
      [| apply nth_error_None in Et; lia].
    pose proof (pool_step_advance quality max_retries max_workers i t p w Et)
      as Hadv.
    pose proof (task_step_size_known t w
                  (proj1 (Forall_forall _ _) Hact t (nth_error_In _ _ Et)))
      as Hgood.
    destruct (OrchestratorAsync.task_step quality max_retries t w)
      as [[[e | [t' | res]] w1] t1]; [contradiction | |];
      rewrite Hadv in Hstep; injection Hstep as <- _ _;
      split; cbn [active completed].
    + apply Forall_replace_nth; assumption.
    + exact Hdone.
    + apply Forall_remove_nth; assumption.
    + apply Forall_app. split; [exact Hdone |].
      constructor; [eexists; reflexivity | constructor].
Qed.

(** The thread-pool step returns when the pool has a worker thread. *)
Lemma async_resolve_step_returns sched yield videos result w :
  1 <= max_workers ->
  exists st w' t,
    OrchestratorAsync.resolve_step quality max_retries max_workers sched yield
      videos result w = (inr st, w', t).
Proof.
  intros Hw. unfold OrchestratorAsync.resolve_step.
  assert (Eg : (max_workers <=? 0) = false) by (apply Z.leb_gt; lia).
  rewrite Eg. rewrite (bind_returns (ret tt) _ w tt w [] eq_refl).
  destruct (run_pool_ends quality max_retries max_workers unexceptional sched)
    with (n := OrchestratorAsync.budget max_retries videos) (k := O)
         (p := OrchestratorAsync.submit_all videos) (w := w)
    as (p & w' & tr & Hrun & [_ Hdone] & _).
  - intros c a p0 w1 p1 w2 tr0 HI Hc Hstep.
    eapply pool_step_unexceptional; eassumption.
  - split; constructor.
  - rewrite (bind_returns _ _ _ _ _ _ Hrun), aggregate_run.
    destruct (tally_futures_returns (arrange yield (completed p))
                {| video_data := []; failed_videos := []; report := result |})
      as [st Hst].
    { eapply Permutation_Forall; [| exact Hdone].
      symmetry. apply arrange_perm. }
    rewrite Hst. eexists; eexists; eexists; reflexivity.
Qed.

End Returns.

Section WholeRunsReturn.
Context {R : Runtime}.
Variables (quality : string) (delay : Q) (max_retries max_workers : Z).
Hypothesis Hsizes : sizes_known quality.

(** Step 3 raises only for a missing output path together with a playlist
    title that is [None]. *)
Lemma write_step_returns playlist_title output_path st w :
  PyStr.truthy_opt output_path = true \/ playlist_title <> None ->
  exists r w' t, write_step playlist_title output_path st w = (inr r, w', t).
Proof.
  intros Hpath. unfold write_step.
  destruct (video_data st) as [| e0 es];
    [eexists; eexists; eexists; reflexivity |].
  assert (Hname : exists path w1,
    (if PyStr.truthy_opt output_path
     then ret (get_default output_path "")
     else OutputFormatter.generate_output_filename playlist_title) w
    = (inr path, w1, [])).
  { destruct (PyStr.truthy_opt output_path);
      [eexists; eexists; reflexivity |].
    destruct Hpath as [Hp | Hp]; [discriminate |].
    destruct playlist_title as [pt |]; [| congruence].
    unfold OutputFormatter.generate_output_filename, bind, perform.
    destruct (timestamp w) as [stamp ws]. eexists; eexists; reflexivity. }
  destruct Hname as (path & w1 & Hname).
  rewrite (bind_returns _ _ _ _ _ _ Hname).
  unfold try_except, OutputFormatter.write_to_file, bind, attempt.
  destruct (fs_write path (e0 :: es) playlist_title w1) as [[err |] w2];
    eexists; eexists; eexists; reflexivity.
Qed.

(** Past a fetch that found videos, with an output path or a playlist
    title, the sequential run returns its report, and so does the
    thread-pool run when it has a worker thread. *)
Lemma process_playlist_returns sched yield playlist_url output_path w
    playlist_title videos w1 t1 :
  fetch_step playlist_url w = (inr (inr (playlist_title, videos)), w1, t1) ->
  PyStr.truthy_opt output_path = true \/ playlist_title <> None ->
  (exists r,
      outcome (Orchestrator.process_playlist quality delay max_retries
                 playlist_url output_path w) = inr r) /\
  (1 <= max_workers ->
   exists r,
      outcome (OrchestratorAsync.process_playlist quality max_retries
                 max_workers sched yield playlist_url output_path w) = inr r).
Proof.
  intros Hfetch Hpath. split; [| intros Hw].
  - unfold Orchestrator.process_playlist.
    rewrite (bind_returns _ _ _ _ _ _ Hfetch).
    destruct videos as [| v vs]; [eexists; reflexivity |].
    destruct (seq_resolve_step_returns quality delay max_retries Hsizes
                (v :: vs) (set_total_videos initial_result (len (v :: vs))) w1)
      as (st & w2 & t2 & Hres).
    rewrite (bind_returns _ _ _ _ _ _ Hres).
    destruct (write_step_returns playlist_title output_path st w2 Hpath)
      as (r & w3 & t3 & Hwr).
    rewrite Hwr. exists r. reflexivity.
  - unfold OrchestratorAsync.process_playlist.
    rewrite (bind_returns _ _ _ _ _ _ Hfetch).
    destruct videos as [| v vs]; [eexists; reflexivity |].
    destruct (async_resolve_step_returns quality max_retries max_workers
                Hsizes sched yield (v :: vs)
                (set_total_videos initial_result (len (v :: vs))) w1 Hw)
      as (st & w2 & t2 & Hres).
    rewrite (bind_returns _ _ _ _ _ _ Hres).
    destruct (write_step_returns playlist_title output_path st w2 Hpath)
      as (r & w3 & t3 & Hwr).
    rewrite Hwr. exists r. reflexivity.
Qed.

End WholeRunsReturn.

(** ** A worker runs [_resolve_video_url] *)

Section WorkerFacts.
Context {R : Runtime}.
Variables (quality : string) (max_retries : Z).

Lemma bind_assoc {A B C} (c : M A) (k : A -> M B) (h : B -> M C) w :
  bind (bind c k) h w = bind c (fun a => bind (k a) h) w.
Proof.
  unfold bind. destruct (c w) as [[[e | a] w1] t1]; [reflexivity |].
  destruct (k a w1) as [[[e | b] w2] t2]; [reflexivity |].
  destruct (h b w2) as [[r w3] t3]. now rewrite app_assoc.
Qed.

Lemma bind_ret_l {A B} (a : A) (k : A -> M B) w : bind (ret a) k w = k a w.
Proof. unfold bind, ret. destruct (k a w) as [[r w2] t2]. reflexivity. Qed.

Lemma bind_ext {A B} (c : M A) (k k' : A -> M B) w :
  (forall a w1, k a w1 = k' a w1) -> bind c k w = bind c k' w.
Proof.
  intros H. unfold bind. destruct (c w) as [[[e | a] w1] t1]; [reflexivity |].
  now rewrite H.
Qed.

(** After the loop, one step builds the returned dictionary. *)
Lemma run_task_finish n v current w :
  OrchestratorAsync.run_task quality max_retries (S n)
    {| t_video := v; t_pc := AtLoop [] current |} w
  = (res <- OrchestratorAsync.finish (title v) current ;; ret (inr res)) w.
Proof.
  cbn [OrchestratorAsync.run_task OrchestratorAsync.task_step t_pc t_video].
  rewrite bind_assoc. apply bind_ext. intros res w1.
  rewrite bind_ret_l. reflexivity.
Qed.

(** From the head of the loop, enough steps run the rest of the loop and
    build the returned dictionary. *)
Lemma run_task_loop v attempts : forall n current w,
  (2 * List.length attempts + 1 <= n)%nat ->
  OrchestratorAsync.run_task quality max_retries n
    {| t_video := v; t_pc := AtLoop attempts current |} w
  = (r <- OrchestratorAsync.retry quality max_retries (id v) attempts current ;;
     res <- OrchestratorAsync.finish (title v) r ;;
     ret (inr res)) w.
Proof.
  induction attempts as [| a rest IH]; intros n current w Hn.
  - destruct n as [| n]; [cbn in Hn; lia |].
    rewrite run_task_finish. cbn [OrchestratorAsync.retry].
    now rewrite bind_ret_l.
  - destruct n as [| [| n]]; [cbn in Hn; lia | cbn in Hn; lia |].
    cbn [List.length] in Hn.
    cbn [OrchestratorAsync.run_task OrchestratorAsync.task_step t_pc t_video
         OrchestratorAsync.retry].
    rewrite bind_ret_l. cbn [OrchestratorAsync.run_task OrchestratorAsync.task_step t_pc t_video].
    rewrite !bind_assoc. apply bind_ext. intros r w1.
    destruct (PyStr.truthy_opt (fst r)).
    + rewrite !bind_ret_l.
      destruct n as [| n]; [lia |]. apply run_task_finish.
    + rewrite !bind_assoc. apply bind_ext. intros u w2.
      rewrite bind_ret_l. apply IH. lia.
Qed.

(** A worker that starts on a video and is given its steps runs
    [_resolve_video_url] on it: same result or exception, same world, same
    trace. *)
Lemma run_task_resolve_video_url v w :
  OrchestratorAsync.run_task quality max_retries
    (task_cost (OrchestratorAsync.start max_retries v))
    (OrchestratorAsync.start max_retries v) w
  = (res <- OrchestratorAsync._resolve_video_url quality max_retries v ;;
     ret (inr res)) w.
Proof.
  unfold OrchestratorAsync.start, OrchestratorAsync._resolve_video_url,
    task_cost. cbn [t_pc].
  rewrite run_task_loop by lia. now rewrite bind_assoc.
Qed.

End WorkerFacts.

(** * Further properties of the sources *)

(** ** File names *)

Section MoreSanitizeFacts.

Lemma length_replace old new s :
  String.length (PyStr.replace old new s) = String.length s.
Proof. induction s as [| c s IH]; simpl; [reflexivity | now rewrite IH]. Qed.

Lemma length_replace_invalid chars : forall s,
  String.length (OutputFormatter.replace_invalid chars s) = String.length s.
Proof.
  induction chars as [| d rest IH]; intros s; simpl; [reflexivity |].
  now rewrite IH, length_replace.
Qed.

Lemma length_lstrip chars s :
  (String.length (PyStr.lstrip chars s) <= String.length s)%nat.
Proof.
  induction s as [| c s IH]; simpl; [lia |].
  destruct (PyStr.mem c chars); simpl; lia.
Qed.

Lemma length_rstrip chars s :
  (String.length (PyStr.rstrip chars s) <= String.length s)%nat.
Proof.
  induction s as [| c s IH]; simpl; [lia |].
  destruct (PyStr.rstrip chars s) as [| e kept].
  - destruct (PyStr.mem c chars); simpl; lia.
  - simpl in *. lia.
Qed.

Lemma slice_to_all n : forall s,
  (String.length s <= n)%nat -> PyStr.slice_to n s = s.
Proof.
  induction n as [| n IH]; intros s H.
  - destruct s; [reflexivity | simpl in H; lia].
  - destruct s as [| c s]; [reflexivity |]. simpl in *.
    rewrite IH by lia. reflexivity.
Qed.

(** What [rstrip] keeps does not end with a stripped character. *)
Lemma last_rstrip chars s c :
  PyStr.last (PyStr.rstrip chars s) = Some c -> PyStr.mem c chars = false.
Proof.
  induction s as [| d s IH]; simpl; [discriminate |].
  destruct (PyStr.rstrip chars s) as [| e kept] eqn:E.
  - destruct (PyStr.mem d chars) eqn:Ed; simpl; [discriminate |].
    intros [= <-]. exact Ed.
  - intros H. apply IH. exact H.
Qed.

Lemma replace_absent old new s :
  PyStr.mem old s = false -> PyStr.replace old new s = s.
Proof.
  induction s as [| c s IH]; simpl; [reflexivity |].
  intros H. apply orb_false_iff in H as [Hc Hs].
  rewrite (IH Hs). rewrite Ascii.eqb_sym in Hc. now rewrite Hc.
Qed.

Lemma replace_invalid_absent_id chars : forall s,
  (forall c, PyStr.mem c chars = true -> PyStr.mem c s = false) ->
  OutputFormatter.replace_invalid chars s = s.
Proof.
  induction chars as [| d rest IH]; intros s H; simpl; [reflexivity |].
  rewrite replace_absent.
  - apply IH. intros c Hc. apply H. simpl. rewrite Hc. apply orb_true_r.
  - apply H. simpl. now rewrite Ascii.eqb_refl.
Qed.

Lemma lstrip_nothing chars s :
  (forall c, PyStr.first s = Some c -> PyStr.mem c chars = false) ->
  PyStr.lstrip chars s = s.
Proof.
  destruct s as [| c s]; [reflexivity |]. simpl. intros H.
  now rewrite (H c eq_refl).
Qed.

Lemma rstrip_nothing chars s :
  (forall c, PyStr.last s = Some c -> PyStr.mem c chars = false) ->
  PyStr.rstrip chars s = s.
Proof.
  induction s as [| c s IH]; [reflexivity |]. intros H.
  destruct s as [| d s'].
  - simpl in *. now rewrite (H c eq_refl).
  - change (PyStr.rstrip chars (String c (String d s')))
      with (match PyStr.rstrip chars (String d s') with
            | EmptyString =>
                if PyStr.mem c chars then EmptyString else String c EmptyString
            | kept => String c kept
            end).
    rewrite IH; [reflexivity |]. intros e He. apply H. exact He.
Qed.

(** Stripping a string made of stripped characters leaves nothing. *)
Lemma lstrip_all_in chars s :
  all_in chars s = true -> PyStr.lstrip chars s = "".
Proof.
  induction s as [| c s IH]; [reflexivity |]. simpl.
  intros H. apply andb_true_iff in H as [Hc Hs]. now rewrite Hc, IH.
Qed.

Lemma all_in_replace_other chars old new s :
  PyStr.mem old chars = false ->
  all_in chars s = true -> all_in chars (PyStr.replace old new s) = true.
Proof.
  intros Hold. induction s as [| c s IH]; [reflexivity |]. simpl.
  intros H. apply andb_true_iff in H as [Hc Hs].
  destruct (Ascii.eqb c old) eqn:E.
  - apply Ascii.eqb_eq in E as ->. congruence.
  - now rewrite Hc, IH.
Qed.

Lemma all_in_replace_invalid chars invalid : forall s,
  (forall c, PyStr.mem c invalid = true -> PyStr.mem c chars = false) ->
  all_in chars s = true ->
  all_in chars (OutputFormatter.replace_invalid invalid s) = true.
Proof.
  induction invalid as [| d rest IH]; intros s H Hs; simpl; [exact Hs |].
  apply IH.
  - intros c Hc. apply H. simpl. rewrite Hc. apply orb_true_r.
  - apply all_in_replace_other; [| exact Hs].
    apply H. simpl. now rewrite Ascii.eqb_refl.
Qed.

End MoreSanitizeFacts.

(** X1: on every input [sanitize_filename] returns a name without any of
    the nine invalid characters, of at most 200 characters, not empty, and
    not starting with a space or a dot. *)
Theorem sanitize_filename_safe_prefix filename :
  (forall c, PyStr.mem c OutputFormatter.invalid_chars = true ->
             PyStr.mem c (OutputFormatter.sanitize_filename filename) = false) /\
  (String.length (OutputFormatter.sanitize_filename filename) <= 200)%nat /\
  OutputFormatter.sanitize_filename filename <> "" /\
  (forall c, PyStr.first (OutputFormatter.sanitize_filename filename) = Some c ->
             PyStr.mem c ". " = false).
Proof. apply sanitize_filename_sound. Qed.

(** X2: a name of at most 200 characters is not cut, so what
    [sanitize_filename] returns for it does not end with a space or a dot
    either. *)
Theorem sanitize_filename_short_no_trailing filename c :
  (String.length filename <= 200)%nat ->
  PyStr.last (OutputFormatter.sanitize_filename filename) = Some c ->
  PyStr.mem c ". " = false.
Proof.
  intros Hlen. unfold OutputFormatter.sanitize_filename.
  set (s1 := OutputFormatter.replace_invalid OutputFormatter.invalid_chars filename).
  assert (H2 : (String.length (PyStr.strip ". " s1) <= 200)%nat).
  { unfold PyStr.strip.
    pose proof (length_rstrip ". " (PyStr.lstrip ". " s1)).
    pose proof (length_lstrip ". " s1).
    pose proof (length_replace_invalid OutputFormatter.invalid_chars filename).
    fold s1 in H1. lia. }
  apply Nat.ltb_ge in H2. rewrite H2.
  destruct (PyStr.strip ". " s1) as [| d rest] eqn:E; cbn [PyStr.truthy].
  - intros [= <-]. reflexivity.
  - rewrite <- E. unfold PyStr.strip. apply last_rstrip.
Qed.

(** X3: on names of at most 200 characters [sanitize_filename] is
    idempotent. *)
Theorem sanitize_filename_idempotent filename :
  (String.length filename <= 200)%nat ->
  OutputFormatter.sanitize_filename
    (OutputFormatter.sanitize_filename filename)
  = OutputFormatter.sanitize_filename filename.
Proof.
  intros Hlen.
  destruct (sanitize_filename_sound filename) as (Hinv & H200 & Hne & Hfirst).
  pose proof (fun c => sanitize_filename_short_no_trailing filename c Hlen)
    as Hlast.
  set (r := OutputFormatter.sanitize_filename filename) in *.
  unfold OutputFormatter.sanitize_filename at 1.
  rewrite (replace_invalid_absent_id _ r Hinv).
  unfold PyStr.strip.
  rewrite (lstrip_nothing ". " r Hfirst), (rstrip_nothing ". " r Hlast).
  apply Nat.ltb_ge in H200. rewrite H200.
  destruct r; [congruence | reflexivity].
Qed.

(** X4: the helper of the web application is the same function without the
    fallback: [sanitize_filename] of the formatter returns what the helper
    returns, or "output" when the helper returns the empty string; and the
    helper does return the empty string on a name made of spaces and dots
    only. *)
Theorem web_sanitize_filename_no_fallback filename :
  OutputFormatter.sanitize_filename filename
  = (if PyStr.truthy (WebApp.sanitize_filename filename)
     then WebApp.sanitize_filename filename else "output") /\
  (all_in ". " filename = true ->
   WebApp.sanitize_filename filename = "" /\
   OutputFormatter.sanitize_filename filename = "output").
Proof.
  assert (Heq : OutputFormatter.sanitize_filename filename
                = (if PyStr.truthy (WebApp.sanitize_filename filename)
                   then WebApp.sanitize_filename filename else "output")).
  { unfold OutputFormatter.sanitize_filename, WebApp.sanitize_filename.
    set (s2 := PyStr.strip ". " _).
    destruct (200 <? String.length s2)%nat eqn:E; [reflexivity |].
    apply Nat.ltb_ge in E. now rewrite (slice_to_all 200 s2 E). }
  split; [exact Heq |]. intros Hall.
  assert (Hweb : WebApp.sanitize_filename filename = "").
  { unfold WebApp.sanitize_filename, PyStr.strip.
    rewrite lstrip_all_in; [reflexivity |].
    apply all_in_replace_invalid; [| exact Hall].
    intros c Hc. unfold OutputFormatter.invalid_chars in Hc. simpl in Hc.
    repeat (apply orb_true_iff in Hc as [Hc | Hc];
            [apply Ascii.eqb_eq in Hc as ->; reflexivity |]).
    discriminate. }
  split; [exact Hweb |]. rewrite Heq, Hweb. reflexivity.
Qed.

(** Witness for X2: a 19-character name with invalid characters and a
    trailing dot and space. *)
Lemma sanitize_filename_short_no_trailing_witness :
  (String.length "My list: part 1/2. " <= 200)%nat /\
  PyStr.last (OutputFormatter.sanitize_filename "My list: part 1/2. ")
  = Some "2"%char /\
  PyStr.mem "2" ". " = false.
Proof.
  split; [simpl; lia |]. split; [reflexivity |].
  exact (sanitize_filename_short_no_trailing "My list: part 1/2. " "2"
           ltac:(simpl; lia) eq_refl).
Defined.

(** Witness for X3: the same name. *)
Lemma sanitize_filename_idempotent_witness :
  (String.length "My list: part 1/2. " <= 200)%nat /\
  OutputFormatter.sanitize_filename
    (OutputFormatter.sanitize_filename "My list: part 1/2. ")
  = OutputFormatter.sanitize_filename "My list: part 1/2. ".
Proof.
  split; [simpl; lia |].
  exact (sanitize_filename_idempotent "My list: part 1/2. "
           ltac:(simpl; lia)).
Defined.

(** ** Sizes and direct URLs *)

Section ResolverMore.
Context {R : Runtime}.

Lemma filesize_units_spec units : forall size_bytes,
  exists k,
    (k <= List.length units)%nat /\
    UrlResolver.filesize_units units size_bytes
    = (format_1f (scaled k size_bytes) ++ " " ++ nth k units "TB")%string /\
    ((k < List.length units)%nat -> (scaled k size_bytes < 1024)%Q) /\
    (forall j, (j < k)%nat -> (1024 <= scaled j size_bytes)%Q).
Proof.
  induction units as [| u rest IH]; intros q.
  - exists O. repeat split; [lia | cbn; lia | intros j Hj; lia].
  - cbn [UrlResolver.filesize_units].
    destruct (Qle_bool 1024 q) eqn:E; cbn [negb].
    + destruct (IH (q / 1024)%Q) as (k & Hk & Heq & Hlt & Hge).
      exists (S k). cbn [scaled nth List.length].
      repeat split; [lia | exact Heq | intros H; apply Hlt; lia |].
      intros [| j] Hj; cbn [scaled].
      * apply Qle_bool_iff. exact E.
      * apply Hge. lia.
    + exists O. cbn [scaled nth List.length].
      repeat split; [lia | | intros j Hj; lia].
      intros _. apply Qnot_le_lt. intros H.
      apply Qle_bool_iff in H. congruence.
Qed.

(** X5: for a size that is a number other than zero and below 2^53 in
    magnitude (so that the divisions by 1024.0 are exact and cannot
    overflow), [format_filesize] returns the size divided by 1024 as many
    times [k] as it takes to get below 1024 (at most four times), rendered
    with one decimal, followed by the [k]-th of the units B, KB, MB, GB,
    TB. *)
Theorem format_filesize_unit size_bytes :
  exact_size size_bytes ->
  ~ (size_bytes == 0)%Q ->
  exists k,
    (k <= 4)%nat /\
    UrlResolver.format_filesize (PyNum size_bytes)
    = inr (format_1f (scaled k size_bytes) ++ " " ++ unit_name k)%string /\
    ((k < 4)%nat -> (scaled k size_bytes < 1024)%Q) /\
    (forall j, (j < k)%nat -> (1024 <= scaled j size_bytes)%Q).
Proof.
  intros _ Hnz. unfold UrlResolver.format_filesize.
  destruct (Qeq_bool size_bytes 0) eqn:E;
    [apply Qeq_bool_iff in E; contradiction |].
  destruct (filesize_units_spec ["B"; "KB"; "MB"; "GB"] size_bytes)
    as (k & Hk & Heq & Hlt & Hge).
  exists k. unfold unit_name. cbn [List.length] in *.
  repeat split; [exact Hk | now rewrite Heq | exact Hlt | exact Hge].
Qed.

(** What [read_info] makes of an info dictionary, as [get_direct_url]
    returns it. *)
Lemma answer_of_info video_id quality w info w1 :
  extract_info ("https://www.youtube.com/watch?v=" ++ video_id)%string
    (UrlResolver.format_selectors quality) w = (inr (Some info), w1) ->
  answer video_id quality w =
  match outcome (UrlResolver.read_info (Some info) w1) with
  | inr r => r
  | inl _ => (None, None)
  end /\
  after video_id quality w = w1.
Proof.
  intros H. unfold answer, after, UrlResolver.get_direct_url, bind, emit,
    try_except, attempt.
  rewrite H.
  destruct (read_info_trace (Some info) w1) as [Hw Ht].
  destruct (UrlResolver.read_info (Some info) w1) as [[[e | r] w2] t2];
    cbn in Hw, Ht |- *; subst; split; reflexivity.
Qed.

(** X6: when yt-dlp returns an info dictionary that is not empty,
    [get_direct_url] returns its ['url'] if that is truthy, whatever
    [requested_formats] holds; otherwise the URL of the first requested
    format; otherwise (no such key, and some other key present) the falsy
    ['url'] itself; and with an empty [requested_formats] the [IndexError]
    is swallowed and [(None, None)] is returned.  In the first three cases
    a [format_info] is returned.  (The empty dictionary is falsy: for it
    the source returns [(None, None)] as for [None].) *)
Theorem get_direct_url_url_choice video_id quality w info w1 :
  extract_info ("https://www.youtube.com/watch?v=" ++ video_id)%string
    (UrlResolver.format_selectors quality) w = (inr (Some info), w1) ->
  (PyStr.truthy_opt (info_url info) = true ->
   fst (answer video_id quality w) = info_url info /\
   snd (answer video_id quality w) <> None) /\
  (PyStr.truthy_opt (info_url info) = false ->
   match info_requested_formats info with
   | Some (video_format :: _) =>
       fst (answer video_id quality w) = video_format /\
       snd (answer video_id quality w) <> None
   | Some [] => answer video_id quality w = (None, None)
   | None =>
       info_has_key info = true ->
       fst (answer video_id quality w) = info_url info /\
       snd (answer video_id quality w) <> None
   end).
Proof.
  intros H. destruct (answer_of_info _ _ _ _ _ H) as [-> _].
  unfold UrlResolver.read_info. split; intros Hu; rewrite Hu; cbn [negb].
  - cbn. split; [reflexivity | discriminate].
  - destruct (info_requested_formats info) as [[| f fs] |]; cbn;
      try (intros _; split; [reflexivity | discriminate]);
      try (split; [reflexivity | discriminate]); try reflexivity.
Qed.

(** X7: a quality preference other than '1080p' and '720p' is handled as
    'best': yt-dlp is asked the same thing, so [get_direct_url] returns the
    same pair and leaves the same world.  Each of the two calls is one
    invocation; the trace records the preference it was given. *)
Theorem unknown_quality_is_best video_id quality w :
  quality <> "1080p" -> quality <> "720p" ->
  answer video_id quality w = answer video_id "best" w /\
  after video_id quality w = after video_id "best" w /\
  outcome (UrlResolver.get_direct_url video_id quality w)
  = outcome (UrlResolver.get_direct_url video_id "best" w) /\
  trace (UrlResolver.get_direct_url video_id quality w)
  = [Resolve video_id quality] /\
  trace (UrlResolver.get_direct_url video_id "best" w)
  = [Resolve video_id "best"].
Proof.
  intros H1 H2.
  assert (Hmain :
    answer video_id quality w = answer video_id "best" w /\
    after video_id quality w = after video_id "best" w);
    [| destruct Hmain as [Ha Hw]; split; [exact Ha |]; split; [exact Hw |];
       rewrite !get_direct_url_run; cbn [outcome trace fst snd];
       rewrite Ha; repeat split].
  assert (Hsel : UrlResolver.format_selectors quality
                 = UrlResolver.format_selectors "best").
  { unfold UrlResolver.format_selectors.
    destruct (String.eqb quality "1080p") eqn:E1;
      [apply String.eqb_eq in E1; contradiction |].
    destruct (String.eqb quality "720p") eqn:E2;
      [apply String.eqb_eq in E2; contradiction |].
    reflexivity. }
  unfold answer, after, UrlResolver.get_direct_url, bind, emit, try_except,
    attempt.
  rewrite Hsel.
  destruct (extract_info _ _ w) as [[e | info] w1]; [split; reflexivity |].
  destruct (UrlResolver.read_info info w1) as [[[e | r] w2] t2];
    split; reflexivity.
Qed.

End ResolverMore.

(** Witness for X5: 1 536 000 bytes are rendered in KB after one
    division. *)
Lemma format_filesize_unit_witness :
  exact_size 1536000 /\
  ~ (1536000 == 0)%Q /\
  exists k,
    (k <= 4)%nat /\
    @UrlResolver.format_filesize two_videos (PyNum 1536000)
    = inr (@format_1f two_videos (scaled k 1536000) ++ " " ++ unit_name k)%string /\
    ((k < 4)%nat -> (scaled k 1536000 < 1024)%Q) /\
    (forall j, (j < k)%nat -> (1024 <= scaled j 1536000)%Q).
Proof.
  assert (Hx : exact_size 1536000) by (split; reflexivity).
  assert (H : ~ (1536000 == 0)%Q) by (intros H; discriminate H).
  split; [exact Hx |]. split; [exact H |].
  exact (@format_filesize_unit two_videos 1536000 Hx H).
Defined.

(** Witness for X6: the resolver that answers for the video [a]. *)
Lemma get_direct_url_url_choice_witness :
  @extract_info two_videos_fixed "https://www.youtube.com/watch?v=a"
    (UrlResolver.format_selectors "best") tt
  = (inr (Some (info_with_url (Some "https://cdn.example/a.mp4"))), tt) /\
  fst (@answer two_videos_fixed "a" "best" tt)
  = Some "https://cdn.example/a.mp4".
Proof.
  split; [reflexivity |].
  exact (proj1 (proj1 (@get_direct_url_url_choice two_videos_fixed "a" "best"
                         tt (info_with_url (Some "https://cdn.example/a.mp4"))
                         tt eq_refl) eq_refl)).
Defined.

(** Witness for X7: the preference '480p'. *)
Lemma unknown_quality_is_best_witness :
  "480p" <> "1080p" /\ "480p" <> "720p" /\
  @answer two_videos "a" "480p" first_resolves
  = @answer two_videos "a" "best" first_resolves.
Proof.
  assert (H1 : "480p" <> "1080p") by discriminate.
  assert (H2 : "480p" <> "720p") by discriminate.
  split; [exact H1 |]. split; [exact H2 |].
  exact (proj1 (@unknown_quality_is_best two_videos "a" "480p"
                  first_resolves H1 H2)).
Defined.

(** ** The playlist fetcher *)

Section FetcherFacts.
Context {R : Runtime}.

Lemma collect_available entries :
  PlaylistFetcher.collect entries = map video_of_entry (available entries).
Proof.
  induction entries as [| [e |] rest IH]; cbn; [reflexivity | | exact IH].
  now rewrite IH.
Qed.

Lemma available_length {A} (entries : list (option A)) :
  (List.length (available entries) <= List.length entries)%nat.
Proof.
  induction entries as [| [e |] rest IH]; cbn; lia.
Qed.

(** X8: [get_playlist_videos] makes one video of each available entry, in
    playlist order, skipping the entries that are [None]; so it never
    returns more videos than the playlist has entries, and a video whose
    entry has no ['url'] gets the watch URL of its id. *)
Theorem get_playlist_videos_entries playlist_url w playlist_info entries w1 :
  extract_flat playlist_url w = (inr (Some playlist_info), w1) ->
  pl_entries playlist_info = Some entries ->
  PlaylistFetcher.get_playlist_videos playlist_url w
  = (inr (map video_of_entry (available entries)), w1, []) /\
  (List.length (available entries) <= List.length entries)%nat /\
  (forall e, In e (available entries) -> pe_url e = None ->
     url (video_of_entry e)
     = ("https://www.youtube.com/watch?v=" ++ id (video_of_entry e))%string).
Proof.
  intros Hx He. split; [| split].
  - unfold PlaylistFetcher.get_playlist_videos, try_except, bind, attempt.
    rewrite Hx, He. cbn. now rewrite collect_available.
  - apply available_length.
  - intros e _ Hu. unfold video_of_entry. cbn. now rewrite Hu.
Qed.

(** X9: whatever goes wrong in [get_playlist_videos] (yt-dlp raises,
    returns nothing, or returns something without ['entries']) comes out as
    an [Exception] whose text starts with "Failed to fetch playlist: ";
    and the function returns only when yt-dlp returned entries. *)
Theorem get_playlist_videos_errors playlist_url w :
  (forall e,
     outcome (PlaylistFetcher.get_playlist_videos playlist_url w) = inl e ->
     exists m, e = Exception_ ("Failed to fetch playlist: " ++ m)%string) /\
  (forall videos,
     outcome (PlaylistFetcher.get_playlist_videos playlist_url w) = inr videos ->
     exists playlist_info entries,
       fst (extract_flat playlist_url w) = inr (Some playlist_info) /\
       pl_entries playlist_info = Some entries /\
       videos = PlaylistFetcher.collect entries) /\
  (fst (extract_flat playlist_url w) = inr None ->
   outcome (PlaylistFetcher.get_playlist_videos playlist_url w)
   = inl (Exception_
            "Failed to fetch playlist: Could not extract playlist information")).
Proof.
  unfold PlaylistFetcher.get_playlist_videos, try_except, bind, attempt.
  destruct (extract_flat playlist_url w) as [[e0 | [pi |]] w1]; cbn.
  - split; [| split]; [| discriminate | discriminate].
    intros e [= <-]. eexists; reflexivity.
  - destruct (pl_entries pi) as [es |] eqn:Ees; cbn.
    + split; [| split]; [discriminate | | discriminate].
      intros videos [= <-]. exists pi, es. repeat split; assumption.
    + split; [| split]; [| discriminate | discriminate].
      intros e [= <-]. eexists; reflexivity.
  - split; [| split]; [| discriminate | reflexivity].
    intros e [= <-]. eexists; reflexivity.
Qed.

(** X10: [get_playlist_title] never raises and logs nothing; it returns
    'Unknown Playlist' when yt-dlp raises, returns nothing, or returns a
    playlist without the key ['title'], and the value of that key
    otherwise. *)
Theorem get_playlist_title_total playlist_url w :
  PlaylistFetcher.get_playlist_title playlist_url w
  = (inr match fst (extract_flat playlist_url w) with
         | inr (Some playlist_info) =>
             match pl_title playlist_info with
             | Some t => t
             | None => Some "Unknown Playlist"
             end
         | _ => Some "Unknown Playlist"
         end,
     snd (extract_flat playlist_url w), []).
Proof.
  unfold PlaylistFetcher.get_playlist_title, try_except, bind, attempt.
  destruct (extract_flat playlist_url w) as [[e | [pi |]] w1]; cbn;
    try reflexivity; try (destruct (pl_title pi); reflexivity).
Qed.

End FetcherFacts.

(** Witness for X8: three entries, the second unavailable, the third
    without URL and title. *)
Lemma get_playlist_videos_entries_witness :
  @extract_flat gappy_playlist demo_url [] = (inr (Some gappy_info), []) /\
  pl_entries gappy_info = Some gappy_entries /\
  @PlaylistFetcher.get_playlist_videos gappy_playlist demo_url []
  = (inr [{| id := "a"; title := "First"; url := "https://youtu.be/a";
             duration := 61 |};
          {| id := "c"; title := "Unknown Title";
             url := "https://www.youtube.com/watch?v=c"; duration := 0 |}],
     [], []).
Proof.
  split; [reflexivity |]. split; [reflexivity |].
  exact (proj1 (@get_playlist_videos_entries gappy_playlist demo_url []
                  gappy_info gappy_entries [] eq_refl eq_refl)).
Defined.

(** ** Runs that do not reach the aggregation *)

Section EarlyEnds.
Context {R : Runtime}.
Variables (quality : string) (delay : Q) (max_retries max_workers : Z).

(** What step 1 catches is what [get_playlist_videos] raised. *)
Lemma fetch_step_failure playlist_url w e w1 t1 :
  fetch_step playlist_url w = (inr (inl e), w1, t1) ->
  exists m, e = Exception_ ("Failed to fetch playlist: " ++ m)%string.
Proof.
  unfold fetch_step. intros H.
  destruct (get_playlist_title_run playlist_url w) as (pt & w2 & Ht).
  unfold try_except at 1 in H. rewrite (bind_returns _ _ _ _ _ _ Ht) in H.
  rewrite bind_run in H.
  pose proof (proj1 (get_playlist_videos_errors playlist_url w2)) as Herr.
  destruct (PlaylistFetcher.get_playlist_videos playlist_url w2)
    as [[[e' | videos] w3] t3]; cbn in H.
  - injection H as <- _ _. apply Herr. reflexivity.
  - discriminate.
Qed.

(** X11: when the playlist cannot be fetched, both orchestrators return at
    once a report with the flag unset, all counters at zero and a single
    error; the trace is empty, so nothing is resolved; and the text of the
    error carries the prefix "Failed to fetch playlist: " twice, once from
    [get_playlist_videos] and once from [process_playlist]. *)
Theorem fetch_failure_is_reported sched yield playlist_url output_path
    w e w1 t1 :
  fetch_step playlist_url w = (inr (inl e), w1, t1) ->
  Orchestrator.process_playlist quality delay max_retries
    playlist_url output_path w = (inr (fetch_failure_report e), w1, []) /\
  OrchestratorAsync.process_playlist quality max_retries max_workers
    sched yield playlist_url output_path w
  = (inr (fetch_failure_report e), w1, []) /\
  exists m,
    errors (fetch_failure_report e)
    = [("Failed to fetch playlist: Failed to fetch playlist: " ++ m)%string].
Proof.
  intros Hfetch.
  assert (Ht : t1 = []).
  { destruct (fetch_step_run playlist_url w) as (x & w2 & Hx).
    rewrite Hx in Hfetch. now injection Hfetch as _ _ <-. }
  subst t1. split; [| split].
  - unfold Orchestrator.process_playlist.
    rewrite (bind_returns _ _ _ _ _ _ Hfetch). reflexivity.
  - unfold OrchestratorAsync.process_playlist.
    rewrite (bind_returns _ _ _ _ _ _ Hfetch). reflexivity.
  - destruct (fetch_step_failure _ _ _ _ _ Hfetch) as [m ->].
    exists m. reflexivity.
Qed.



End EarlyEnds.

(** Witness for X11: a playlist that yt-dlp cannot open. *)
Lemma fetch_failure_is_reported_witness :
  @fetch_step unreachable_playlist demo_url []
  = (inr (inl (Exception_
                 "Failed to fetch playlist: HTTP Error 404: Not Found")),
     [], []) /\
  @Orchestrator.process_playlist unreachable_playlist "best" (3 # 2)%Q 3
    demo_url None []
  = (inr {| success := false; output_file := None; total_videos := 0;
            successful := 0; failed := 0;
            errors := ["Failed to fetch playlist: Failed to fetch playlist: HTTP Error 404: Not Found"] |},
     [], []).
Proof.
  split; [reflexivity |].
  exact (proj1 (@fetch_failure_is_reported unreachable_playlist "best"
                  (3 # 2)%Q 3 4 (fun k => k) [] demo_url None [] _ [] []
                  eq_refl)).
Defined.



(** ** The shape of every report, and the exit status *)

Section ReportShape.
Context {R : Runtime}.
Variables (quality : string) (delay : Q) (max_retries max_workers : Z).



End ReportShape.

Section MainFacts.
Context {R : Runtime}.

Lemma validate_exit_code a code :
  snd (PlaylistGrabber.validate a) = inl code -> code = 1.
Proof.
  unfold PlaylistGrabber.validate.
  destruct (negb (String.prefix "http" (PlaylistGrabber.playlist_url a)));
    [now intros [= <-] |].
  destruct (negb (PyStr.contains "list=" (PlaylistGrabber.playlist_url a)));
    [now intros [= <-] |].
  destruct (negb (Qle_bool (1 # 2) (PlaylistGrabber.delay a)));
    cbn [PlaylistGrabber.workers PlaylistGrabber.set_delay];
    (destruct (PlaylistGrabber.workers a <? 1); [now intros [= <-] |];
     destruct (PlaylistGrabber.workers a >? 20); discriminate).
Qed.

(** X15: once the arguments are parsed, [main] always ends with exit
    status 0 or 1, also when the run raises an [Exception] (a keyboard
    interrupt, which is none, is not modelled); the status is 0 exactly when
    the arguments pass the checks and the run returns a report whose flag is
    set. *)
Theorem main_exit_status sched yield a w :
  exists code,
    outcome (PlaylistGrabber.main sched yield a w) = inr code /\
    (code = 0 \/ code = 1) /\
    (code = 0 <->
     exists a' r,
       snd (PlaylistGrabber.validate a) = inr a' /\
       outcome (PlaylistGrabber.run sched yield a' w) = inr r /\
       success r = true).
Proof.
  unfold PlaylistGrabber.main.
  destruct (snd (PlaylistGrabber.validate a)) as [code | a'] eqn:Ev.
  - apply validate_exit_code in Ev as ->.
    exists 1. split; [reflexivity |]. split; [right; reflexivity |].
    split; [discriminate |]. intros (a' & r & Ha & _). discriminate.
  - unfold try_except, bind.
    destruct (PlaylistGrabber.run sched yield a' w) as [[[e | r] w1] t1] eqn:Er.
    + exists 1. split; [reflexivity |]. split; [right; reflexivity |].
      split; [discriminate |]. intros (a2 & r & Ha & Hr & _).
      injection Ha as <-. rewrite Er in Hr. discriminate.
    + destruct (success r) eqn:Es.
      * exists 0. split; [reflexivity |]. split; [left; reflexivity |].
        split; [| reflexivity]. intros _. exists a', r.
        rewrite Er. repeat split; assumption.
      * exists 1. split; [reflexivity |]. split; [right; reflexivity |].
        split; [discriminate |]. intros (a2 & r2 & Ha & Hr & Hs).
        injection Ha as <-. rewrite Er in Hr. injection Hr as <-. congruence.
Qed.

Lemma validate_accepts a a' :
  snd (PlaylistGrabber.validate a) = inr a' ->
  String.prefix "http" (PlaylistGrabber.playlist_url a) = true /\
  PyStr.contains "list=" (PlaylistGrabber.playlist_url a) = true /\
  PlaylistGrabber.playlist_url a' = PlaylistGrabber.playlist_url a /\
  PlaylistGrabber.output_file a' = PlaylistGrabber.output_file a /\
  PlaylistGrabber.quality a' = PlaylistGrabber.quality a /\
  PlaylistGrabber.retries a' = PlaylistGrabber.retries a /\
  PlaylistGrabber.use_async a' = PlaylistGrabber.use_async a /\
  Qle_bool (1 # 2) (PlaylistGrabber.delay a') = true /\
  (Qle_bool (1 # 2) (PlaylistGrabber.delay a) = true ->
   PlaylistGrabber.delay a' = PlaylistGrabber.delay a) /\
  (Qle_bool (1 # 2) (PlaylistGrabber.delay a) = false ->
   PlaylistGrabber.delay a' = (1 # 2)%Q /\
   In "Warning: Delay less than 0.5s may trigger rate limiting"
      (fst (PlaylistGrabber.validate a))).
Proof.
  unfold PlaylistGrabber.validate.
  destruct (String.prefix "http" (PlaylistGrabber.playlist_url a));
    cbn [negb]; [| discriminate].
  destruct (PyStr.contains "list=" (PlaylistGrabber.playlist_url a));
    cbn [negb]; [| discriminate].
  destruct (Qle_bool (1 # 2) (PlaylistGrabber.delay a)) eqn:Ed; cbn [negb];
    cbn [PlaylistGrabber.workers PlaylistGrabber.set_delay];
    (destruct (PlaylistGrabber.workers a <? 1); [discriminate |];
     destruct (PlaylistGrabber.workers a >? 20);
     cbn [snd fst]; intros [= <-]; cbn;
     repeat split; try reflexivity; try assumption; try discriminate;
     try (intros _; tauto); try tauto).
Qed.

(** X16: when the arguments pass the checks of [main], the playlist URL
    starts with "http" and contains "list="; the run is started with the
    same URL, output file, quality, retries and mode.  The delay check is
    the test [delay < 0.5] of the source: a delay for which it holds is
    replaced by 0.5 and the warning line is printed, any other delay is
    passed on as it is; so for the delay the run is started with, the test
    is false. *)
Theorem validated_arguments a a' :
  snd (PlaylistGrabber.validate a) = inr a' ->
  String.prefix "http" (PlaylistGrabber.playlist_url a) = true /\
  PyStr.contains "list=" (PlaylistGrabber.playlist_url a) = true /\
  PlaylistGrabber.playlist_url a' = PlaylistGrabber.playlist_url a /\
  PlaylistGrabber.output_file a' = PlaylistGrabber.output_file a /\
  PlaylistGrabber.quality a' = PlaylistGrabber.quality a /\
  PlaylistGrabber.retries a' = PlaylistGrabber.retries a /\
  PlaylistGrabber.use_async a' = PlaylistGrabber.use_async a /\
  ~ (PlaylistGrabber.delay a' < 1 # 2)%Q /\
  (~ (PlaylistGrabber.delay a < 1 # 2)%Q ->
   PlaylistGrabber.delay a' = PlaylistGrabber.delay a) /\
  ((PlaylistGrabber.delay a < 1 # 2)%Q ->
   PlaylistGrabber.delay a' = (1 # 2)%Q /\
   In "Warning: Delay less than 0.5s may trigger rate limiting"
      (fst (PlaylistGrabber.validate a))).
Proof.
  intros H.
  destruct (validate_accepts a a' H)
    as (H1 & H2 & H3 & H4 & H5 & H6 & H7 & H8 & H9 & H10).
  repeat (split; [assumption |]).
  split; [| split].
  - apply Qle_not_lt. now apply Qle_bool_iff.
  - intros Hge. apply H9. apply Qle_bool_iff. now apply Qnot_lt_le.
  - intros Hlt. apply H10.
    destruct (Qle_bool (1 # 2) (PlaylistGrabber.delay a)) eqn:Ed;
      [| reflexivity].
    apply Qle_bool_iff in Ed. exfalso. exact (Qle_not_lt _ _ Ed Hlt).
Qed.

End MainFacts.

Lemma validated_arguments_witness :
  snd (PlaylistGrabber.validate hasty_args)
  = inr (PlaylistGrabber.set_delay hasty_args (1 # 2)%Q) /\
  (PlaylistGrabber.delay hasty_args < 1 # 2)%Q /\
  PlaylistGrabber.delay
    (PlaylistGrabber.set_delay hasty_args (1 # 2)%Q) = (1 # 2)%Q /\
  In "Warning: Delay less than 0.5s may trigger rate limiting"
     (fst (PlaylistGrabber.validate hasty_args)).
Proof.
  assert (Hv : snd (PlaylistGrabber.validate hasty_args)
               = inr (PlaylistGrabber.set_delay hasty_args (1 # 2)%Q))
    by reflexivity.
  assert (Hlt : (PlaylistGrabber.delay hasty_args < 1 # 2)%Q)
    by reflexivity.
  split; [exact Hv |]. split; [exact Hlt |].
  exact (proj2 (proj2 (proj2 (proj2 (proj2 (proj2 (proj2 (proj2 (proj2
    (validated_arguments hasty_args
       (PlaylistGrabber.set_delay hasty_args (1 # 2)%Q) Hv))))))))) Hlt).
Defined.

(** ** Pauses and invocations of a whole run *)

Section RunTraces.
Context {R : Runtime}.
Variables (quality : string) (delay : Q) (max_retries max_workers : Z).

Lemma for_videos_trace videos : forall k st w st' w' t,
  Orchestrator.for_videos quality delay max_retries (k + len videos - 1)
    (enumerate k videos) st w = (inr st', w', t) ->
  t = joined (Sleep delay)
        (video_traces quality delay max_retries videos w).
Proof.
  induction videos as [| v rest IH]; intros k st w st' w' t H.
  - cbn in H. now injection H as _ _ <-.
  - cbn [enumerate Orchestrator.for_videos] in H.
    apply bind_inr_inv in H as (r & w1 & t1 & t2 & Hr & H & ->).
    apply bind_inr_inv in H as (st1 & w2 & t3 & t4 & Hrec & H & ->).
    apply record_run in Hrec as (-> & -> & _).
    apply bind_inr_inv in H as (u & w3 & t5 & t6 & Hs & H & ->).
    cbn [video_traces]. unfold seq_retry_run at 1 2. rewrite Hr.
    cbn [trace world_of fst snd].
    destruct rest as [| v2 rest'].
    + assert (E : (k <? k + len [v] - 1) = false)
        by (apply Z.ltb_ge; unfold len; cbn [List.length]; lia).
      rewrite E in Hs. cbn in Hs. injection Hs as _ <- <-.
      cbn in H. injection H as _ _ <-.
      cbn [video_traces joined app]. now rewrite app_nil_r.
    + assert (E : (k <? k + len (v :: v2 :: rest') - 1) = true)
        by (apply Z.ltb_lt; unfold len; cbn [List.length]; lia).
      rewrite E in Hs. cbn in Hs. injection Hs as _ <- <-.
      replace (k + len (v :: v2 :: rest') - 1)
        with (k + 1 + len (v2 :: rest') - 1) in H
        by (unfold len; cbn [List.length]; lia).
      apply IH in H. subst t6.
      cbn [video_traces joined app]. reflexivity.
Qed.

Lemma video_traces_blocks videos : forall w,
  Forall2
    (fun v b =>
       exists n, (n <= Z.to_nat max_retries)%nat /\
         b = alternating (Resolve (id v) quality)
               (Sleep (delay * (1 # 2))%Q) n)
    videos (video_traces quality delay max_retries videos w).
Proof.
  induction videos as [| v rest IH]; intros w; cbn [video_traces];
    constructor; [| apply IH].
  unfold seq_retry_run. rewrite retry_seq_eq, retry_with_range.
  cbn [trace snd]. eexists. split; [| reflexivity].
  pose proof (upto_success_length
                (answers (id v) quality (Z.to_nat max_retries) w)) as Hle.
  now rewrite answers_length in Hle.
Qed.

(** X17: rate limiting in the sequential orchestrator.  When step 2
    returns, its trace is the traces of the retry loops of the videos, in
    playlist order, with exactly one pause of [delay] seconds between the
    loops of consecutive videos and none after the last video; and the loop
    of a video is at most [max_retries] invocations of the resolver for that
    video, separated by pauses of [delay * 0.5]. *)
Theorem pause_between_videos videos result w st :
  outcome (Orchestrator.resolve_step quality delay max_retries videos
             result w) = inr st ->
  trace (Orchestrator.resolve_step quality delay max_retries videos
           result w)
  = joined (Sleep delay) (video_traces quality delay max_retries videos w) /\
  Forall2
    (fun v b =>
       exists n, (n <= Z.to_nat max_retries)%nat /\
         b = alternating (Resolve (id v) quality)
               (Sleep (delay * (1 # 2))%Q) n)
    videos (video_traces quality delay max_retries videos w).
Proof.
  intros H. split; [| apply video_traces_blocks].
  unfold Orchestrator.resolve_step in *.
  destruct (Orchestrator.for_videos quality delay max_retries (len videos)
              (enumerate 1 videos)
              {| video_data := []; failed_videos := []; report := result |} w)
    as [[r w'] t] eqn:E.
  cbn in H. subst r. cbn [trace snd].
  replace (len videos) with (1 + len videos - 1) in E by lia.
  exact (for_videos_trace _ _ _ _ _ _ _ E).
Qed.

End RunTraces.

Lemma pause_between_videos_witness :
  trace (@Orchestrator.resolve_step two_videos_fixed "best" (3 # 2)%Q 2
           two_video_list initial_result tt)
  = [Resolve "a" "best"; Sleep (3 # 2)%Q;
     Resolve "b" "best"; Sleep ((3 # 2) * (1 # 2))%Q; Resolve "b" "best"].
Proof.
  refine (eq_trans
    (proj1 (@pause_between_videos two_videos_fixed "best" (3 # 2)%Q 2
              two_video_list initial_result tt _ _)) _);
    vm_compute; reflexivity.
Defined.

Section CallBudget.
Context {R : Runtime}.
Variables (quality : string) (delay : Q) (max_retries max_workers : Z).

Local Abbreviation task_step :=
  (OrchestratorAsync.task_step quality max_retries).
Local Abbreviation pool_step :=
  (OrchestratorAsync.pool_step quality max_retries max_workers).
Local Abbreviation run_pool :=
  (OrchestratorAsync.run_pool quality max_retries max_workers).

Lemma calls_app t1 t2 : calls (t1 ++ t2) = (calls t1 + calls t2)%nat.
Proof.
  induction t1 as [| [v q | d] t1 IH]; cbn [app calls]; [reflexivity | |];
    rewrite IH; reflexivity.
Qed.

(** The invocations of a sequence are those of its first part and, when
    that returns, those of what follows. *)
Lemma calls_bind_le {A B} (c : M A) (k : A -> M B) w n1 n2 :
  (calls (trace (c w)) <= n1)%nat ->
  (forall a w1, calls (trace (k a w1)) <= n2)%nat ->
  (calls (trace (bind c k w)) <= n1 + n2)%nat.
Proof.
  intros H1 H2. rewrite bind_run.
  destruct (c w) as [[[e | a] w1] t1]; cbn [trace snd] in *; [lia |].
  rewrite calls_app. specialize (H2 a w1). lia.
Qed.

Lemma record_trace video_title r st w :
  trace (Orchestrator.record video_title r st w) = [].
Proof.
  unfold Orchestrator.record. destruct r as [direct_url format_info].
  destruct (PyStr.truthy_opt direct_url); [| reflexivity].
  destruct format_info as [fi |]; [| reflexivity].
  unfold bind, lift_result.
  destruct (UrlResolver.format_filesize (filesize fi)); reflexivity.
Qed.

Lemma retry_with_calls pause video_id current w :
  (calls (trace (retry_with quality max_retries pause video_id
                   (range max_retries) current w))
   <= Z.to_nat max_retries)%nat.
Proof.
  rewrite retry_with_range. cbn [trace snd]. rewrite calls_alternating'.
  pose proof (upto_success_length
                (answers video_id quality (Z.to_nat max_retries) w)) as Hle.
  now rewrite answers_length in Hle.
Qed.

Lemma for_videos_calls total items : forall st w,
  (calls (trace (Orchestrator.for_videos quality delay max_retries total
                   items st w))
   <= List.length items * Z.to_nat max_retries)%nat.
Proof.
  induction items as [| [idx video] rest IH]; intros st w;
    [cbn; lia |].
  cbn [Orchestrator.for_videos List.length].
  replace (S (List.length rest) * Z.to_nat max_retries)%nat
    with (Z.to_nat max_retries
          + (0 + (0 + List.length rest * Z.to_nat max_retries)))%nat by lia.
  apply calls_bind_le.
  - rewrite retry_seq_eq. apply retry_with_calls.
  - intros r w1. apply calls_bind_le.
    + now rewrite record_trace.
    + intros st1 w2. apply calls_bind_le; [| intros _ w3; apply IH].
      destruct (idx <? total); cbn; lia.
Qed.

Lemma enumerate_len {A} (xs : list A) : forall start,
  List.length (enumerate start xs) = List.length xs.
Proof.
  induction xs as [| x xs IH]; intros start; [reflexivity |].
  cbn [enumerate List.length]. now rewrite IH.
Qed.

(** A step of a worker makes at most the invocations the worker gives up. *)
Lemma task_step_calls t w :
  match task_step t w with
  | (inr (inl t'), _, tr) => (calls tr + task_calls t' <= task_calls t)%nat
  | (_, _, tr) => calls tr = O
  end.
Proof.
  unfold OrchestratorAsync.task_step, task_calls.
  destruct (t_pc t) as [[| a rest] cur | a rest].
  - unfold bind, OrchestratorAsync.finish. destruct cur as [u fi].
    destruct (PyStr.truthy_opt u); [| reflexivity].
    destruct fi as [fi |]; [| reflexivity].
    unfold bind, lift_result.
    destruct (UrlResolver.format_filesize (filesize fi)); reflexivity.
  - cbn. lia.
  - rewrite (bind_returns _ _ _ _ _ _
               (get_direct_url_run (id (t_video t)) quality w)).
    destruct (PyStr.truthy_opt (fst (answer (id (t_video t)) quality w))).
    + cbn. lia.
    + destruct (a <? max_retries - 1); cbn; lia.
Qed.

Lemma pool_step_calls a p w p' w' tr :
  pool_step a p w = (inr p', w', tr) ->
  (calls tr + pool_calls max_retries p' <= pool_calls max_retries p)%nat.
Proof.
  destruct a as [| i].
  - unfold OrchestratorAsync.pool_step.
    destruct (queue p) as [| v rest] eqn:Eq;
      [intros [= <- <- <-]; cbn; lia |].
    destruct (len (active p) <? max_workers);
      [| intros [= <- <- <-]; cbn; lia].
    intros [= <- <- <-]. unfold pool_calls. cbn [queue active calls].
    rewrite Eq, map_app, list_sum_app. cbn [map list_sum List.length].
    unfold task_calls at 2. cbn [OrchestratorAsync.start t_pc].
    unfold range. rewrite length_map, length_seq.
    cbn [list_sum fold_right]. lia.
  - destruct (nth_error (active p) i) as [t |] eqn:Et.
    + pose proof (pool_step_advance quality max_retries max_workers
                    i t p w Et) as Hstep.
      pose proof (task_step_calls t w) as Hc.
      destruct (task_step t w) as [[[e | [t' | res]] w1] tr1];
        rewrite Hstep; intros [= <- <- <-];
        unfold pool_calls; cbn [queue active].
      * pose proof (remove_nth_sum task_calls _ _ _ Et). lia.
      * pose proof (replace_nth_sum task_calls _ _ _ t' Et). lia.
      * pose proof (remove_nth_sum task_calls _ _ _ Et). lia.
    + unfold OrchestratorAsync.pool_step. rewrite Et.
      intros [= <- <- <-]. cbn. lia.
Qed.

Lemma run_pool_calls sched n : forall k p w,
  (calls (trace (run_pool sched n k p w)) <= pool_calls max_retries p)%nat.
Proof.
  induction n as [| n IH]; intros k p w; [cbn; lia |].
  cbn [OrchestratorAsync.run_pool].
  destruct (OrchestratorAsync.choose max_workers (sched k) p) as [a |] eqn:Ec;
    [| cbn; lia].
  destruct (pool_step_progress quality max_retries max_workers _ _ p w Ec)
    as (p1 & w1 & t1 & Hstep & _).
  rewrite (bind_returns _ _ _ _ _ _ Hstep). cbn [trace snd].
  rewrite calls_app.
  pose proof (pool_step_calls _ _ _ _ _ _ Hstep).
  specialize (IH (S k) p1 w1). lia.
Qed.

Lemma aggregate_trace futures : forall st w,
  trace (OrchestratorAsync.aggregate futures st w) = [].
Proof.
  induction futures as [| [e | res] rest IH]; intros st w;
    [reflexivity | reflexivity |].
  cbn [OrchestratorAsync.aggregate lift_result].
  rewrite (bind_returns (ret res) _ w res w [] eq_refl).
  cbn [trace snd app]. apply IH.
Qed.

Lemma seq_resolve_step_calls videos result w :
  (calls (trace (Orchestrator.resolve_step quality delay max_retries videos
                   result w))
   <= List.length videos * Z.to_nat max_retries)%nat.
Proof.
  unfold Orchestrator.resolve_step.
  rewrite <- (enumerate_len videos 1). apply for_videos_calls.
Qed.

Lemma async_resolve_step_calls sched yield videos result w :
  (calls (trace (OrchestratorAsync.resolve_step quality max_retries
                   max_workers sched yield videos result w))
   <= List.length videos * Z.to_nat max_retries)%nat.
Proof.
  unfold OrchestratorAsync.resolve_step.
  change (List.length videos * Z.to_nat max_retries)%nat
    with (0 + List.length videos * Z.to_nat max_retries)%nat.
  apply calls_bind_le.
  - destruct (max_workers <=? 0); cbn; lia.
  - intros _ w1.
    replace (List.length videos * Z.to_nat max_retries)%nat
      with (List.length videos * Z.to_nat max_retries + 0)%nat by lia.
    apply calls_bind_le.
    + etransitivity; [apply run_pool_calls |].
      unfold pool_calls. cbn. lia.
    + intros p w2. now rewrite aggregate_trace.
Qed.

Lemma calls_for_app video_id t1 t2 :
  calls_for video_id (t1 ++ t2)
  = (calls_for video_id t1 + calls_for video_id t2)%nat.
Proof.
  induction t1 as [| [v q | d] t1 IH]; cbn [app calls_for];
    [reflexivity | | exact IH].
  destruct (String.eqb v video_id); rewrite IH; reflexivity.
Qed.

Lemma calls_for_bind_le {A B} video_id (c : M A) (k : A -> M B) w n1 n2 :
  (calls_for video_id (trace (c w)) <= n1)%nat ->
  (forall a w1, calls_for video_id (trace (k a w1)) <= n2)%nat ->
  (calls_for video_id (trace (bind c k w)) <= n1 + n2)%nat.
Proof.
  intros H1 H2. rewrite bind_run.
  destruct (c w) as [[[e | a] w1] t1]; cbn [trace snd] in *; [lia |].
  rewrite calls_for_app. specialize (H2 a w1). lia.
Qed.

Lemma calls_for_alternating video_id v q d n :
  calls_for video_id (alternating (Resolve v q) (Sleep d) n)
  = if String.eqb v video_id then n else O.
Proof.
  induction n as [| n IH]; [now destruct (String.eqb v video_id) |].
  destruct n as [| n].
  - cbn. now destruct (String.eqb v video_id).
  - change (alternating (Resolve v q) (Sleep d) (S (S n)))
      with (Resolve v q :: Sleep d
              :: alternating (Resolve v q) (Sleep d) (S n)).
    cbn [calls_for]. rewrite IH. now destruct (String.eqb v video_id).
Qed.

Lemma retry_with_calls_for video_id pause v current w :
  (calls_for video_id
     (trace (retry_with quality max_retries pause v
               (range max_retries) current w))
   <= if String.eqb v video_id then Z.to_nat max_retries else O)%nat.
Proof.
  rewrite retry_with_range. cbn [trace snd]. rewrite calls_for_alternating.
  destruct (String.eqb v video_id); [| lia].
  pose proof (upto_success_length
                (answers v quality (Z.to_nat max_retries) w)) as Hle.
  now rewrite answers_length in Hle.
Qed.

Lemma for_videos_calls_for video_id total items : forall st w,
  (calls_for video_id
     (trace (Orchestrator.for_videos quality delay max_retries total
               items st w))
   <= copies video_id (map snd items) * Z.to_nat max_retries)%nat.
Proof.
  induction items as [| [idx video] rest IH]; intros st w;
    [cbn; lia |].
  cbn [Orchestrator.for_videos map snd].
  assert (Hn : (copies video_id (video :: map snd rest)
                * Z.to_nat max_retries
                = (if String.eqb (id video) video_id
                   then Z.to_nat max_retries else O)
                  + (0 + (0 + copies video_id (map snd rest)
                              * Z.to_nat max_retries)))%nat).
  { unfold copies. cbn [filter].
    destruct (String.eqb (id video) video_id); cbn [List.length]; lia. }
  rewrite Hn. apply calls_for_bind_le.
  - rewrite retry_seq_eq. apply retry_with_calls_for.
  - intros r w1. apply calls_for_bind_le.
    + now rewrite record_trace.
    + intros st1 w2. apply calls_for_bind_le; [| intros _ w3; apply IH].
      destruct (idx <? total); cbn; lia.
Qed.

Lemma task_step_calls_for video_id t w :
  match task_step t w with
  | (inr (inl t'), _, tr) =>
      (calls_for video_id tr + task_calls_for video_id t'
       <= task_calls_for video_id t)%nat
  | (_, _, tr) => calls_for video_id tr = O
  end.
Proof.
  unfold OrchestratorAsync.task_step, task_calls_for, task_calls.
  destruct (t_pc t) as [[| a rest] cur | a rest].
  - unfold bind, OrchestratorAsync.finish. destruct cur as [u fi].
    destruct (PyStr.truthy_opt u); [| reflexivity].
    destruct fi as [fi |]; [| reflexivity].
    unfold bind, lift_result.
    destruct (UrlResolver.format_filesize (filesize fi)); reflexivity.
  - cbn. destruct (String.eqb (id (t_video t)) video_id); lia.
  - rewrite (bind_returns _ _ _ _ _ _
               (get_direct_url_run (id (t_video t)) quality w)).
    destruct (PyStr.truthy_opt (fst (answer (id (t_video t)) quality w))).
    + cbn. destruct (String.eqb (id (t_video t)) video_id); cbn; lia.
    + destruct (a <? max_retries - 1); cbn;
        destruct (String.eqb (id (t_video t)) video_id); cbn; lia.
Qed.

Lemma pool_step_calls_for video_id a p w p' w' tr :
  pool_step a p w = (inr p', w', tr) ->
  (calls_for video_id tr + pool_calls_for video_id max_retries p'
   <= pool_calls_for video_id max_retries p)%nat.
Proof.
  destruct a as [| i].
  - unfold OrchestratorAsync.pool_step.
    destruct (queue p) as [| v rest] eqn:Eq;
      [intros [= <- <- <-]; cbn; lia |].
    destruct (len (active p) <? max_workers);
      [| intros [= <- <- <-]; cbn; lia].
    intros [= <- <- <-]. unfold pool_calls_for. cbn [queue active calls_for].
    rewrite Eq, map_app, list_sum_app. cbn [map list_sum].
    unfold task_calls_for at 2, task_calls, copies.
    cbn [OrchestratorAsync.start t_pc t_video filter].
    unfold range. rewrite length_map, length_seq.
    destruct (String.eqb (id v) video_id);
      cbn [List.length list_sum fold_right]; lia.
  - destruct (nth_error (active p) i) as [t |] eqn:Et.
    + pose proof (pool_step_advance quality max_retries max_workers
                    i t p w Et) as Hstep.
      pose proof (task_step_calls_for video_id t w) as Hc.
      destruct (task_step t w) as [[[e | [t' | res]] w1] tr1];
        rewrite Hstep; intros [= <- <- <-];
        unfold pool_calls_for; cbn [queue active].
      * pose proof (remove_nth_sum (task_calls_for video_id) _ _ _ Et). lia.
      * pose proof (replace_nth_sum (task_calls_for video_id) _ _ _ t' Et).
        lia.
      * pose proof (remove_nth_sum (task_calls_for video_id) _ _ _ Et). lia.
    + unfold OrchestratorAsync.pool_step. rewrite Et.
      intros [= <- <- <-]. cbn. lia.
Qed.

Lemma run_pool_calls_for video_id sched n : forall k p w,
  (calls_for video_id (trace (run_pool sched n k p w))
   <= pool_calls_for video_id max_retries p)%nat.
Proof.
  induction n as [| n IH]; intros k p w; [cbn; lia |].
  cbn [OrchestratorAsync.run_pool].
  destruct (OrchestratorAsync.choose max_workers (sched k) p) as [a |] eqn:Ec;
    [| cbn; lia].
  destruct (pool_step_progress quality max_retries max_workers _ _ p w Ec)
    as (p1 & w1 & t1 & Hstep & _).
  rewrite (bind_returns _ _ _ _ _ _ Hstep). cbn [trace snd].
  rewrite calls_for_app.
  pose proof (pool_step_calls_for video_id _ _ _ _ _ _ Hstep).
  specialize (IH (S k) p1 w1). lia.
Qed.

Lemma seq_resolve_step_calls_for video_id videos result w :
  (calls_for video_id
     (trace (Orchestrator.resolve_step quality delay max_retries videos
               result w))
   <= copies video_id videos * Z.to_nat max_retries)%nat.
Proof.
  unfold Orchestrator.resolve_step.
  pose proof (for_videos_calls_for video_id (len videos)
                (enumerate 1 videos)
                {| video_data := []; failed_videos := []; report := result |}
                w) as H.
  now rewrite map_snd_enumerate in H.
Qed.

Lemma async_resolve_step_calls_for video_id sched yield videos result w :
  (calls_for video_id
     (trace (OrchestratorAsync.resolve_step quality max_retries
               max_workers sched yield videos result w))
   <= copies video_id videos * Z.to_nat max_retries)%nat.
Proof.
  unfold OrchestratorAsync.resolve_step.
  change (copies video_id videos * Z.to_nat max_retries)%nat
    with (0 + copies video_id videos * Z.to_nat max_retries)%nat.
  apply calls_for_bind_le.
  - destruct (max_workers <=? 0); cbn; lia.
  - intros _ w1.
    replace (copies video_id videos * Z.to_nat max_retries)%nat
      with (copies video_id videos * Z.to_nat max_retries + 0)%nat by lia.
    apply calls_for_bind_le.
    + etransitivity; [apply run_pool_calls_for |].
      unfold pool_calls_for.
      cbn [OrchestratorAsync.submit_all queue active map].
      unfold list_sum. cbn [fold_right]. lia.
    + intros p w2. now rewrite aggregate_trace.
Qed.

(** X18: the budget of resolver invocations.  Whatever the resolver
    answers, whatever the schedule of the pool and whether or not the step
    ends by an exception, step 2 of either orchestrator invokes
    [get_direct_url] for a video at most [max_retries] times (not at all
    for [max_retries <= 0]): the invocations for a video id are at most
    [max_retries] times the number of videos of the playlist with that id,
    and all invocations together at most [max_retries] times the number of
    videos.  A run of [process_playlist] that returns a report has made at
    most [total_videos * max_retries] invocations. *)
Theorem resolver_call_budget sched yield :
  (forall video_id videos result w,
      (calls_for video_id
         (trace (Orchestrator.resolve_step quality delay max_retries
                   videos result w))
       <= copies video_id videos * Z.to_nat max_retries)%nat /\
      (calls_for video_id
         (trace (OrchestratorAsync.resolve_step quality max_retries
                   max_workers sched yield videos result w))
       <= copies video_id videos * Z.to_nat max_retries)%nat) /\
  (forall videos result w,
      (calls (trace (Orchestrator.resolve_step quality delay max_retries
                       videos result w))
       <= List.length videos * Z.to_nat max_retries)%nat /\
      (calls (trace (OrchestratorAsync.resolve_step quality max_retries
                       max_workers sched yield videos result w))
       <= List.length videos * Z.to_nat max_retries)%nat) /\
  (forall playlist_url output_path w r,
      outcome (Orchestrator.process_playlist quality delay max_retries
                 playlist_url output_path w) = inr r ->
      Z.of_nat (calls (trace (Orchestrator.process_playlist quality delay
                                max_retries playlist_url output_path w)))
      <= total_videos r * Z.max 0 max_retries) /\
  (forall playlist_url output_path w r,
      outcome (OrchestratorAsync.process_playlist quality max_retries
                 max_workers sched yield playlist_url output_path w) = inr r ->
      Z.of_nat (calls (trace (OrchestratorAsync.process_playlist quality
                                max_retries max_workers sched yield
                                playlist_url output_path w)))
      <= total_videos r * Z.max 0 max_retries).
Proof.
  split; [intros video_id videos result w; split;
          [apply seq_resolve_step_calls_for
          | apply async_resolve_step_calls_for] |].
  split; [intros videos result w; split;
          [apply seq_resolve_step_calls | apply async_resolve_step_calls] |].
  split; intros playlist_url output_path w r Hrun;
    destruct (fetch_step_run playlist_url w) as (x & w1 & Hx).
  - unfold Orchestrator.process_playlist in *.
    rewrite (bind_returns _ _ _ _ _ _ Hx) in *.
    destruct x as [e | [pt [| v vs]]].
    + cbn in Hrun. injection Hrun as <-. cbn. lia.
    + cbn in Hrun. injection Hrun as <-. cbn. lia.
    + cbn [outcome trace fst snd app] in *.
      pose proof (seq_resolve_step_calls (v :: vs)
                    (set_total_videos initial_result (len (v :: vs))) w1)
        as Hcalls.
      destruct (Orchestrator.resolve_step quality delay max_retries (v :: vs)
                  (set_total_videos initial_result (len (v :: vs))) w1)
        as [[[e | st] w2] t2] eqn:Eres;
        [rewrite (bind_raises _ _ _ _ _ _ Eres) in Hrun; discriminate |].
      rewrite (bind_returns _ _ _ _ _ _ Eres) in *.
      cbn [outcome trace fst snd] in *.
      apply seq_resolve_step_accounted in Eres.
      destruct (write_step pt output_path st w2) as [[r0 w3] t3] eqn:Ew.
      cbn in Hrun. subst r0.
      apply write_step_run in Ew as (-> & Htot & _).
      destruct Eres as (_ & _ & _ & _ & Hn & _).
      rewrite app_nil_r, Htot, Hn. unfold len in *. nia.
  - unfold OrchestratorAsync.process_playlist in *.
    rewrite (bind_returns _ _ _ _ _ _ Hx) in *.
    destruct x as [e | [pt [| v vs]]].
    + cbn in Hrun. injection Hrun as <-. cbn. lia.
    + cbn in Hrun. injection Hrun as <-. cbn. lia.
    + cbn [outcome trace fst snd app] in *.
      pose proof (async_resolve_step_calls sched yield (v :: vs)
                    (set_total_videos initial_result (len (v :: vs))) w1)
        as Hcalls.
      destruct (OrchestratorAsync.resolve_step quality max_retries
                  max_workers sched yield (v :: vs)
                  (set_total_videos initial_result (len (v :: vs))) w1)
        as [[[e | st] w2] t2] eqn:Eres;
        [rewrite (bind_raises _ _ _ _ _ _ Eres) in Hrun; discriminate |].
      rewrite (bind_returns _ _ _ _ _ _ Eres) in *.
      cbn [outcome trace fst snd] in *.
      apply async_resolve_step_accounted in Eres as [Eres _].
      destruct (write_step pt output_path st w2) as [[r0 w3] t3] eqn:Ew.
      cbn in Hrun. subst r0.
      apply write_step_run in Ew as (-> & Htot & _).
      destruct Eres as (_ & _ & _ & _ & Hn & _).
      rewrite app_nil_r, Htot, Hn. unfold len in *. nia.
Qed.

End CallBudget.

(** ** No title is lost *)

Section TitlesKept.
Context {R : Runtime}.
Variables (quality : string) (delay : Q) (max_retries max_workers : Z).

Lemma recorded_titles_success st e :
  Permutation (recorded_titles (record_success st e))
              (recorded_titles st ++ [e_title e]).
Proof.
  unfold recorded_titles, record_success. cbn [video_data failed_videos].
  rewrite map_app, <- !app_assoc. apply Permutation_app_head.
  apply Permutation_app_comm.
Qed.

Lemma recorded_titles_failure st t :
  recorded_titles (record_failure st t) = recorded_titles st ++ [t].
Proof.
  unfold recorded_titles, record_failure. cbn [video_data failed_videos].
  now rewrite app_assoc.
Qed.

Lemma record_title video_title r st w st' w' t :
  Orchestrator.record video_title r st w = (inr st', w', t) ->
  Permutation (recorded_titles st') (recorded_titles st ++ [video_title]).
Proof.
  unfold Orchestrator.record. destruct r as [direct_url format_info].
  destruct (PyStr.truthy_opt direct_url).
  - destruct format_info as [fi |].
    + unfold bind, lift_result.
      destruct (UrlResolver.format_filesize (filesize fi)) as [e | s];
        [discriminate |].
      cbn. intros [= <- _ _]. apply recorded_titles_success.
    + cbn. intros [= <- _ _]. apply recorded_titles_success.
  - cbn. intros [= <- _ _]. now rewrite recorded_titles_failure.
Qed.

Lemma for_videos_titles total items : forall st w st' w' t,
  Orchestrator.for_videos quality delay max_retries total items st w
    = (inr st', w', t) ->
  Permutation (recorded_titles st')
    (recorded_titles st ++ map title (map snd items)).
Proof.
  induction items as [| [idx video] rest IH]; intros st w st' w' t H.
  - cbn in H. injection H as <- _ _. cbn. now rewrite app_nil_r.
  - cbn [Orchestrator.for_videos] in H.
    apply bind_inr_inv in H as (r & w1 & t1 & t2 & _ & H & _).
    apply bind_inr_inv in H as (st1 & w2 & t3 & t4 & Hrec & H & _).
    apply bind_inr_inv in H as (u & w3 & t5 & t6 & _ & H & _).
    apply record_title in Hrec. apply IH in H.
    rewrite H, Hrec. cbn [map snd]. now rewrite <- app_assoc.
Qed.

Lemma count_result_title st res :
  Permutation (recorded_titles (count_result st res))
              (recorded_titles st ++ [result_title res]).
Proof.
  destruct res as [vt u fi | vt]; cbn [count_result result_title].
  - apply (recorded_titles_success st
             {| e_title := vt; e_url := u; e_format_info := fi |}).
  - now rewrite recorded_titles_failure.
Qed.

Lemma tally_futures_titles pairs : forall st st',
  tally_futures (map snd pairs) st = inr st' ->
  Forall titled pairs ->
  Permutation (recorded_titles st')
    (recorded_titles st ++ map title (map fst pairs)).
Proof.
  induction pairs as [| [v f] rest IH]; intros st st' H Hall.
  - cbn in H. injection H as <-. cbn. now rewrite app_nil_r.
  - inversion Hall as [| x xs Hvf Hrest]; subst.
    cbn [map snd tally_futures] in H.
    destruct f as [e | res]; [discriminate |].
    apply IH in H; [| exact Hrest].
    rewrite H, count_result_title, (Hvf res eq_refl).
    cbn [map fst]. now rewrite <- app_assoc.
Qed.

Lemma task_step_title t w res w' tr :
  OrchestratorAsync.task_step quality max_retries t w
    = (inr (inr res), w', tr) ->
  result_title res = title (t_video t).
Proof.
  unfold OrchestratorAsync.task_step.
  destruct (t_pc t) as [[| a rest] cur | a rest].
  - rewrite bind_run, finish_run.
    unfold finish_future. destruct cur as [u fi].
    destruct (PyStr.truthy_opt u).
    + destruct fi as [fi |].
      * destruct (UrlResolver.format_filesize (filesize fi));
          [discriminate |].
        cbn. now intros [= <- _ _].
      * cbn. now intros [= <- _ _].
    + cbn. now intros [= <- _ _].
  - discriminate.
  - rewrite (bind_returns _ _ _ _ _ _
               (get_direct_url_run (id (t_video t)) quality w)).
    destruct (PyStr.truthy_opt (fst (answer (id (t_video t)) quality w)));
      [discriminate |].
    destruct (a <? max_retries - 1); discriminate.
Qed.

Lemma pool_step_titles_kept videos c a p w p' w' tr :
  titles_kept videos p ->
  OrchestratorAsync.choose max_workers c p = Some a ->
  OrchestratorAsync.pool_step quality max_retries max_workers a p w
    = (inr p', w', tr) ->
  titles_kept videos p'.
Proof.
  intros (pairs & Hdone & Hall & Hperm) Hc Hstep.
  apply choose_valid in Hc. destruct a as [| i].
  - unfold OrchestratorAsync.can_admit in Hc.
    unfold OrchestratorAsync.pool_step in Hstep.
    destruct (queue p) as [| v rest] eqn:Eq; [discriminate |].
    rewrite Hc in Hstep. injection Hstep as <- _ _.
    exists pairs. cbn [queue active completed].
    split; [exact Hdone | split; [exact Hall |]].
    rewrite Hperm, map_app. cbn [map OrchestratorAsync.start t_video].
    rewrite <- !app_assoc. reflexivity.
  - destruct (nth_error (active p) i) as [t |] eqn:Et;
      [| apply nth_error_None in Et; lia].
    pose proof (pool_step_advance quality max_retries max_workers i t p w Et)
      as Hadv.
    assert (Hfin : forall f, titled (t_video t, f) ->
      titles_kept videos
        {| queue := queue p; active := remove_nth i (active p);
           completed := completed p ++ [f] |}).
    { intros f Hf. exists (pairs ++ [(t_video t, f)]).
      cbn [queue active completed].
      split; [| split].
      - rewrite map_app, Hdone. reflexivity.
      - apply Forall_app. split; [exact Hall |].
        constructor; [exact Hf | constructor].
      - rewrite Hperm, map_app. cbn [map fst].
        rewrite <- !app_assoc. apply Permutation_app_head.
        cbn [app]. rewrite map_remove_nth.
        change (t_video t :: remove_nth i (map t_video (active p)) ++ queue p)
          with ((t_video t :: remove_nth i (map t_video (active p)))
                  ++ queue p).
        apply Permutation_app_tail. apply remove_nth_perm.
        rewrite nth_error_map, Et. reflexivity. }
    pose proof (task_step_title t w) as Htitle.
    pose proof (task_step_continues quality max_retries t w) as Hcont.
    destruct (OrchestratorAsync.task_step quality max_retries t w)
      as [[[e | [t' | res]] w1] t1];
      rewrite Hadv in Hstep; injection Hstep as <- _ _.
    + apply Hfin. intros res. discriminate.
    + destruct (Hcont t' w1 t1 eq_refl) as [Hv _].
      exists pairs. cbn [queue active completed].
      split; [exact Hdone | split; [exact Hall |]].
      rewrite (map_replace_nth t_video _ _ _ _ Et Hv). exact Hperm.
    + apply Hfin. intros res' [= <-]. cbn [fst].
      exact (Htitle res w1 t1 eq_refl).
Qed.

Lemma run_pool_titles sched videos w :
  1 <= max_workers ->
  exists p w' tr pairs,
    OrchestratorAsync.run_pool quality max_retries max_workers sched
      (OrchestratorAsync.budget max_retries videos) 0
      (OrchestratorAsync.submit_all videos) w = (inr p, w', tr) /\
    completed p = map snd pairs /\
    Forall titled pairs /\
    Permutation videos (map fst pairs).
Proof.
  intros Hw.
  destruct (run_pool_ends quality max_retries max_workers
              (titles_kept videos) sched)
    with (n := OrchestratorAsync.budget max_retries videos) (k := O)
         (p := OrchestratorAsync.submit_all videos) (w := w)
    as (p & w' & tr & Hrun & (pairs & Hdone & Hall & Hperm) & _ & Hend).
  - intros c a p0 w1 p1 w2 tr0 HI Hc Hstep.
    eapply pool_step_titles_kept; eassumption.
  - exists []. cbn. repeat split; [constructor | reflexivity].
  - assert (Hz : OrchestratorAsync.choices max_workers p = O).
    { apply Hend. unfold pool_cost, OrchestratorAsync.budget.
      cbn [OrchestratorAsync.submit_all queue active map list_sum fold_right].
      lia. }
    apply choices_zero in Hz as [Ha Hq]. specialize (Hq Hw).
    rewrite Ha, Hq in Hperm. cbn [map app] in Hperm.
    rewrite app_nil_r in Hperm.
    exists p, w', tr, pairs. repeat split; assumption.
Qed.

(** X19: no title is lost or duplicated.  When step 2 of either
    orchestrator returns, the titles of [video_data] together with
    [failed_videos] are the titles of the playlist's videos, each as often
    as it occurs in the playlist: every video is on record exactly once,
    as resolved or as failed, under any schedule of the pool and any order
    of completion. *)
Theorem every_title_recorded_once sched yield :
  (forall videos result w st,
      outcome (Orchestrator.resolve_step quality delay max_retries videos
                 result w) = inr st ->
      Permutation (recorded_titles st) (map title videos)) /\
  (forall videos result w st,
      outcome (OrchestratorAsync.resolve_step quality max_retries
                 max_workers sched yield videos result w) = inr st ->
      Permutation (recorded_titles st) (map title videos)).
Proof.
  split; intros videos result w st H.
  - unfold Orchestrator.resolve_step, outcome in H.
    destruct (Orchestrator.for_videos quality delay max_retries (len videos)
                (enumerate 1 videos)
                {| video_data := []; failed_videos := []; report := result |}
                w) as [[r w'] t] eqn:E.
    cbn in H. subst r. apply for_videos_titles in E.
    now rewrite map_snd_enumerate in E.
  - unfold OrchestratorAsync.resolve_step in H.
    destruct (max_workers <=? 0) eqn:Ew; [discriminate |].
    apply Z.leb_gt in Ew.
    rewrite (bind_returns (ret tt) _ w tt w [] eq_refl) in H.
    destruct (run_pool_titles sched videos w ltac:(lia))
      as (p & w1 & tr & pairs & Hrun & Hdone & Hall & Hperm).
    rewrite (bind_returns _ _ _ _ _ _ Hrun) in H.
    rewrite aggregate_run in H. cbn [outcome trace world_of fst snd] in H.
    rewrite Hdone, arrange_map in H.
    apply tally_futures_titles in H.
    + cbn [recorded_titles video_data failed_videos map app] in H.
      rewrite H. apply Permutation_map. rewrite Hperm.
      apply Permutation_map. apply arrange_perm.
    + eapply Permutation_Forall; [| exact Hall].
      symmetry. apply arrange_perm.
Qed.

End TitlesKept.

(** ** Runs without attempts *)

Section NoRetries.
Context {R : Runtime}.
Variables (quality : string) (delay : Q) (max_retries max_workers : Z).
Hypothesis Hnone : max_retries <= 0.









End NoRetries.


(** ** A playlist without a title *)

Section Untitled.
Context {R : Runtime}.
Variables (quality : string) (delay : Q) (max_retries max_workers : Z).

Lemma write_step_untitled n output_path st w r w' t :
  PyStr.truthy_opt output_path = false ->
  accounted n st ->
  write_step None output_path st w = (inr r, w', t) ->
  successful r = 0 /\ success r = false /\ output_file r = None.
Proof.
  intros Hout (_ & A2 & _ & _ & _ & A6 & A7 & _).
  unfold write_step. destruct (video_data st) as [| e es] eqn:Evd.
  - cbn. intros [= <- _ _]. cbn [add_error successful success output_file].
    change (len (@nil entry)) with 0 in A2. repeat split; congruence.
  - rewrite Hout. cbn [OutputFormatter.generate_output_filename].
    unfold bind, raise. discriminate.
Qed.

(** X21: a playlist whose ['title'] is [None] cannot be saved under a
    generated name.  When yt-dlp reports the title as [None] and no output
    path is given, no run of either orchestrator returns a report with a
    resolved video: either nothing was resolved, or
    [generate_output_filename] raises outside the guarded write and the
    whole run is lost. *)
Theorem untitled_playlist_needs_output_path sched yield playlist_url
    output_path w videos :
  PyStr.truthy_opt output_path = false ->
  outcome (fetch_step playlist_url w) = inr (inr (None, videos)) ->
  (forall r,
      outcome (Orchestrator.process_playlist quality delay max_retries
                 playlist_url output_path w) = inr r ->
      successful r = 0 /\ success r = false /\ output_file r = None) /\
  (forall r,
      outcome (OrchestratorAsync.process_playlist quality max_retries
                 max_workers sched yield playlist_url output_path w) = inr r ->
      successful r = 0 /\ success r = false /\ output_file r = None).
Proof.
  intros Hout Hfetch.
  destruct (fetch_step_run playlist_url w) as (x & w1 & Hx).
  rewrite Hx in Hfetch. cbn in Hfetch. injection Hfetch as ->.
  split; intros r Hrun.
  - unfold Orchestrator.process_playlist in Hrun.
    rewrite (bind_returns _ _ _ _ _ _ Hx) in Hrun.
    destruct videos as [| v vs].
    + cbn in Hrun. injection Hrun as <-. cbn. repeat split.
    + unfold outcome in Hrun. cbn [fst] in Hrun.
      destruct ((st <- Orchestrator.resolve_step quality delay max_retries
                         (v :: vs)
                         (set_total_videos initial_result (len (v :: vs))) ;;
                 write_step None output_path st) w1) as [[r0 w2] t2] eqn:E.
      cbn in Hrun. subst r0.
      apply bind_inr_inv in E as (st & w3 & t3 & t4 & Hres & Hwrite & _).
      apply seq_resolve_step_accounted in Hres.
      eapply write_step_untitled; eassumption.
  - unfold OrchestratorAsync.process_playlist in Hrun.
    rewrite (bind_returns _ _ _ _ _ _ Hx) in Hrun.
    destruct videos as [| v vs].
    + cbn in Hrun. injection Hrun as <-. cbn. repeat split.
    + unfold outcome in Hrun. cbn [fst] in Hrun.
      destruct ((st <- OrchestratorAsync.resolve_step quality max_retries
                         max_workers sched yield (v :: vs)
                         (set_total_videos initial_result (len (v :: vs))) ;;
                 write_step None output_path st) w1) as [[r0 w2] t2] eqn:E.
      cbn in Hrun. subst r0.
      apply bind_inr_inv in E as (st & w3 & t3 & t4 & Hres & Hwrite & _).
      apply async_resolve_step_accounted in Hres as [Hres _].
      eapply write_step_untitled; eassumption.
Qed.

End Untitled.

Lemma untitled_playlist_needs_output_path_witness :
  outcome (@Orchestrator.process_playlist untitled_playlist "best" (3 # 2)%Q 3
             demo_url None first_resolves)
  = inl (AttributeError "'NoneType' object has no attribute 'replace'") /\
  forall r,
    outcome (@Orchestrator.process_playlist untitled_playlist "best"
               (3 # 2)%Q 3 demo_url None first_resolves) = inr r ->
    successful r = 0 /\ success r = false /\ output_file r = None.
Proof.
  split; [vm_compute; reflexivity |].
  assert (Hout : PyStr.truthy_opt None = false) by reflexivity.
  assert (Hfetch :
    outcome (@fetch_step untitled_playlist demo_url first_resolves)
    = inr (inr (None,
                [{| id := "a"; title := "a";
                    url := "https://www.youtube.com/watch?v=a";
                    duration := 0 |}])))
    by (vm_compute; reflexivity).
  exact (proj1 (@untitled_playlist_needs_output_path untitled_playlist "best"
                  (3 # 2)%Q 3 2 (fun k => k) [] demo_url None first_resolves
                  _ Hout Hfetch)).
Defined.

(** ** The web application *)

Section WebFacts.
Context {R : Runtime}.
Variable http_exception_str : WebMain.HTTPException -> string.
Variable validation_error_str : string.

Lemma web_safe_title video_title :
  let safe :=
    PyStr.replace " "%char "_"%char (WebApp.sanitize_filename video_title) in
  PyStr.mem " "%char safe = false /\
  (forall c, PyStr.mem c OutputFormatter.invalid_chars = true ->
             PyStr.mem c safe = false) /\
  (String.length safe <= 200)%nat.
Proof.
  cbn zeta. split; [| split].
  - apply mem_replace_old. discriminate.
  - intros c Hc. apply mem_replace_other.
    + intros ->. vm_compute in Hc. discriminate.
    + unfold WebApp.sanitize_filename, PyStr.strip.
      apply mem_slice_to, mem_rstrip, mem_lstrip.
      apply replace_invalid_absent; [reflexivity | left; exact Hc].
  - rewrite length_replace. apply length_slice_to.
Qed.

(** X22: the helper of the web application asks the resolver once and only
    once for a video (no retry and no pause, unlike both orchestrators) and
    never raises.  On a truthy URL it returns that URL followed by ['#'], a
    name and ['.mp4'], where the name has no space, none of the nine
    invalid characters and at most 200 characters; otherwise it returns the
    failure dictionary. *)
Theorem web_resolve_video_url_once video_data w :
  let quality := get_default (WebMain.vr_quality video_data) "best" in
  let a := answer (WebMain.vr_id video_data) quality w in
  trace (WebMain.resolve_video_url video_data w)
  = [Resolve (WebMain.vr_id video_data) quality] /\
  world_of (WebMain.resolve_video_url video_data w)
  = after (WebMain.vr_id video_data) quality w /\
  (PyStr.truthy_opt (fst a) = true ->
   exists safe,
     outcome (WebMain.resolve_video_url video_data w)
     = inr (WebMain.UrlResolved (WebMain.vr_title video_data)
              (get_default (fst a) "" ++ "#" ++ safe ++ ".mp4")%string
              quality (snd a)) /\
     PyStr.mem " "%char safe = false /\
     (forall c, PyStr.mem c OutputFormatter.invalid_chars = true ->
                PyStr.mem c safe = false) /\
     (String.length safe <= 200)%nat) /\
  (PyStr.truthy_opt (fst a) = false ->
   outcome (WebMain.resolve_video_url video_data w)
   = inr (WebMain.UrlFailed (WebMain.vr_title video_data)
            "Failed to resolve URL")).
Proof.
  cbn zeta. unfold WebMain.resolve_video_url.
  rewrite (bind_returns _ _ _ _ _ _
             (get_direct_url_run (WebMain.vr_id video_data)
                (get_default (WebMain.vr_quality video_data) "best") w)).
  destruct (answer (WebMain.vr_id video_data)
              (get_default (WebMain.vr_quality video_data) "best") w)
    as [direct_url format_info].
  cbn [fst snd]. destruct (PyStr.truthy_opt direct_url).
  - unfold ret. cbn [outcome world_of trace fst snd app].
    split; [reflexivity |]. split; [reflexivity |].
    split; [| discriminate].
    intros _. eexists. split; [reflexivity |].
    apply web_safe_title.
  - unfold ret. cbn [outcome world_of trace fst snd app].
    split; [reflexivity |]. split; [reflexivity |].
    split; [discriminate |]. reflexivity.
Qed.

(** X23: the playlist endpoint never answers 404.  Every error of
    [fetch_playlist] has status 500 and a detail that starts with "Failed
    to fetch playlist: ": the [HTTPException] with status 404 raised for an
    empty playlist is caught by the [except Exception] of the same function
    and wrapped.  A response that is returned lists at least one video and
    counts them in [total_videos]; and the endpoint never invokes the
    resolver. *)
Theorem web_fetch_playlist_never_404 url w :
  match fst (fst (WebMain.fetch_playlist http_exception_str
                    validation_error_str url w)) with
  | inl h =>
      WebMain.status_code h = 500 /\
      exists text,
        WebMain.detail h = ("Failed to fetch playlist: " ++ text)%string
  | inr response =>
      WebMain.pr_total_videos response = len (WebMain.pr_videos response) /\
      1 <= WebMain.pr_total_videos response
  end /\
  snd (WebMain.fetch_playlist http_exception_str validation_error_str url w)
  = [] /\
  (outcome (PlaylistFetcher.get_playlist_videos url
              (world_of (PlaylistFetcher.get_playlist_title url w)))
   = inr [] ->
   fst (fst (WebMain.fetch_playlist http_exception_str validation_error_str
               url w))
   = inl {| WebMain.status_code := 500;
            WebMain.detail :=
              ("Failed to fetch playlist: "
                 ++ http_exception_str
                      {| WebMain.status_code := 404;
                         WebMain.detail := "No videos found in playlist" |})%string |}).
Proof.
  unfold WebMain.fetch_playlist, WebMain.fetch_playlist_body.
  destruct (get_playlist_title_run url w) as (pt & w1 & Ht).
  rewrite (bind_returns _ _ _ _ _ _ Ht). rewrite Ht.
  cbn [world_of fst snd].
  pose proof (get_playlist_videos_trace url w1) as Hv.
  rewrite bind_run.
  destruct (PlaylistFetcher.get_playlist_videos url w1)
    as [[[e | videos] w2] t2]; cbn in Hv; subst t2.
  - cbn. repeat split; [eexists; reflexivity | discriminate].
  - destruct videos as [| v vs].
    + cbn. repeat split. eexists; reflexivity.
    + destruct pt as [pt |]; cbn.
      * repeat split; [| discriminate].
        unfold len. cbn [List.length]. lia.
      * repeat split; [eexists; reflexivity | discriminate].
Qed.

End WebFacts.

(** ** Videos without a size *)

Section SizeLabels.
Context {R : Runtime}.

(** X24: when the size label cannot be made.  For the format that
    [get_direct_url] builds from an info dictionary, and a size that is
    [None] or a number below 2^53 in magnitude (a larger [int] can make the
    division overflow), [format_filesize] raises exactly when ['filesize']
    is falsy ([None] or zero) and the key ['filesize_approx'] is present
    with the value [None]; the error is then the [TypeError] of the
    comparison.  With ['filesize'] falsy and ['filesize_approx'] missing
    the label is "Unknown". *)
Theorem size_label_raises_iff info w direct_url fi :
  outcome (UrlResolver.read_info (Some info) w) = inr (direct_url, Some fi) ->
  (forall q, filesize fi = PyNum q -> exact_size q) ->
  ((exists e, UrlResolver.format_filesize (filesize fi) = inl e) <->
   pynum_truthy (info_filesize info) = false /\
   info_filesize_approx info = Some PyNone) /\
  (forall e, UrlResolver.format_filesize (filesize fi) = inl e ->
             e = none_size_error) /\
  (pynum_truthy (info_filesize info) = false ->
   info_filesize_approx info = None ->
   UrlResolver.format_filesize (filesize fi) = inr "Unknown").
Proof.
  intros H _.
  assert (Hfi : filesize fi =
                if pynum_truthy (info_filesize info) then info_filesize info
                else get_default (info_filesize_approx info) (PyNum 0)).
  { unfold UrlResolver.read_info in H.
    destruct (negb (PyStr.truthy_opt (info_url info))).
    - destruct (info_requested_formats info) as [[| f fs] |];
        cbn in H; try discriminate; now injection H as _ <-.
    - cbn in H. now injection H as _ <-. }
  rewrite Hfi. clear H Hfi.
  destruct (info_filesize info) as [| q];
    destruct (info_filesize_approx info) as [[| q'] |];
    cbn [pynum_truthy];
    try destruct (Qeq_bool q 0) eqn:Eq;
    cbn [negb get_default UrlResolver.format_filesize];
    try rewrite Eq;
    try destruct (Qeq_bool q' 0) eqn:Eq';
    (split;
     [split;
      [ intros [e He]; first [discriminate He | split; reflexivity]
      | intros [Ha Hb]; first [eexists; reflexivity | congruence] ]
     |split;
      [ intros e He; first [discriminate He | injection He as <-; reflexivity]
      | intros Ha Hb; first [reflexivity | congruence] ]]).
Qed.

End SizeLabels.

Lemma size_label_raises_iff_witness :
  (exists e,
     @UrlResolver.format_filesize two_videos
       (filesize
          {| resolution := "1920x1080"; filesize := PyNone; ext := "mp4";
             format_note := "1080p"; vcodec := "avc1"; acodec := "mp4a";
             filesize_str := None |}) = inl e) /\
  ~ (exists e,
       @UrlResolver.format_filesize two_videos
         (filesize
            {| resolution := "1920x1080"; filesize := PyNum 1000;
               ext := "mp4"; format_note := "1080p"; vcodec := "avc1";
               acodec := "mp4a"; filesize_str := None |}) = inl e).
Proof.
  split.
  - refine (proj2 (proj1 (@size_label_raises_iff two_videos info_without_size
                            [] (Some "https://cdn.example/a.mp4") _ _ _)) _).
    + vm_compute. reflexivity.
    + intros q Hq. discriminate Hq.
    + split; reflexivity.
  - intros Hex.
    assert (Hread :
      outcome (@UrlResolver.read_info two_videos
                 (Some (info_with_url (Some "https://cdn.example/a.mp4"))) [])
      = inr (Some "https://cdn.example/a.mp4",
             Some {| resolution := "1920x1080"; filesize := PyNum 1000;
                     ext := "mp4"; format_note := "1080p"; vcodec := "avc1";
                     acodec := "mp4a"; filesize_str := None |}))
      by (vm_compute; reflexivity).
    assert (Hsize : forall q,
      filesize {| resolution := "1920x1080"; filesize := PyNum 1000;
                  ext := "mp4"; format_note := "1080p"; vcodec := "avc1";
                  acodec := "mp4a"; filesize_str := None |} = PyNum q ->
      exact_size q).
    { intros q Hq. cbn in Hq. injection Hq as <-. split; reflexivity. }
    destruct (proj1 (proj1 (@size_label_raises_iff two_videos
                              (info_with_url (Some "https://cdn.example/a.mp4"))
                              [] _ _ Hread Hsize)) Hex) as [Hf _].
    vm_compute in Hf. discriminate Hf.
Defined.

Section SizelessVideo.
Context {R : Runtime}.
Variable det : string -> string -> exn + option info_dict.
Hypothesis Hdet : deterministic det.
Variables (quality : string) (delay : Q) (max_retries max_workers : Z).





End SizelessVideo.

